(** * ColorMixingGym: the paint-mixing environment of [cm_env.py]

    A shallow embedding of [SubtractiveModel], [Paint] and
    [ColorMixingEnv], and the properties of the environment's
    specification that can be settled on it.

    The code is embedded twice, with the same objects, control flow and
    exceptions and two readings of the numbers.
    - In the first, amounts are exact rationals in canonical form ([Qc]),
      in line with the data model of the specification, where an amount is
      a real number, and the reward is a real number.  It settles what
      does not depend on rounding: which objects a call reads, creates and
      writes, the branches taken, the exceptions, the shape of the
      observation, the step counter.  An integer enters the arithmetic of
      amounts through [Qc_of_Z]; [int(x)] truncates toward zero; a
      division by zero raises.
    - In the second, module [B64], amounts and rewards are IEEE 754
      binary64 numbers, the floats of Python and numpy, with the rounding
      of every operation and with [int] raising on nan and the
      infinities.  It settles the properties that an equality of amounts
      or a truncated quotient decides: conservation of the total, the
      mixer on empty paints, the value of the reward, a beaker poured
      into itself.

    Modelling decisions.
    - A [Paint] is a mutable Python object: [split] updates the receiver in
      place, [step] reads source and destination through the same list,
      and a beaker list may hold one object several times.  Objects live
      in a heap and the environment holds references into it.
    - Exceptions are explicit: every method is a computation in a state and
      exception monad that keeps the state reached when the exception was
      raised.
    - The reward involves a square root; in the first model it is a real
      number ([R]) extended with the two infinities of [float('inf')]. *)

From Stdlib Require Import Floats ZArith QArith Qcanon Reals Qreals Lra Lia Bool.
From stdpp Require Import base list numbers.

Local Open Scope Z_scope.

(** A decimal literal of a double stands for the nearest double, as in
    Python. *)
Set Warnings "-inexact-float".

(** ** Python numbers *)

(** [a <= b] on amounts, as a boolean. *)
Definition Qcleb (a b : Qc) : bool := Qle_bool a b.

(** [int(x)]: truncation toward zero. *)
Definition py_int (x : Qc) : Z := Z.quot (Qnum x) (Zpos (Qden x)).

(** [max(a, b)] of Python: [b] only when [b > a]. *)
Definition py_max (a b : Qc) : Qc := if Qcleb b a then a else b.

(** [abs(x)]. *)
Definition py_abs (x : Qc) : Qc := if Qcleb 0%Qc x then x else (- x)%Qc.

(** ** Exceptions and the state monad *)

Inductive exn : Type :=
| IndexError          (* list index out of range *)
| ZeroDivisionError   (* division by zero *)
| AxisError           (* numpy: axis out of bounds for the array *)
| ValueError          (* numpy: array dimensions do not match; [int(nan)] *)
| OverflowError       (* [int(inf)]; an int too large for a float *)
| BadRef.             (* a reference outside the heap: cannot arise in
                         Python, see [refs_valid] *)

Inductive outcome (A : Type) : Type :=
| Ret (a : A)
| Raise (e : exn).
Arguments Ret {A} a.
Arguments Raise {A} e.

(** A computation over a state [S] that returns or raises, and always
    leaves a state behind. *)
Definition M (S A : Type) : Type := S -> outcome A * S.

Global Instance M_ret {S : Type} : MRet (M S) :=
  fun A (a : A) s => (Ret a, s).

Global Instance M_bind {S : Type} : MBind (M S) :=
  fun A B (f : A -> M S B) (m : M S A) s =>
    match m s with
    | (Ret a, s') => f a s'
    | (Raise e, s') => (Raise e, s')
    end.

(** A computation without state that returns or raises, run inside [M]. *)
Definition lift {S A : Type} (o : outcome A) : M S A := fun s => (o, s).

(** [x / y] on numbers: raises when [y] is zero. *)
Definition py_div (x y : Qc) : outcome Qc :=
  if Qc_eq_dec y 0%Qc then Raise ZeroDivisionError else Ret (x / y)%Qc.

(** [l[i]] with Python's negative indices: the position read or written. *)
Definition py_index (len : nat) (i : Z) : outcome nat :=
  if (0 <=? i) && (i <? Z.of_nat len) then Ret (Z.to_nat i)
  else if (- Z.of_nat len <=? i) && (i <? 0) then Ret (Z.to_nat (Z.of_nat len + i))
  else Raise IndexError.

(** ** Colors and paints *)

(** [Tuple[int, int, int]]. *)
Definition Color : Type := Z * Z * Z.

(** [c[i]] for [i] in [range(3)]. *)
Definition channel (c : Color) (i : nat) : Z :=
  let '(c0, c1, c2) := c in
  match i with O => c0 | S O => c1 | _ => c2 end.

(** The fields of a [Paint] object. *)
Record Paint : Type := mkPaint { color : Color; amount : Qc }.

Module SubtractiveModel.

(** [tuple(255 - value for value in rgb)] *)
Definition _rgb_to_cmy (rgb : Color) : Color :=
  let '(r, g, b) := rgb in (255 - r, 255 - g, 255 - b).

Definition _cmy_to_rgb (cmy : Color) : Color :=
  let '(c, m, y) := cmy in (255 - c, 255 - m, 255 - y).

(** One channel of [mixed_cmy]:
    [int((cmy1[i] * paint1.amount + cmy2[i] * paint2.amount) / total_amount)] *)
Definition mixed_channel (cmy1 cmy2 : Color) (a1 a2 total_amount : Qc) (i : nat)
  : outcome Z :=
  match py_div (Qc_of_Z (channel cmy1 i) * a1 + Qc_of_Z (channel cmy2 i) * a2)%Qc
               total_amount with
  | Ret q => Ret (py_int q)
  | Raise e => Raise e
  end.

(** [mix_colors(paint1, paint2)]: reads the two paints, returns a color
    (not a [Paint], whatever the annotation of the source says). *)
Definition mix_colors (paint1 paint2 : Paint) : outcome Color :=
  let cmy1 := _rgb_to_cmy (color paint1) in
  let cmy2 := _rgb_to_cmy (color paint2) in
  let total_amount := (amount paint1 + amount paint2)%Qc in
  let mixed i := mixed_channel cmy1 cmy2 (amount paint1) (amount paint2) total_amount i in
  match mixed 0%nat with
  | Raise e => Raise e
  | Ret m0 =>
      match mixed 1%nat with
      | Raise e => Raise e
      | Ret m1 =>
          match mixed 2%nat with
          | Raise e => Raise e
          | Ret m2 => Ret (_cmy_to_rgb (m0, m1, m2))
          end
      end
  end.

End SubtractiveModel.

(** ** The heap of [Paint] objects *)

Abbreviation ref := nat (only parsing).
Abbreviation Heap := (list Paint) (only parsing).

(** [Paint(color, amount)]: a new object. *)
Definition new_Paint (c : Color) (a : Qc) : M Heap ref :=
  fun h => (Ret (length h), h ++ [mkPaint c a]).

(** Reading the fields of an object. *)
Definition load (r : ref) : M Heap Paint :=
  fun h => match h !! r with
           | Some p => (Ret p, h)
           | None => (Raise BadRef, h)
           end.

(** [self.amount = a] *)
Definition set_amount (r : ref) (a : Qc) : M Heap unit :=
  fun h => match h !! r with
           | Some p => (Ret tt, <[r := mkPaint (color p) a]> h)
           | None => (Raise BadRef, h)
           end.

(** *** Methods of [Paint] *)

Definition mix_with (self other : ref) : M Heap ref :=
  s ← load self;
  o ← load other;
  let mixed_amount := (amount s + amount o)%Qc in
  mixed_color ← lift (SubtractiveModel.mix_colors s o);
  new_Paint mixed_color mixed_amount.

Definition subtract_amount (self : ref) (amt : Qc) : M Heap unit :=
  s ← load self;
  set_amount self (py_max (amount s - amt)%Qc 0%Qc).

Definition split (self : ref) (split_amount : Qc) : M Heap (ref * option ref) :=
  s ← load self;
  if Qcleb split_amount 0%Qc then
    p ← new_Paint (color s) 0%Qc;
    mret (p, None)
  else if Qcleb (amount s) split_amount then
    p ← new_Paint (color s) (amount s);
    mret (p, None)
  else
    new_paint ← new_Paint (color s) split_amount;
    subtract_amount self split_amount;;
    s' ← load self;
    rest ← new_Paint (color s') (amount s');
    mret (new_paint, Some rest).

(** ** numpy, as far as the environment uses it *)

Module np.

(** Arrays of one and of two dimensions; the rows of a two-dimensional
    array all have the same length. *)
Inductive ndarray : Type :=
| Arr1 (xs : list Qc)
| Arr2 (rows : list (list Qc)).

(** [np.array(rows)] on a list of rows of one length: the empty list
    gives the empty array of one dimension, shape [(0,)]. *)
Definition array (rows : list (list Qc)) : ndarray :=
  match rows with
  | [] => Arr1 []
  | _ :: _ => Arr2 rows
  end.

Definition shape (a : ndarray) : list nat :=
  match a with
  | Arr1 xs => [length xs]
  | Arr2 rows => [length rows; match rows with [] => O | r :: _ => length r end]
  end.

(** [np.concatenate([a, b], axis=1)]: both arrays need a second axis and
    the same number of rows. *)
Definition concatenate_axis1 (a b : ndarray) : outcome ndarray :=
  match a, b with
  | Arr2 r1, Arr2 r2 =>
      if Nat.eqb (length r1) (length r2) then Ret (Arr2 (zip_with app r1 r2))
      else Raise ValueError
  | _, _ => Raise AxisError
  end.

(** [np.linalg.norm(np.array(c1) - np.array(c2))] on two colors. *)
Definition linalg_norm_diff (c1 c2 : Color) : R :=
  let '(r1, g1, b1) := c1 in
  let '(r2, g2, b2) := c2 in
  sqrt (IZR ((r1 - r2) * (r1 - r2) + (g1 - g2) * (g1 - g2) + (b1 - b2) * (b1 - b2))).

End np.

(** ** Floats of the reward: reals and the infinities *)

Inductive xreal : Type :=
| Finite (x : R)
| PosInf
| NegInf.

(** [x < best] for a finite [x]. *)
Definition xlt_finite (x : R) (best : xreal) : bool :=
  match best with
  | Finite y => if Rlt_dec x y then true else false
  | PosInf => true
  | NegInf => false
  end.

(** [-x] *)
Definition xopp (x : xreal) : xreal :=
  match x with
  | Finite y => Finite (- y)%R
  | PosInf => NegInf
  | NegInf => PosInf
  end.

(** [x <= y] *)
Definition xle (x y : xreal) : Prop :=
  match x, y with
  | NegInf, _ => True
  | _, PosInf => True
  | Finite a, Finite b => (a <= b)%R
  | _, _ => False
  end.

(** ** The environment *)

(** The [Paint] objects of the program and the attributes of the one
    [ColorMixingEnv] object.  [target_paint] is an object of its own that
    no method updates; it is kept by value.  The gym spaces
    ([action_space], [observation_space]) are declarations only. *)
Record World : Type := mkWorld {
  heap : Heap;
  beakers : list ref;
  target_paint : Paint;
  max_steps : Z;
  step_count : Z
}.

Definition set_heap (h : Heap) (w : World) : World :=
  mkWorld h (beakers w) (target_paint w) (max_steps w) (step_count w).

Definition set_beakers (bs : list ref) (w : World) : World :=
  mkWorld (heap w) bs (target_paint w) (max_steps w) (step_count w).

Definition set_step_count (n : Z) (w : World) : World :=
  mkWorld (heap w) (beakers w) (target_paint w) (max_steps w) n.

(** Reading an attribute of [self], and updating [self]. *)
Definition gets {S A : Type} (f : S -> A) : M S A := fun s => (Ret (f s), s).

Definition modify {S : Type} (f : S -> S) : M S unit := fun s => (Ret tt, f s).

(** A method of [Paint] called from the environment. *)
Definition on_heap {A : Type} (m : M Heap A) : M World A :=
  fun w => let '(r, h) := m (heap w) in (r, set_heap h w).

(** [[f(x) for x in l]] *)
Fixpoint list_comp {S A B : Type} (f : A -> M S B) (l : list A) : M S (list B) :=
  match l with
  | [] => mret []
  | x :: l' =>
      y ← f x;
      ys ← list_comp f l';
      mret (y :: ys)
  end.

(** [self.beakers[i]] *)
Definition beakers_getitem (i : Z) : M World ref :=
  bs ← gets beakers;
  k ← lift (py_index (length bs) i);
  match bs !! k with
  | Some r => mret r
  | None => lift (Raise IndexError)
  end.

(** [self.beakers[i] = r] *)
Definition beakers_setitem (i : Z) (r : ref) : M World unit :=
  bs ← gets beakers;
  k ← lift (py_index (length bs) i);
  modify (set_beakers (<[k := r]> bs)).

(** [ColorMixingEnv(beakers, target_color, target_amount, max_steps)] on
    the heap [h] of the caller, which holds the paints of [beakers]: the
    state the assignments leave.  The list is kept, not copied.  The two
    spaces built afterwards are no part of the state; gymnasium's
    [MultiDiscrete] refuses a count of 0, so the constructor returns only
    when [beakers] is not empty. *)
Definition __init__ (h : Heap) (beakers : list ref)
    (target_color : Color) (target_amount : Qc) (max_steps : Z) : World :=
  mkWorld h beakers (mkPaint target_color target_amount) max_steps 0.

Definition _get_observation : M World np.ndarray :=
  bs ← gets beakers;
  colors ← on_heap (list_comp (fun beaker =>
              p ← load beaker;
              let '(r, g, b) := color p in
              mret [Qc_of_Z r; Qc_of_Z g; Qc_of_Z b]) bs);
  amounts ← on_heap (list_comp (fun beaker =>
              p ← load beaker;
              mret [amount p]) bs);
  lift (np.concatenate_axis1 (np.array colors) (np.array amounts)).

(** The loop of [_calculate_reward], from the current [best_distance]. *)
Fixpoint reward_loop (target : Paint) (bs : list ref) (best_distance : xreal)
  : M Heap xreal :=
  match bs with
  | [] => mret best_distance
  | b :: bs' =>
      beaker ← load b;
      let color_distance := np.linalg_norm_diff (color beaker) (color target) in
      let amount_distance := Q2R (py_abs (amount beaker - amount target)%Qc) in
      let total_distance := (color_distance + amount_distance)%R in
      reward_loop target bs'
        (if xlt_finite total_distance best_distance then Finite total_distance
         else best_distance)
  end.

Definition _calculate_reward : M World xreal :=
  bs ← gets beakers;
  target ← gets target_paint;
  best_distance ← on_heap (reward_loop target bs PosInf);
  mret (xopp best_distance).

(** [reset()]; the empty [info] dictionary of the result is left out. *)
Definition reset : M World np.ndarray :=
  bs ← gets beakers;
  copies ← on_heap (list_comp (fun paint =>
              p ← load paint;
              new_Paint (color p) (amount p)) bs);
  modify (set_beakers copies);;
  modify (set_step_count 0);;
  _get_observation.

(** An action: [(from_beaker_index, to_beaker_index, amount_ratio)]. *)
Definition Action : Type := Z * Z * Z.

(** [step(action)]: observation, reward, done, truncated (the empty [info]
    dictionary is left out). *)
Definition step (action : Action) : M World (np.ndarray * xreal * bool * bool) :=
  let '(from_beaker_index, to_beaker_index, amount_ratio) := action in
  from_beaker ← beakers_getitem from_beaker_index;
  to_beaker ← beakers_getitem to_beaker_index;
  let amount_ratio := (Qc_of_Z amount_ratio / Qc_of_Z 100)%Qc in
  fb ← on_heap (load from_beaker);
  let amount_to_transfer := (amount_ratio * amount fb)%Qc in
  '(paint_to_transfer, _) ← on_heap (split from_beaker amount_to_transfer);
  mixed_paint ← on_heap (mix_with to_beaker paint_to_transfer);
  beakers_setitem to_beaker_index mixed_paint;;
  modify (fun w => set_step_count (step_count w + 1) w);;
  sc ← gets step_count;
  ms ← gets max_steps;
  let done := ms <=? sc in
  reward ← _calculate_reward;
  let truncated := false in
  obs ← _get_observation;
  mret (obs, reward, done, truncated).

(** ** What a world holds *)

Global Instance Paint_inhabited : Inhabited Paint :=
  populate (mkPaint (0, 0, 0) 0%Qc).

(** Every beaker names an object of the heap, as every reference of a
    Python program does. *)
Definition refs_valid (w : World) : Prop :=
  Forall (fun r => (r < length (heap w))%nat) (beakers w).

(** The beaker list names objects of the heap, each of them once. *)
Definition distinct_beakers (w : World) : Prop :=
  NoDup (beakers w) ∧ refs_valid w.

(** The paints of the beakers, in the order of the beakers. *)
Definition contents (w : World) : list Paint :=
  (fun r => heap w !!! r) <$> beakers w.

(** [num_beakers] *)
Definition num_beakers (w : World) : nat := length (beakers w).

(** The sum of the amounts of a list of paints. *)
Definition sum_amounts (ps : list Paint) : Qc :=
  foldr (fun p acc => (amount p + acc)%Qc) 0%Qc ps.

Definition total_amount (w : World) : Qc := sum_amounts (contents w).

(** A valid action of a world: both indices in [[0, num_beakers)], the
    ratio index in [[0, 100)]. *)
Definition valid_action (w : World) (a : Action) : Prop :=
  let '(from_beaker_index, to_beaker_index, amount_ratio) := a in
  0 <= from_beaker_index < Z.of_nat (num_beakers w) ∧
  0 <= to_beaker_index < Z.of_nat (num_beakers w) ∧
  0 <= amount_ratio < 100.

(** The states of an episode: those a [reset] that returned leaves, and
    those a [step] that returned leaves from them. *)
Inductive reachable : World -> Prop :=
| reachable_reset w obs w' :
    refs_valid w -> reset w = (Ret obs, w') -> reachable w'
| reachable_step w a res w' :
    reachable w -> step a w = (Ret res, w') -> reachable w'.

(** The observations of an episode: what a [reset] returns, and what a
    [step] from a state of an episode returns, with the world left. *)
Inductive returns_observation : World -> np.ndarray -> Prop :=
| obs_reset w obs w' :
    refs_valid w -> reset w = (Ret obs, w') -> returns_observation w' obs
| obs_step w a obs reward done truncated w' :
    reachable w ->
    step a w = (Ret (obs, reward, done, truncated), w') ->
    returns_observation w' obs.

(** The distance of the reward, as the specification words it: Euclidean
    distance between the colors plus absolute difference of the amounts. *)
Definition euclidean (c1 c2 : Color) : R :=
  let '(r1, g1, b1) := c1 in
  let '(r2, g2, b2) := c2 in
  sqrt ((IZR r1 - IZR r2) ^ 2 + (IZR g1 - IZR g2) ^ 2 + (IZR b1 - IZR b2) ^ 2).

Definition distance (target p : Paint) : R :=
  (euclidean (color p) (color target)
   + Rabs (Q2R (amount p) - Q2R (amount target)))%R.

(** The row of a paint in the observation. *)
Definition row_of (p : Paint) : list Qc :=
  let '(r, g, b) := color p in [Qc_of_Z r; Qc_of_Z g; Qc_of_Z b; amount p].

(** The environment the module builds: three beakers of 100 ml, red, green
    and blue; target olive green, 150 ml; [max_steps] left at 100. *)
Definition module_heap : Heap :=
  [ mkPaint (255, 0, 0) (Qc_of_Z 100);
    mkPaint (0, 255, 0) (Qc_of_Z 100);
    mkPaint (0, 0, 255) (Qc_of_Z 100) ].

Definition env : World :=
  __init__ module_heap [0%nat; 1%nat; 2%nat] (128, 128, 0) (Qc_of_Z 150) 100.

(** What [split] does to the two values: the portion handed out, and the
    receiver afterwards. *)
Definition split_values (p : Paint) (s : Qc) : Paint * Paint :=
  if Qcleb s 0%Qc then (mkPaint (color p) 0%Qc, p)
  else if Qcleb (amount p) s then (mkPaint (color p) (amount p), p)
  else (mkPaint (color p) s, mkPaint (color p) (py_max (amount p - s)%Qc 0%Qc)).

(** What the transfer of [step] does to the paints of the beakers, read
    off the heap: the paint at [i] is split, then the paint at [j] (which
    is the receiver of the split when [j = i]) is replaced by the mix. *)
Definition transfer_values (ps : list Paint) (i j : nat) (k : Z)
  : outcome (list Paint) :=
  let p_from := ps !!! i in
  let amount_to_transfer := (Qc_of_Z k / Qc_of_Z 100 * amount p_from)%Qc in
  let '(portion, p_from') := split_values p_from amount_to_transfer in
  let ps1 := <[i := p_from']> ps in
  let p_to := ps1 !!! j in
  match SubtractiveModel.mix_colors p_to portion with
  | Ret c => Ret (<[j := mkPaint c (amount p_to + amount portion)%Qc]> ps1)
  | Raise e => Raise e
  end.

(** ** Auxiliary definitions *)

(** A computation that leaves the state as it found it, whatever it
    returns or raises. *)
Definition read_only {S A : Type} (m : M S A) : Prop :=
  forall s r s', m s = (r, s') -> s' = s.

(** The update of [best_distance] by one beaker, and the loop on values. *)
Definition pick_best (d : R) (best : xreal) : xreal :=
  if xlt_finite d best then Finite d else best.

Fixpoint best_of (target : Paint) (ps : list Paint) (best : xreal) : xreal :=
  match ps with
  | [] => best
  | p :: ps' => best_of target ps' (pick_best (distance target p) best)
  end.

(** A channel of the mix, when the total amount is not zero. *)
Definition mixed_value (c1 c2 : Z) (a1 a2 : Qc) : Z :=
  py_int ((Qc_of_Z c1 * a1 + Qc_of_Z c2 * a2) / (a1 + a2))%Qc.

(** Equality of paints, exceptions and outcomes is decidable. *)
Global Instance Paint_eq_dec : EqDecision Paint.
Proof. solve_decision. Defined.

Global Instance exn_eq_dec : EqDecision exn.
Proof. solve_decision. Defined.

Global Instance outcome_eq_dec {A : Type} `{EqDecision A} : EqDecision (outcome A).
Proof. solve_decision. Defined.

(** An environment of two empty beakers. *)
Definition two_empty_beakers : World :=
  __init__ [mkPaint (255, 0, 0) 0%Qc; mkPaint (0, 255, 0) 0%Qc]
    [0%nat; 1%nat] (128, 128, 0) (Qc_of_Z 150) 100.

(** An environment built on a list that holds one [Paint] object twice. *)
Definition one_paint_twice : World :=
  __init__ [mkPaint (255, 0, 0) (Qc_of_Z 100)] [0%nat; 0%nat]
    (128, 128, 0) (Qc_of_Z 150) 100.

(** The paints of the module's beakers after the action [(0, 1, 50)]. *)
Definition paints_after_first_step : list Paint :=
  [ mkPaint (255, 0, 0) (Qc_of_Z 50);
    mkPaint (85, 170, 0) (Qc_of_Z 150);
    mkPaint (0, 0, 255) (Qc_of_Z 100) ].

(** ** Notions for the further properties *)

(** The three channels of a color within the range of an RGB channel. *)
Definition in_range (c : Color) : Prop :=
  0 <= channel c 0%nat <= 255 ∧
  0 <= channel c 1%nat <= 255 ∧
  0 <= channel c 2%nat <= 255.

(** [x] lies between [a] and [b], whichever of the two is the smaller. *)
Definition between (a b x : Z) : Prop := Z.min a b <= x <= Z.max a b.

(** Channel by channel, [c] lies between [c1] and [c2]. *)
Definition color_between (c1 c2 c : Color) : Prop :=
  between (channel c1 0%nat) (channel c2 0%nat) (channel c 0%nat) ∧
  between (channel c1 1%nat) (channel c2 1%nat) (channel c 1%nat) ∧
  between (channel c1 2%nat) (channel c2 2%nat) (channel c 2%nat).

(** A paint as the data model has it: channels in range, amount not
    negative. *)
Definition sane_paint (p : Paint) : Prop :=
  in_range (color p) ∧ (0 <= amount p)%Qc.

(** Every beaker holds such a paint. *)
Definition sane (w : World) : Prop := Forall sane_paint (contents w).


(** No beaker holds a negative amount. *)
Definition no_negative_amount (w : World) : Prop :=
  Forall (fun p => (0 <= amount p)%Qc) (contents w).

(** A computation on the heap that only adds objects. *)
Definition grows {A : Type} (m : M Heap A) : Prop :=
  forall h o h', m h = (o, h') -> h `prefix_of` h'.

(** A computation on the heap that leaves the objects of [h0] as they
    are. *)
Definition keeps {A : Type} (h0 : Heap) (m : M Heap A) : Prop :=
  forall h o h', h0 `prefix_of` h -> m h = (o, h') -> h0 `prefix_of` h'.

(** The objects of [h0] are as they were, and no beaker is one of them. *)
Definition untouched (h0 : Heap) (w : World) : Prop :=
  h0 `prefix_of` heap w ∧ Forall (fun r => (length h0 <= r)%nat) (beakers w).

(** What follows a first [reset] of the environment [w0]: steps and
    further resets, whether they return or raise. *)
Inductive episode_from (w0 : World) : World -> Prop :=
| episode_start o w :
    reset w0 = (o, w) -> episode_from w0 w
| episode_step w a o w' :
    episode_from w0 w -> step a w = (o, w') -> episode_from w0 w'
| episode_reset w o w' :
    episode_from w0 w -> reset w = (o, w') -> episode_from w0 w'.



Definition green_50 : Paint := mkPaint (0, 255, 0) (Qc_of_Z 50).

(** * Binary64: the arithmetic the interpreter performs *)

(** The classes of [cm_env.py] once more, with the amounts as Python
    computes them: IEEE 754 binary64 numbers, every operation rounded to
    the nearest double, ties to even.  The control flow, the objects and
    the exceptions are those of the definitions above; [float] is the
    binary64 type of the kernel, whose operations are the ones of the
    processor.  An amount given as a Python int (the 100 of the module)
    is the double of the same value: Python converts it at the first
    operation with a float, without rounding up to [2^53]. *)
Module B64.

(** The fields of a [Paint] object. *)
Record Paint : Type := mkPaint { color : Color; amount : float }.

(** [float(z)], the conversion an int undergoes in [int * float] and in
    [int / float]: the nearest double; an int beyond the doubles raises. *)
Definition float_of_int (z : Z) : outcome float :=
  let f := SF2Prim (binary_normalize prec emax z 0 false) in
  if PrimFloat.is_infinity f then Raise OverflowError else Ret f.

(** [int(x)] on a float: truncation toward zero; nan and the infinities
    raise. *)
Definition py_int (x : float) : outcome Z :=
  match Prim2SF x with
  | S754_zero _ => Ret 0
  | S754_finite s m e =>
      let a := match e with
               | Zneg p => Z.shiftr (Zpos m) (Zpos p)
               | _ => Z.shiftl (Zpos m) e
               end in
      Ret (if s then - a else a)
  | S754_infinity _ => Raise OverflowError
  | S754_nan => Raise ValueError
  end.

(** [x / y] on floats: raises when [y] is a zero. *)
Definition py_div (x y : float) : outcome float :=
  if (y =? 0)%float then Raise ZeroDivisionError else Ret (x / y)%float.

(** [max(a, b)] of Python: [b] only when [b > a]. *)
Definition py_max (a b : float) : float := if (a <? b)%float then b else a.

Module SubtractiveModel.

Definition _rgb_to_cmy (rgb : Color) : Color :=
  let '(r, g, b) := rgb in (255 - r, 255 - g, 255 - b).

Definition _cmy_to_rgb (cmy : Color) : Color :=
  let '(c, m, y) := cmy in (255 - c, 255 - m, 255 - y).

(** One channel of [mixed_cmy]:
    [int((cmy1[i] * paint1.amount + cmy2[i] * paint2.amount) / total_amount)];
    the two ints are converted by the two products. *)
Definition mixed_channel (cmy1 cmy2 : Color) (a1 a2 total_amount : float) (i : nat)
  : outcome Z :=
  match float_of_int (channel cmy1 i) with
  | Raise e => Raise e
  | Ret c1 =>
      match float_of_int (channel cmy2 i) with
      | Raise e => Raise e
      | Ret c2 =>
          match py_div (c1 * a1 + c2 * a2)%float total_amount with
          | Raise e => Raise e
          | Ret q => py_int q
          end
      end
  end.

Definition mix_colors (paint1 paint2 : Paint) : outcome Color :=
  let cmy1 := _rgb_to_cmy (color paint1) in
  let cmy2 := _rgb_to_cmy (color paint2) in
  let total_amount := (amount paint1 + amount paint2)%float in
  let mixed i := mixed_channel cmy1 cmy2 (amount paint1) (amount paint2) total_amount i in
  match mixed 0%nat with
  | Raise e => Raise e
  | Ret m0 =>
      match mixed 1%nat with
      | Raise e => Raise e
      | Ret m1 =>
          match mixed 2%nat with
          | Raise e => Raise e
          | Ret m2 => Ret (_cmy_to_rgb (m0, m1, m2))
          end
      end
  end.

End SubtractiveModel.

(** [Paint(color, amount)]: a new object. *)
Definition new_Paint (c : Color) (a : float) : M (list Paint) ref :=
  fun h => (Ret (length h), h ++ [mkPaint c a]).

Definition load (r : ref) : M (list Paint) Paint :=
  fun h => match h !! r with
           | Some p => (Ret p, h)
           | None => (Raise BadRef, h)
           end.

(** [self.amount = a] *)
Definition set_amount (r : ref) (a : float) : M (list Paint) unit :=
  fun h => match h !! r with
           | Some p => (Ret tt, <[r := mkPaint (color p) a]> h)
           | None => (Raise BadRef, h)
           end.

Definition mix_with (self other : ref) : M (list Paint) ref :=
  s ← load self;
  o ← load other;
  let mixed_amount := (amount s + amount o)%float in
  mixed_color ← lift (SubtractiveModel.mix_colors s o);
  new_Paint mixed_color mixed_amount.

Definition subtract_amount (self : ref) (amt : float) : M (list Paint) unit :=
  s ← load self;
  set_amount self (py_max (amount s - amt)%float 0%float).

Definition split (self : ref) (split_amount : float)
  : M (list Paint) (ref * option ref) :=
  s ← load self;
  if (split_amount <=? 0)%float then
    p ← new_Paint (color s) 0%float;
    mret (p, None)
  else if (amount s <=? split_amount)%float then
    p ← new_Paint (color s) (amount s);
    mret (p, None)
  else
    new_paint ← new_Paint (color s) split_amount;
    subtract_amount self split_amount;;
    s' ← load self;
    rest ← new_Paint (color s') (amount s');
    mret (new_paint, Some rest).

Module np.

Inductive ndarray : Type :=
| Arr1 (xs : list float)
| Arr2 (rows : list (list float)).

Definition array (rows : list (list float)) : ndarray :=
  match rows with
  | [] => Arr1 []
  | _ :: _ => Arr2 rows
  end.

Definition concatenate_axis1 (a b : ndarray) : outcome ndarray :=
  match a, b with
  | Arr2 r1, Arr2 r2 =>
      if Nat.eqb (length r1) (length r2) then Ret (Arr2 (zip_with app r1 r2))
      else Raise ValueError
  | _, _ => Raise AxisError
  end.

(** An entry of an int64 array as it enters a float64 array. *)
Definition float64 (z : Z) : float :=
  SF2Prim (binary_normalize prec emax z 0 false).

(** [np.linalg.norm(np.array(c1) - np.array(c2))]: the difference is an
    array of ints, the norm the square root, rounded, of the sum of its
    squares as doubles.  For channels of a byte every square and the sum
    are integers below [2^18], without rounding. *)
Definition linalg_norm_diff (c1 c2 : Color) : float :=
  let '(r1, g1, b1) := c1 in
  let '(r2, g2, b2) := c2 in
  let dr := float64 (r1 - r2) in
  let dg := float64 (g1 - g2) in
  let db := float64 (b1 - b2) in
  PrimFloat.sqrt (dr * dr + dg * dg + db * db)%float.

End np.

Record World : Type := mkWorld {
  heap : list Paint;
  beakers : list ref;
  target_paint : Paint;
  max_steps : Z;
  step_count : Z
}.

Definition set_heap (h : list Paint) (w : World) : World :=
  mkWorld h (beakers w) (target_paint w) (max_steps w) (step_count w).

Definition set_beakers (bs : list ref) (w : World) : World :=
  mkWorld (heap w) bs (target_paint w) (max_steps w) (step_count w).

Definition set_step_count (n : Z) (w : World) : World :=
  mkWorld (heap w) (beakers w) (target_paint w) (max_steps w) n.

Definition on_heap {A : Type} (m : M (list Paint) A) : M World A :=
  fun w => let '(r, h) := m (heap w) in (r, set_heap h w).

(** [self.beakers[i]] *)
Definition beakers_getitem (i : Z) : M World ref :=
  bs ← gets beakers;
  k ← lift (py_index (length bs) i);
  match bs !! k with
  | Some r => mret r
  | None => lift (Raise IndexError)
  end.

(** [self.beakers[i] = r] *)
Definition beakers_setitem (i : Z) (r : ref) : M World unit :=
  bs ← gets beakers;
  k ← lift (py_index (length bs) i);
  modify (set_beakers (<[k := r]> bs)).

(** The state the assignments of the constructor leave; it returns only
    when [beakers] is not empty, see above. *)
Definition __init__ (h : list Paint) (beakers : list ref)
    (target_color : Color) (target_amount : float) (max_steps : Z) : World :=
  mkWorld h beakers (mkPaint target_color target_amount) max_steps 0.

Definition _get_observation : M World np.ndarray :=
  bs ← gets beakers;
  colors ← on_heap (list_comp (fun beaker =>
              p ← load beaker;
              let '(r, g, b) := color p in
              mret [np.float64 r; np.float64 g; np.float64 b]) bs);
  amounts ← on_heap (list_comp (fun beaker =>
              p ← load beaker;
              mret [amount p]) bs);
  lift (np.concatenate_axis1 (np.array colors) (np.array amounts)).

(** The loop of [_calculate_reward], from the current [best_distance]. *)
Fixpoint reward_loop (target : Paint) (bs : list ref) (best_distance : float)
  : M (list Paint) float :=
  match bs with
  | [] => mret best_distance
  | b :: bs' =>
      beaker ← load b;
      let color_distance := np.linalg_norm_diff (color beaker) (color target) in
      let amount_distance := PrimFloat.abs (amount beaker - amount target)%float in
      let total_distance := (color_distance + amount_distance)%float in
      reward_loop target bs'
        (if (total_distance <? best_distance)%float then total_distance
         else best_distance)
  end.

Definition _calculate_reward : M World float :=
  bs ← gets beakers;
  target ← gets target_paint;
  best_distance ← on_heap (reward_loop target bs PrimFloat.infinity);
  mret (- best_distance)%float.

Definition reset : M World np.ndarray :=
  bs ← gets beakers;
  copies ← on_heap (list_comp (fun paint =>
              p ← load paint;
              new_Paint (color p) (amount p)) bs);
  modify (set_beakers copies);;
  modify (set_step_count 0);;
  _get_observation.

(** [step(action)]; [amount_ratio /= 100.0] converts the ratio index. *)
Definition step (action : Action) : M World (np.ndarray * float * bool * bool) :=
  let '(from_beaker_index, to_beaker_index, amount_ratio) := action in
  from_beaker ← beakers_getitem from_beaker_index;
  to_beaker ← beakers_getitem to_beaker_index;
  amount_ratio ← lift (float_of_int amount_ratio);
  let amount_ratio := (amount_ratio / 100)%float in
  fb ← on_heap (load from_beaker);
  let amount_to_transfer := (amount_ratio * amount fb)%float in
  '(paint_to_transfer, _) ← on_heap (split from_beaker amount_to_transfer);
  mixed_paint ← on_heap (mix_with to_beaker paint_to_transfer);
  beakers_setitem to_beaker_index mixed_paint;;
  modify (fun w => set_step_count (step_count w + 1) w);;
  sc ← gets step_count;
  ms ← gets max_steps;
  let done := ms <=? sc in
  reward ← _calculate_reward;
  let truncated := false in
  obs ← _get_observation;
  mret (obs, reward, done, truncated).

(** *** What a world holds *)

Definition refs_valid (w : World) : Prop :=
  Forall (fun r => (r < length (heap w))%nat) (beakers w).

Definition distinct_beakers (w : World) : Prop :=
  NoDup (beakers w) ∧ refs_valid w.

Definition num_beakers (w : World) : nat := length (beakers w).

Definition valid_action (w : World) (a : Action) : Prop :=
  let '(from_beaker_index, to_beaker_index, amount_ratio) := a in
  0 <= from_beaker_index < Z.of_nat (num_beakers w) ∧
  0 <= to_beaker_index < Z.of_nat (num_beakers w) ∧
  0 <= amount_ratio < 100.

Global Instance Paint_inhabited : Inhabited Paint :=
  populate (mkPaint (0, 0, 0) 0%float).

(** The paints of the beakers, in the order of the beakers. *)
Definition contents (w : World) : list Paint :=
  (fun r => heap w !!! r) <$> beakers w.

(** The rational number a double stands for (0 for nan and the
    infinities, which stand for none). *)
Definition exact (x : float) : Qc :=
  match Prim2SF x with
  | S754_finite s m e =>
      Q2Qc (inject_Z (if s then Zneg m else Zpos m) * Qpower (inject_Z 2) e)
  | _ => 0%Qc
  end.

(** The sum of the amounts, as a sum of rational numbers: no rounding. *)
Definition sum_amounts (ps : list Paint) : Qc :=
  foldr (fun p acc => (exact (amount p) + acc)%Qc) 0%Qc ps.

Definition total_amount (w : World) : Qc := sum_amounts (contents w).

(** What [split] does to the two values: the portion handed out, and the
    receiver afterwards. *)
Definition split_values (p : Paint) (s : float) : Paint * Paint :=
  if (s <=? 0)%float then (mkPaint (color p) 0%float, p)
  else if (amount p <=? s)%float then (mkPaint (color p) (amount p), p)
  else (mkPaint (color p) s,
        mkPaint (color p) (py_max (amount p - s)%float 0%float)).

(** The paint [mix_with] makes of two paints. *)
Definition mixed (p_to portion : Paint) : outcome Paint :=
  match SubtractiveModel.mix_colors p_to portion with
  | Ret c => Ret (mkPaint c (amount p_to + amount portion)%float)
  | Raise e => Raise e
  end.

(** What the transfer of [step] does to the paints of the beakers, read
    off the heap: the paint at [i] is split, then the paint at [j] (which
    is the receiver of the split when [j = i]) is replaced by the mix. *)
Definition transfer_values (ps : list Paint) (i j : nat) (k : Z)
  : outcome (list Paint) :=
  match float_of_int k with
  | Raise e => Raise e
  | Ret ratio =>
      let p_from := ps !!! i in
      let amount_to_transfer := (ratio / 100 * amount p_from)%float in
      let '(portion, p_from') := split_values p_from amount_to_transfer in
      let ps1 := <[i := p_from']> ps in
      match mixed (ps1 !!! j) portion with
      | Ret p => Ret (<[j := p]> ps1)
      | Raise e => Raise e
      end
  end.

(** The distance of one beaker as the loop of [_calculate_reward]
    computes it, a double. *)
Definition total_distance (target p : Paint) : float :=
  (np.linalg_norm_diff (color p) (color target)
   + PrimFloat.abs (amount p - amount target))%float.

(** The loop on values. *)
Fixpoint best_of (target : Paint) (ps : list Paint) (best : float) : float :=
  match ps with
  | [] => best
  | p :: ps' =>
      best_of target ps'
        (if (total_distance target p <? best)%float then total_distance target p
         else best)
  end.


(** The row of a paint in the observation. *)
Definition row_of (p : Paint) : list float :=
  let '(r, g, b) := color p in
  [np.float64 r; np.float64 g; np.float64 b; amount p].

(** The environment the module builds. *)
Definition module_heap : list Paint :=
  [ mkPaint (255, 0, 0) 100%float;
    mkPaint (0, 255, 0) 100%float;
    mkPaint (0, 0, 255) 100%float ].

Definition env : World :=
  __init__ module_heap [0%nat; 1%nat; 2%nat] (128, 128, 0) 150%float 100.


(** A double is not negative: nan is not. *)
Definition not_negative (x : float) : Prop := (x <? 0)%float = false.

(** The same on the specification of binary64: a zero, a positive number,
    the positive infinity, or nan. *)
Definition sf_not_negative (x : spec_float) : Prop :=
  match x with
  | S754_zero _ | S754_nan | S754_infinity false | S754_finite false _ _ => True
  | _ => False
  end.


(** A zero, of either sign: [x == 0] in Python. *)
Definition is_zero (x : float) : Prop := (x =? 0)%float = true.


(** What [split] creates or loses: the amounts of the portion and of the
    receiver afterwards, less the amount of the receiver before. *)
Definition split_error (p : Paint) (s : float) : Qc :=
  let '(portion, rest) := split_values p s in
  (exact (amount portion) + exact (amount rest) - exact (amount p))%Qc.


End B64.

(** ** The monad *)

Section monad_facts.
Context {S A B : Type}.
Implicit Types (m : M S A) (f : A -> M S B).

Lemma bind_run m f s a s1 :
  m s = (Ret a, s1) -> (m ≫= f) s = f a s1.
Proof. intros H. unfold mbind, M_bind. now rewrite H. Qed.

Lemma bind_raise m f s e s1 :
  m s = (Raise e, s1) -> (m ≫= f) s = (Raise e, s1).
Proof. intros H. unfold mbind, M_bind. now rewrite H. Qed.

Lemma bind_inv m f s b s' :
  (m ≫= f) s = (Ret b, s') ->
  exists a s1, m s = (Ret a, s1) ∧ f a s1 = (Ret b, s').
Proof.
  unfold mbind, M_bind. destruct (m s) as [[a|e] s1]; intros H.
  - eauto.
  - discriminate.
Qed.
End monad_facts.

Lemma on_heap_run {A : Type} (m : M Heap A) (w : World) r h :
  m (heap w) = (r, h) -> on_heap m w = (r, set_heap h w).
Proof. intros H. unfold on_heap. now rewrite H. Qed.

Lemma on_heap_inv {A : Type} (m : M Heap A) (w w' : World) r :
  on_heap m w = (r, w') ->
  exists h, m (heap w) = (r, h) ∧ w' = set_heap h w.
Proof.
  unfold on_heap. destruct (m (heap w)) as [r0 h]. intros H.
  inversion H; subst. eauto.
Qed.

Lemma set_heap_same (w : World) : set_heap (heap w) w = w.
Proof. now destruct w. Qed.

(** ** Arithmetic of amounts *)

Lemma Qcleb_le (a b : Qc) : Qcleb a b = true <-> (a <= b)%Qc.
Proof. unfold Qcleb. apply Qle_bool_iff. Qed.

Lemma Qcleb_gt (a b : Qc) : Qcleb a b = false <-> (b < a)%Qc.
Proof.
  rewrite Qclt_nge, <- Qcleb_le. destruct (Qcleb a b); split; congruence.
Qed.

Lemma py_int_of_Z (z : Z) : py_int (Qc_of_Z z) = z.
Proof. unfold py_int. simpl. apply Z.quot_1_r. Qed.

Lemma py_max_nonneg (a : Qc) : (0 <= a)%Qc -> py_max a 0%Qc = a.
Proof. intros H. unfold py_max. apply Qcleb_le in H. now rewrite H. Qed.

(** A ratio index below 100 gives a ratio below one. *)
Lemma ratio_bounds (k : Z) :
  0 <= k < 100 ->
  (0 <= Qc_of_Z k / Qc_of_Z 100 ∧ Qc_of_Z k / Qc_of_Z 100 < 1)%Qc.
Proof.
  intros Hk. unfold Qcle, Qclt, Qcdiv, Qcinv, Qcmult. simpl.
  rewrite !Qred_correct. unfold Qle, Qlt, Qmult, Qinv. simpl. lia.
Qed.

(** ** Methods of [Paint] on the heap *)

Lemma load_run (h : Heap) (r : ref) (p : Paint) :
  h !! r = Some p -> load r h = (Ret p, h).
Proof. intros H. unfold load. now rewrite H. Qed.

Lemma load_inv (h h' : Heap) (r : ref) (p : Paint) :
  load r h = (Ret p, h') -> h !! r = Some p ∧ h' = h.
Proof.
  unfold load. destruct (h !! r) as [q|]; intros H; inversion H; auto.
Qed.

(** [split] returns a new object for the portion, updates the receiver in
    place, and leaves every other object alone. *)
Lemma split_spec (h : Heap) (r : ref) (p : Paint) (s : Qc) :
  h !! r = Some p ->
  exists o h',
    split r s h = (Ret (length h, o), h') ∧
    (length h < length h')%nat ∧
    h' !! r = Some (split_values p s).2 ∧
    h' !! length h = Some (split_values p s).1 ∧
    (forall r', (r' < length h)%nat -> r' ≠ r -> h' !! r' = h !! r').
Proof.
  intros Hr. pose proof (lookup_lt_Some _ _ _ Hr) as Hlt.
  unfold split, split_values.
  rewrite (bind_run _ _ _ _ _ (load_run _ _ _ Hr)).
  destruct (Qcleb s 0) eqn:Hs; [|destruct (Qcleb (amount p) s) eqn:Hfull].
  - eexists _, _. split; [reflexivity|]. simpl.
    rewrite length_app. simpl. repeat split.
    + lia.
    + now rewrite lookup_app_l.
    + now rewrite lookup_app_r, Nat.sub_diag by lia.
    + intros r' Hr' _. now rewrite lookup_app_l.
  - eexists _, _. split; [reflexivity|]. simpl.
    rewrite length_app. simpl. repeat split.
    + lia.
    + now rewrite lookup_app_l.
    + rewrite lookup_app_r, Nat.sub_diag by lia. now destruct p.
    + intros r' Hr' _. now rewrite lookup_app_l.
  - unfold subtract_amount, new_Paint, set_amount, load, mbind, M_bind, mret, M_ret.
    simpl.
    assert (Hr1 : (h ++ [mkPaint (color p) s]) !! r = Some p)
      by now rewrite lookup_app_l.
    rewrite Hr1. simpl. rewrite Hr1. simpl.
    rewrite list_lookup_insert_eq by (rewrite length_app; simpl; lia).
    simpl. eexists _, _. split; [reflexivity|].
    rewrite !length_app, length_insert, length_app. simpl. repeat split.
    + lia.
    + rewrite lookup_app_l by (rewrite length_insert, length_app; simpl; lia).
      apply list_lookup_insert_eq. rewrite length_app. simpl. lia.
    + rewrite lookup_app_l by (rewrite length_insert, length_app; simpl; lia).
      rewrite list_lookup_insert_ne by lia.
      now rewrite lookup_app_r, Nat.sub_diag by lia.
    + intros r' Hr' Hne.
      rewrite lookup_app_l by (rewrite length_insert, length_app; simpl; lia).
      rewrite list_lookup_insert_ne by congruence.
      now rewrite lookup_app_l.
Qed.

(** [mix_with] reads both paints and returns a new object. *)
Lemma mix_with_eval (h : Heap) (r1 r2 : ref) (p1 p2 : Paint) :
  h !! r1 = Some p1 -> h !! r2 = Some p2 ->
  mix_with r1 r2 h =
    match SubtractiveModel.mix_colors p1 p2 with
    | Ret c => (Ret (length h), h ++ [mkPaint c (amount p1 + amount p2)%Qc])
    | Raise e => (Raise e, h)
    end.
Proof.
  intros H1 H2. unfold mix_with.
  rewrite (bind_run _ _ _ _ _ (load_run _ _ _ H1)).
  rewrite (bind_run _ _ _ _ _ (load_run _ _ _ H2)).
  unfold lift, mbind, M_bind. now destruct (SubtractiveModel.mix_colors p1 p2).
Qed.

(** ** Computations that only read *)

Lemma read_only_ret {S A : Type} (a : A) : read_only (mret a : M S A).
Proof. intros s r s' H. now inversion H. Qed.

Lemma read_only_lift {S A : Type} (o : outcome A) : read_only (lift o : M S A).
Proof. intros s r s' H. now inversion H. Qed.

Lemma read_only_gets {S A : Type} (f : S -> A) : read_only (gets f).
Proof. intros s r s' H. now inversion H. Qed.

Lemma read_only_bind {S A B : Type} (m : M S A) (f : A -> M S B) :
  read_only m -> (forall a, read_only (f a)) -> read_only (m ≫= f).
Proof.
  intros Hm Hf s r s'. unfold mbind, M_bind.
  destruct (m s) as [[a|e] s1] eqn:E; intros H; apply Hm in E; subst s1.
  - now apply Hf in H.
  - now inversion H.
Qed.

Lemma read_only_load (r : ref) : read_only (load r).
Proof.
  intros h o h'. unfold load. destruct (h !! r); intros H; now inversion H.
Qed.

Lemma read_only_list_comp {S A B : Type} (f : A -> M S B) (l : list A) :
  (forall x, read_only (f x)) -> read_only (list_comp f l).
Proof.
  intros Hf. induction l as [|x l IH]; simpl.
  - apply read_only_ret.
  - apply read_only_bind; [apply Hf|]. intros y.
    apply read_only_bind; [apply IH|]. intros ys. apply read_only_ret.
Qed.

Lemma read_only_on_heap {A : Type} (m : M Heap A) :
  read_only m -> read_only (on_heap m).
Proof.
  intros Hm w r w' H. apply on_heap_inv in H as (h & H & ->).
  apply Hm in H. subst h. apply set_heap_same.
Qed.

Lemma read_only_reward_loop target bs best :
  read_only (reward_loop target bs best).
Proof.
  revert best. induction bs as [|b bs IH]; intros best; simpl.
  - apply read_only_ret.
  - apply read_only_bind; [apply read_only_load|]. intros p. apply IH.
Qed.

Lemma read_only_calculate_reward : read_only _calculate_reward.
Proof.
  unfold _calculate_reward.
  apply read_only_bind; [apply read_only_gets|]. intros bs.
  apply read_only_bind; [apply read_only_gets|]. intros target.
  apply read_only_bind; [|intros; apply read_only_ret].
  apply read_only_on_heap, read_only_reward_loop.
Qed.

Lemma read_only_get_observation : read_only _get_observation.
Proof.
  unfold _get_observation.
  apply read_only_bind; [apply read_only_gets|]. intros bs.
  apply read_only_bind.
  { apply read_only_on_heap, read_only_list_comp. intros r.
    apply read_only_bind; [apply read_only_load|]. intros p.
    destruct (color p) as [[cr cg] cb]. apply read_only_ret. }
  intros colors. apply read_only_bind.
  { apply read_only_on_heap, read_only_list_comp. intros r.
    apply read_only_bind; [apply read_only_load|]. intros p.
    apply read_only_ret. }
  intros amounts. apply read_only_lift.
Qed.

(** ** Comprehensions over the beakers *)

(** A comprehension that reads each beaker returns the list of what it
    computes from the paints. *)
Lemma list_comp_load_eval {B : Type} (k : Paint -> M Heap B) (g : Paint -> B)
    (bs : list ref) (h : Heap) :
  (forall p h0, k p h0 = (Ret (g p), h0)) ->
  Forall (fun r => (r < length h)%nat) bs ->
  list_comp (fun b => load b ≫= k) bs h = (Ret ((fun r => g (h !!! r)) <$> bs), h).
Proof.
  intros Hk. induction 1 as [|r bs Hr _ IH]; simpl; [reflexivity|].
  destruct (lookup_lt_is_Some_2 h r Hr) as [p Hp].
  unfold mbind at 1, M_bind at 1.
  rewrite (bind_run _ _ _ _ _ (load_run _ _ _ Hp)), Hk.
  rewrite (bind_run _ _ _ _ _ IH).
  now rewrite (list_lookup_total_correct _ _ _ Hp).
Qed.

(** When such a comprehension returns, every beaker names an object. *)
Lemma list_comp_load_inv {B : Type} (k : Paint -> M Heap B)
    (bs : list ref) (h h' : Heap) (l : list B) :
  list_comp (fun b => load b ≫= k) bs h = (Ret l, h') ->
  (forall p, read_only (k p)) ->
  Forall (fun r => (r < length h)%nat) bs.
Proof.
  intros H Hk. revert l h' H. induction bs as [|r bs IH]; intros l h' H.
  - constructor.
  - simpl in H. apply bind_inv in H as (y & h1 & Hy & H).
    apply bind_inv in H as (ys & h2 & Hys & _).
    apply bind_inv in Hy as (p & h0 & Hp & Hkp).
    apply load_inv in Hp as [Hp ->]. apply Hk in Hkp. subst h1.
    constructor; [now apply lookup_lt_Some in Hp | eauto].
Qed.

(** ** The observation *)

Lemma zip_with_app_fmap {A B : Type} (f g : A -> list B) (l : list A) :
  zip_with app (f <$> l) (g <$> l) = (fun x => f x ++ g x) <$> l.
Proof. induction l as [|x l IH]; csimpl; [reflexivity | now rewrite IH]. Qed.

(** With at least one beaker the observation is the matrix of the rows of
    the paints; without beakers numpy has no second axis to join on. *)
Lemma get_observation_eval (w : World) :
  refs_valid w ->
  _get_observation w =
    match beakers w with
    | [] => (Raise AxisError, w)
    | _ :: _ => (Ret (np.Arr2 (row_of <$> contents w)), w)
    end.
Proof.
  intros Hv. unfold _get_observation, gets.
  unfold mbind at 1, M_bind at 1.
  set (g1 := fun p : Paint =>
               let '(r, g, b) := color p in [Qc_of_Z r; Qc_of_Z g; Qc_of_Z b]).
  set (g2 := fun p : Paint => [amount p]).
  assert (Hg1 : forall (p : Paint) (h0 : Heap),
             (let '(r, g, b) := color p in
              (mret [Qc_of_Z r; Qc_of_Z g; Qc_of_Z b] : M Heap (list Qc))) h0
             = (Ret (g1 p), h0)).
  { intros p h0. unfold g1. now destruct (color p) as [[cr cg] cb]. }
  rewrite (bind_run _ _ _ _ _
             (on_heap_run _ _ _ _ (list_comp_load_eval _ g1 _ _ Hg1 Hv))).
  rewrite set_heap_same.
  rewrite (bind_run _ _ _ _ _
             (on_heap_run _ _ _ _ (list_comp_load_eval _ g2 _ _ (fun _ _ => eq_refl) Hv))).
  rewrite set_heap_same. unfold lift, contents.
  destruct (beakers w) as [|b bs]; [reflexivity|].
  simpl. rewrite !length_fmap, Nat.eqb_refl, zip_with_app_fmap, <- list_fmap_compose.
  assert (Hrow : forall p, g1 p ++ g2 p = row_of p).
  { intros p. unfold g1, g2, row_of. now destruct (color p) as [[cr cg] cb]. }
  do 3 f_equal. rewrite Hrow. f_equal.
  apply list_fmap_ext. intros i r _. simpl. apply Hrow.
Qed.

(** ** The reward *)

Lemma Q2R_Qred (q : Q) : Q2R (Qred q) = Q2R q.
Proof. apply Qeq_eqR, Qred_correct. Qed.

Lemma Q2R_Qcminus (a b : Qc) : Q2R (a - b)%Qc = (Q2R a - Q2R b)%R.
Proof.
  unfold Qcminus, Qcplus, Qcopp. simpl.
  now rewrite Q2R_Qred, Q2R_plus, Q2R_Qred, Q2R_opp.
Qed.

Lemma Q2R_Qcopp (a : Qc) : Q2R (- a)%Qc = (- Q2R a)%R.
Proof. unfold Qcopp. simpl. now rewrite Q2R_Qred, Q2R_opp. Qed.

(** The distance the code computes is the distance of the specification. *)
Lemma total_distance_eq (target p : Paint) :
  (np.linalg_norm_diff (color p) (color target)
   + Q2R (py_abs (amount p - amount target)%Qc))%R = distance target p.
Proof.
  unfold distance. f_equal.
  - unfold np.linalg_norm_diff, euclidean.
    destruct (color p) as [[r1 g1] b1], (color target) as [[r2 g2] b2].
    f_equal. rewrite !plus_IZR, !mult_IZR, !minus_IZR. ring.
  - unfold py_abs. destruct (Qcleb 0 (amount p - amount target)) eqn:E.
    + apply Qcleb_le in E. unfold Qcle in E. apply Qle_Rle in E.
      rewrite Q2R_Qcminus in *. change (Q2R 0%Qc) with (Q2R 0) in E.
      rewrite RMicromega.Q2R_0 in E. rewrite Rabs_right; lra.
    + apply Qcleb_gt in E. unfold Qclt in E. apply Qlt_Rlt in E.
      rewrite Q2R_Qcopp, Q2R_Qcminus in *. change (Q2R 0%Qc) with (Q2R 0) in E.
      rewrite RMicromega.Q2R_0 in E. rewrite Rabs_left; lra.
Qed.

Lemma reward_loop_eval target (bs : list ref) (best : xreal) (h : Heap) :
  Forall (fun r => (r < length h)%nat) bs ->
  reward_loop target bs best h =
    (Ret (best_of target ((fun r => h !!! r) <$> bs) best), h).
Proof.
  intros Hv. revert best. induction Hv as [|r bs Hr _ IH]; intros best; simpl.
  - reflexivity.
  - destruct (lookup_lt_is_Some_2 h r Hr) as [p Hp].
    rewrite (bind_run _ _ _ _ _ (load_run _ _ _ Hp)).
    rewrite total_distance_eq, IH.
    now rewrite (list_lookup_total_correct _ _ _ Hp).
Qed.

Lemma reward_loop_inv target (bs : list ref) (best r : xreal) (h h' : Heap) :
  reward_loop target bs best h = (Ret r, h') ->
  Forall (fun r => (r < length h)%nat) bs.
Proof.
  revert best. induction bs as [|b bs IH]; intros best H; [constructor|].
  simpl in H. apply bind_inv in H as (p & h0 & Hp & H).
  apply load_inv in Hp as [Hp ->].
  constructor; [now apply lookup_lt_Some in Hp | eauto].
Qed.

Lemma distance_nonneg target p : (0 <= distance target p)%R.
Proof.
  unfold distance, euclidean.
  destruct (color p) as [[r1 g1] b1], (color target) as [[r2 g2] b2].
  apply Rplus_le_le_0_compat; [apply sqrt_pos | apply Rabs_pos].
Qed.

(** The loop keeps the smallest distance met so far. *)
Lemma best_of_spec target (ps : list Paint) (best : xreal) :
  best ≠ NegInf ->
  let res := best_of target ps best in
  (res = best ∨ exists p, p ∈ ps ∧ res = Finite (distance target p)) ∧
  (forall p, p ∈ ps -> xle res (Finite (distance target p))) ∧
  xle res best.
Proof.
  revert best. induction ps as [|p ps IH]; intros best Hb; simpl.
  - repeat split; [now left | intros p Hp; now apply elem_of_nil in Hp |].
    destruct best; simpl; [lra | exact I | congruence].
  - assert (Hpb : pick_best (distance target p) best ≠ NegInf).
    { unfold pick_best. destruct (xlt_finite _ _); congruence. }
    destruct (IH _ Hpb) as (Hres & Hall & Hle).
    set (res := best_of target ps (pick_best (distance target p) best)) in *.
    assert (Hpick : xle (pick_best (distance target p) best)
                        (Finite (distance target p)) ∧
                    xle (pick_best (distance target p) best) best ∧
                    (pick_best (distance target p) best = best ∨
                     pick_best (distance target p) best = Finite (distance target p))).
    { unfold pick_best, xlt_finite. destruct best as [y| |]; simpl.
      - destruct (Rlt_dec (distance target p) y); simpl; repeat split; auto; lra.
      - repeat split; auto; lra.
      - congruence. }
    destruct Hpick as (Hp1 & Hp2 & Hp3).
    assert (Htrans : forall a b c, xle a b -> xle b c -> xle a c).
    { intros [a| |] [b| |] [c| |]; simpl; try tauto; lra. }
    repeat split.
    + destruct Hres as [Hres | (q & Hq & Hres)].
      * destruct Hp3 as [Hp3 | Hp3]; rewrite Hp3 in Hres; [now left|].
        right. exists p. split; [apply list_elem_of_here | exact Hres].
      * right. exists q. split; [now apply list_elem_of_further | exact Hres].
    + intros q Hq. apply elem_of_cons in Hq as [-> | Hq]; eauto.
    + eauto.
Qed.

Lemma calculate_reward_eval (w : World) :
  refs_valid w ->
  _calculate_reward w =
    (Ret (xopp (best_of (target_paint w) (contents w) PosInf)), w).
Proof.
  intros Hv. unfold _calculate_reward, gets.
  unfold mbind at 1 2, M_bind at 1 2.
  rewrite (bind_run _ _ _ _ _
             (on_heap_run _ _ _ _ (reward_loop_eval _ _ _ _ Hv))).
  now rewrite set_heap_same.
Qed.

Lemma calculate_reward_inv (w w' : World) (r : xreal) :
  _calculate_reward w = (Ret r, w') -> refs_valid w.
Proof.
  unfold _calculate_reward, gets. unfold mbind at 1 2, M_bind at 1 2.
  intros H. apply bind_inv in H as (best & w1 & H & _).
  apply on_heap_inv in H as (h & H & _). now apply reward_loop_inv in H.
Qed.

(** ** Indexing the beaker list *)

Lemma py_index_valid (len : nat) (i : Z) :
  0 <= i < Z.of_nat len -> py_index len i = Ret (Z.to_nat i).
Proof.
  intros [H0 H1]. unfold py_index.
  apply Z.leb_le in H0. apply Z.ltb_lt in H1. now rewrite H0, H1.
Qed.

Lemma py_index_lt (len : nat) (i : Z) (k : nat) :
  py_index len i = Ret k -> (k < len)%nat.
Proof.
  unfold py_index.
  destruct ((0 <=? i) && (i <? Z.of_nat len)) eqn:E1;
    [|destruct ((- Z.of_nat len <=? i) && (i <? 0)) eqn:E2];
    intros H; inversion H; subst.
  - apply andb_true_iff in E1 as [H0%Z.leb_le H1%Z.ltb_lt]. lia.
  - apply andb_true_iff in E2 as [H0%Z.leb_le H1%Z.ltb_lt]. lia.
Qed.

Lemma beakers_getitem_eval (w : World) (i : Z) (k : nat) (r : ref) :
  py_index (num_beakers w) i = Ret k ->
  beakers w !! k = Some r ->
  beakers_getitem i w = (Ret r, w).
Proof.
  intros Hi Hr. unfold beakers_getitem, gets, lift. unfold num_beakers in Hi.
  unfold mbind, M_bind. rewrite Hi. now rewrite Hr.
Qed.

Lemma beakers_getitem_raise (w : World) (i : Z) (e : exn) :
  py_index (num_beakers w) i = Raise e ->
  beakers_getitem i w = (Raise e, w).
Proof.
  intros Hi. unfold beakers_getitem, gets, lift. unfold num_beakers in Hi.
  unfold mbind, M_bind. now rewrite Hi.
Qed.

Lemma beakers_setitem_eval (w : World) (i : Z) (k : nat) (r : ref) :
  py_index (num_beakers w) i = Ret k ->
  beakers_setitem i r w = (Ret tt, set_beakers (<[k := r]> (beakers w)) w).
Proof.
  intros Hi. unfold beakers_setitem, gets, lift, modify. unfold num_beakers in Hi.
  unfold mbind, M_bind. now rewrite Hi.
Qed.

(** ** What the transfer leaves in the beakers *)

Section transfer.
Variables (h h1 : Heap) (bs : list ref) (i j : nat) (r_i : ref) (p_i' : Paint).
Hypothesis Hnodup : NoDup bs.
Hypothesis Hvalid : Forall (fun r => (r < length h)%nat) bs.
Hypothesis Hi : bs !! i = Some r_i.
Hypothesis Hj : (j < length bs)%nat.
Hypothesis Hgrow : (length h <= length h1)%nat.
Hypothesis Hfrom : h1 !! r_i = Some p_i'.
Hypothesis Hothers :
  forall r', (r' < length h)%nat -> r' ≠ r_i -> h1 !! r' = h !! r'.

Local Abbreviation ps := ((fun r => h !!! r) <$> bs).

Lemma valid_lookup (l : nat) (r : ref) :
  bs !! l = Some r -> (r < length h)%nat.
Proof.
  intros Hl. exact (Forall_lookup_1 _ _ _ _ Hvalid Hl).
Qed.

(** The paint the destination holds when the mix is computed: the
    receiver of the split when both indices name one beaker. *)
Lemma to_beaker_after_split (r_j : ref) :
  bs !! j = Some r_j ->
  h1 !! r_j = Some (<[i := p_i']> ps !!! j).
Proof.
  intros Hrj. pose proof (lookup_lt_Some _ _ _ Hi) as Hilt.
  destruct (decide (j = i)) as [->|Hne].
  - assert (r_j = r_i) as -> by congruence.
    rewrite list_lookup_total_insert_eq by (now rewrite length_fmap).
    exact Hfrom.
  - assert (r_j ≠ r_i) as Hr.
    { intros ->. apply Hne. eapply NoDup_lookup; eauto. }
    rewrite list_lookup_total_insert_ne by congruence.
    rewrite (Hothers _ (valid_lookup _ _ Hrj) Hr).
    rewrite (list_lookup_total_correct ps j (h !!! r_j))
      by (now rewrite list_lookup_fmap, Hrj).
    apply list_lookup_lookup_total_lt, (valid_lookup _ _ Hrj).
Qed.

(** The paints of the beakers once the mix, a new object, is stored at
    index [j]. *)
Lemma contents_after_transfer (mixed : Paint) :
  (fun r => (h1 ++ [mixed]) !!! r) <$> (<[j := length h1]> bs)
  = <[j := mixed]> (<[i := p_i']> ps).
Proof.
  pose proof (lookup_lt_Some _ _ _ Hi) as Hilt.
  apply list_eq. intros l. rewrite list_lookup_fmap.
  destruct (decide (l = j)) as [->|Hlj].
  - rewrite list_lookup_insert_eq by exact Hj.
    rewrite list_lookup_insert_eq
      by (now rewrite length_insert, length_fmap).
    simpl. f_equal. apply list_lookup_total_correct.
    now rewrite lookup_app_r, Nat.sub_diag by lia.
  - rewrite !list_lookup_insert_ne by congruence.
    destruct (bs !! l) as [r|] eqn:Hl; simpl.
    + pose proof (valid_lookup _ _ Hl) as Hrlt.
      destruct (decide (l = i)) as [->|Hli].
      * assert (r = r_i) as -> by congruence.
        rewrite list_lookup_insert_eq by (now rewrite length_fmap).
        f_equal. apply list_lookup_total_correct.
        rewrite lookup_app_l by (apply lookup_lt_Some in Hfrom; lia).
        exact Hfrom.
      * assert (r ≠ r_i) as Hr.
        { intros ->. apply Hli. eapply NoDup_lookup; eauto. }
        rewrite list_lookup_insert_ne by congruence.
        rewrite list_lookup_fmap, Hl. simpl. f_equal.
        apply list_lookup_total_correct.
        rewrite lookup_app_l by lia.
        rewrite (Hothers _ Hrlt Hr).
        apply list_lookup_lookup_total_lt, Hrlt.
    + symmetry. apply lookup_ge_None.
      rewrite length_insert, length_fmap.
      now apply lookup_ge_None.
Qed.

(** The new beaker list names each object once, inside the new heap. *)
Lemma distinct_after_transfer (mixed : Paint) :
  NoDup (<[j := length h1]> bs) ∧
  Forall (fun r => (r < length (h1 ++ [mixed]))%nat) (<[j := length h1]> bs).
Proof.
  split.
  - apply NoDup_alt. intros a b x Ha Hb.
    destruct (decide (a = j)) as [->|Haj], (decide (b = j)) as [->|Hbj];
      try reflexivity.
    + rewrite list_lookup_insert_eq in Ha by exact Hj.
      rewrite list_lookup_insert_ne in Hb by congruence.
      apply valid_lookup in Hb. inversion Ha; subst. lia.
    + rewrite list_lookup_insert_eq in Hb by exact Hj.
      rewrite list_lookup_insert_ne in Ha by congruence.
      apply valid_lookup in Ha. inversion Hb; subst. lia.
    + rewrite list_lookup_insert_ne in Ha, Hb by congruence.
      eapply NoDup_lookup; eauto.
  - apply Forall_lookup_2. intros l r Hl. rewrite length_app. simpl.
    destruct (decide (l = j)) as [->|Hlj].
    + rewrite list_lookup_insert_eq in Hl by exact Hj. inversion Hl. lia.
    + rewrite list_lookup_insert_ne in Hl by congruence.
      apply valid_lookup in Hl. lia.
Qed.
End transfer.

(** ** One step, evaluated *)

Lemma contents_lookup_total (w : World) (i : nat) (r : ref) (p : Paint) :
  beakers w !! i = Some r -> heap w !! r = Some p -> contents w !!! i = p.
Proof.
  intros Hr Hp. apply list_lookup_total_correct.
  unfold contents. rewrite list_lookup_fmap, Hr. simpl.
  now rewrite (list_lookup_total_correct _ _ _ Hp).
Qed.

(** On a world whose beakers are distinct objects, and with indices in
    range, [step] does to the paints what [transfer_values] says, raises
    what the mix raises, and returns the observation and the reward of the
    new paints. *)
Lemma step_eval (w : World) (fi ti k : Z) (i j : nat) :
  distinct_beakers w ->
  py_index (num_beakers w) fi = Ret i ->
  py_index (num_beakers w) ti = Ret j ->
  match transfer_values (contents w) i j k with
  | Raise e => exists w1, step (fi, ti, k) w = (Raise e, w1)
  | Ret ps' =>
      exists w',
        step (fi, ti, k) w =
          (Ret (np.Arr2 (row_of <$> ps'),
                xopp (best_of (target_paint w) ps' PosInf),
                max_steps w <=? step_count w + 1, false), w') ∧
        distinct_beakers w' ∧ contents w' = ps' ∧
        step_count w' = step_count w + 1 ∧ max_steps w' = max_steps w ∧
        target_paint w' = target_paint w ∧ num_beakers w' = num_beakers w
  end.
Proof.
  intros [Hnd Hv] Hfi Hti.
  pose proof (py_index_lt _ _ _ Hfi) as Hi.
  pose proof (py_index_lt _ _ _ Hti) as Hj.
  unfold num_beakers in Hi, Hj.
  destruct (lookup_lt_is_Some_2 _ _ Hi) as [r_i Hri].
  destruct (lookup_lt_is_Some_2 _ _ Hj) as [r_j Hrj].
  pose proof (Forall_lookup_1 _ _ _ _ Hv Hri) as Hri_lt.
  destruct (lookup_lt_is_Some_2 _ _ Hri_lt) as [p_i Hpi].
  unfold step.
  rewrite (bind_run _ _ _ _ _ (beakers_getitem_eval _ _ _ _ Hfi Hri)).
  rewrite (bind_run _ _ _ _ _ (beakers_getitem_eval _ _ _ _ Hti Hrj)).
  rewrite (bind_run _ _ _ _ _ (on_heap_run _ _ _ _ (load_run _ _ _ Hpi))).
  rewrite set_heap_same.
  unfold transfer_values. rewrite (contents_lookup_total _ _ _ _ Hri Hpi).
  set (t := (Qc_of_Z k / Qc_of_Z 100 * amount p_i)%Qc).
  destruct (split_spec (heap w) r_i p_i t Hpi)
    as (o & h1 & Hsplit & Hlen & Hfrom & Hportion & Hothers).
  rewrite (bind_run _ _ _ _ _ (on_heap_run _ _ _ _ Hsplit)).
  destruct (split_values p_i t) as [portion p_i']. simpl in Hfrom, Hportion.
  assert (Hgrow : (length (heap w) <= length h1)%nat) by lia.
  pose proof (to_beaker_after_split (heap w) h1 (beakers w) _ _ r_i p_i'
                Hnd Hv Hri Hj Hfrom Hothers r_j Hrj) as Hto.
  fold (contents w) in Hto.
  set (p_to := <[i := p_i']> (contents w) !!! j) in *.
  pose proof (mix_with_eval h1 r_j (length (heap w)) p_to portion Hto Hportion)
    as Hmix.
  destruct (SubtractiveModel.mix_colors p_to portion) as [c|e].
  - set (mixed := mkPaint c (amount p_to + amount portion)%Qc) in *.
    rewrite (bind_run _ _ _ _ _ (on_heap_run _ (set_heap h1 w) _ _ Hmix)).
    rewrite (bind_run _ _ _ _ _
               (beakers_setitem_eval (set_heap (h1 ++ [mixed]) (set_heap h1 w))
                  _ _ _ Hti)).
    unfold modify, gets. unfold mbind at 1 2 3, M_bind at 1 2 3. simpl.
    set (w' := mkWorld (h1 ++ [mixed]) (<[j := length h1]> (beakers w))
                 (target_paint w) (max_steps w) (step_count w + 1)).
    destruct (distinct_after_transfer (heap w) h1 (beakers w) _ Hnd Hv Hj Hgrow mixed)
      as [Hnd' Hv'].
    assert (Hc : contents w' = <[j := mixed]>
                                 (<[i := p_i']> (contents w))).
    { apply (contents_after_transfer (heap w) h1 (beakers w) _ _ r_i p_i'
               Hnd Hv Hri Hj Hgrow Hfrom Hothers mixed). }
    rewrite (bind_run _ _ _ _ _ (calculate_reward_eval w' Hv')).
    pose proof (get_observation_eval w' Hv') as Hobs.
    assert (Hne : exists b bs', beakers w' = b :: bs').
    { simpl. destruct (<[j := length h1]> (beakers w)) as [|b bs'] eqn:E;
        [|eauto].
      apply (f_equal length) in E. rewrite length_insert in E. simpl in E. lia. }
    destruct Hne as (b & bs' & Hb). rewrite Hb in Hobs.
    rewrite (bind_run _ _ _ _ _ Hobs). rewrite Hc.
    exists w'. repeat split; auto.
    unfold num_beakers. simpl. apply length_insert.
  - eexists. apply bind_raise. apply (on_heap_run _ (set_heap h1 w)). exact Hmix.
Qed.

(** ** What [step] returns, on any world *)

Lemma read_only_beakers_getitem (i : Z) : read_only (beakers_getitem i).
Proof.
  unfold beakers_getitem.
  apply read_only_bind; [apply read_only_gets|]. intros bs.
  apply read_only_bind; [apply read_only_lift|]. intros k.
  destruct (bs !! k); [apply read_only_ret | apply read_only_lift].
Qed.

(** The attributes a call on the heap leaves alone. *)
Lemma on_heap_frame {A : Type} (m : M Heap A) (w w' : World) (r : outcome A) :
  on_heap m w = (r, w') ->
  beakers w' = beakers w ∧ target_paint w' = target_paint w ∧
  max_steps w' = max_steps w ∧ step_count w' = step_count w.
Proof. intros H. apply on_heap_inv in H as (h & _ & ->). now simpl. Qed.

Lemma beakers_setitem_frame (i : Z) (r : ref) (w w' : World) (o : outcome unit) :
  beakers_setitem i r w = (o, w') ->
  target_paint w' = target_paint w ∧
  max_steps w' = max_steps w ∧ step_count w' = step_count w.
Proof.
  unfold beakers_setitem, gets, lift, modify. unfold mbind, M_bind.
  destruct (py_index (length (beakers w)) i); intros H; inversion H; now simpl.
Qed.

(** Whatever the world, a [step] that returns has counted one step, gives
    [done] by the comparison of the new count with [max_steps], gives
    [truncated] as false, and returns the reward and the observation of
    the world it leaves. *)
Lemma step_frame (w w' : World) (a : Action) obs reward done truncated :
  step a w = (Ret (obs, reward, done, truncated), w') ->
  step_count w' = step_count w + 1 ∧
  max_steps w' = max_steps w ∧
  target_paint w' = target_paint w ∧
  done = (max_steps w' <=? step_count w') ∧
  truncated = false ∧
  _calculate_reward w' = (Ret reward, w') ∧
  _get_observation w' = (Ret obs, w').
Proof.
  destruct a as [[fi ti] k]. unfold step. intros H.
  apply bind_inv in H as (r_i & w1 & H1 & H).
  apply read_only_beakers_getitem in H1. subst w1.
  apply bind_inv in H as (r_j & w2 & H2 & H).
  apply read_only_beakers_getitem in H2. subst w2.
  apply bind_inv in H as (p_i & w3 & H3 & H).
  apply on_heap_frame in H3 as (_ & T3 & M3 & S3).
  apply bind_inv in H as ([portion o] & w4 & H4 & H).
  apply on_heap_frame in H4 as (_ & T4 & M4 & S4).
  apply bind_inv in H as (mixed & w5 & H5 & H).
  apply on_heap_frame in H5 as (_ & T5 & M5 & S5).
  apply bind_inv in H as ([] & w6 & H6 & H).
  apply beakers_setitem_frame in H6 as (T6 & M6 & S6).
  apply bind_inv in H as ([] & w7 & H7 & H).
  unfold modify in H7. inversion H7; subst w7; clear H7.
  apply bind_inv in H as (sc & w8 & H8 & H).
  unfold gets in H8. inversion H8; subst sc w8; clear H8.
  apply bind_inv in H as (ms & w9 & H9 & H).
  unfold gets in H9. inversion H9; subst ms w9; clear H9.
  apply bind_inv in H as (rew & w10 & H10 & H).
  pose proof (read_only_calculate_reward _ _ _ H10). subst w10.
  apply bind_inv in H as (ob & w11 & H11 & H).
  pose proof (read_only_get_observation _ _ _ H11). subst w11.
  inversion H; subst; clear H. simpl in *.
  repeat split; auto; congruence.
Qed.

(** The flags of a step that returns, in terms of the world it started
    from. *)
Lemma step_flags (w w' : World) (a : Action) obs reward done truncated :
  step a w = (Ret (obs, reward, done, truncated), w') ->
  step_count w' = step_count w + 1 ∧
  (done = true <-> max_steps w <= step_count w + 1) ∧
  truncated = false.
Proof.
  intros H. apply step_frame in H as (Hsc & Hms & _ & Hd & Ht & _).
  split_and!; [exact Hsc | | exact Ht].
  rewrite Hd, Hms, Hsc. apply Z.leb_le.
Qed.

(** ** [reset] *)

Lemma seq_contents (h l : list Paint) :
  (fun r => (h ++ l) !!! r) <$> seq (length h) (length l) = l.
Proof.
  apply list_eq. intros i. rewrite list_lookup_fmap.
  destruct (l !! i) as [p|] eqn:Hp.
  - rewrite lookup_seq_lt by (now apply lookup_lt_Some in Hp). simpl. f_equal.
    apply list_lookup_total_correct.
    now rewrite lookup_app_r, Nat.add_comm, Nat.add_sub by lia.
  - now rewrite lookup_seq_ge by (now apply lookup_ge_None in Hp).
Qed.

(** The comprehension of [reset] copies the paints of the beakers, as
    they are now, to new objects. *)
Lemma reset_copies_eval (bs : list ref) (h : Heap) :
  Forall (fun r => (r < length h)%nat) bs ->
  list_comp (fun paint => load paint ≫= fun p => new_Paint (color p) (amount p)) bs h
  = (Ret (seq (length h) (length bs)), h ++ ((fun r => h !!! r) <$> bs)).
Proof.
  revert h. induction bs as [|r bs IH]; intros h Hv; csimpl.
  - now rewrite app_nil_r.
  - apply Forall_cons_1 in Hv as [Hr Hv].
    destruct (lookup_lt_is_Some_2 h r Hr) as [p Hp].
    unfold mbind at 1, M_bind at 1.
    rewrite (bind_run _ _ _ _ _ (load_run _ _ _ Hp)).
    unfold new_Paint at 1.
    assert (Hv' : Forall (fun r => (r < length (h ++ [p]))%nat) bs).
    { eapply Forall_impl; [|exact Hv]. intros x Hx. simpl in Hx.
      rewrite length_app. simpl. lia. }
    replace (mkPaint (color p) (amount p)) with p by now destruct p.
    rewrite (bind_run _ _ _ _ _ (IH _ Hv')).
    rewrite length_app. simpl. rewrite Nat.add_1_r.
    rewrite (list_lookup_total_correct _ _ _ Hp).
    rewrite <- app_assoc. simpl. do 3 f_equal.
    apply Forall_fmap_ext_1. eapply Forall_impl; [|exact Hv].
    intros x Hx. now apply lookup_total_app_l.
Qed.

(** [reset] keeps the paints the beakers hold when it is called: it copies
    them to new, distinct objects and sets the step count to zero. *)
Lemma reset_eval (w : World) :
  refs_valid w ->
  exists w',
    reset w = match beakers w with
              | [] => (Raise AxisError, w')
              | _ :: _ => (Ret (np.Arr2 (row_of <$> contents w)), w')
              end ∧
    distinct_beakers w' ∧ contents w' = contents w ∧ step_count w' = 0 ∧
    max_steps w' = max_steps w ∧ target_paint w' = target_paint w ∧
    num_beakers w' = num_beakers w.
Proof.
  intros Hv.
  set (w' := mkWorld (heap w ++ contents w)
               (seq (length (heap w)) (length (contents w)))
               (target_paint w) (max_steps w) 0).
  assert (Hlen : length (contents w) = length (beakers w))
    by (unfold contents; apply length_fmap).
  assert (Hwf : distinct_beakers w').
  { split; [apply NoDup_seq|]. unfold refs_valid. simpl.
    apply Forall_seq. intros j Hj. rewrite length_app. lia. }
  assert (Hc : contents w' = contents w) by apply seq_contents.
  exists w'. split_and!; try assumption; try reflexivity.
  - unfold reset, gets, modify. unfold mbind at 1, M_bind at 1.
    rewrite (bind_run _ _ _ _ _ (on_heap_run _ _ _ _ (reset_copies_eval _ _ Hv))).
    unfold mbind at 1 2, M_bind at 1 2. simpl.
    fold (contents w). rewrite <- Hlen.
    destruct Hwf as [_ Hv'].
    change (set_step_count 0 _) with w'.
    rewrite (get_observation_eval w' Hv'), Hc. simpl. rewrite Hlen.
    now destruct (beakers w).
  - unfold num_beakers. simpl. now rewrite length_seq.
Qed.

Lemma reset_inv (w w' : World) (obs : np.ndarray) :
  refs_valid w ->
  reset w = (Ret obs, w') ->
  obs = np.Arr2 (row_of <$> contents w') ∧
  distinct_beakers w' ∧ contents w' = contents w ∧ step_count w' = 0 ∧
  max_steps w' = max_steps w ∧ target_paint w' = target_paint w ∧
  num_beakers w' = num_beakers w ∧ (0 < num_beakers w')%nat.
Proof.
  intros Hv H. destruct (reset_eval w Hv) as (w0 & Hr & Hwf & Hc & Hs & Hm & Ht & Hn).
  rewrite H in Hr. unfold num_beakers in *.
  destruct (beakers w) as [|b bs]; inversion Hr; subst.
  rewrite Hc, Hn. simpl. split_and!; auto; lia.
Qed.

(** ** [step] on distinct beakers *)

Lemma step_inv (w w' : World) (fi ti k : Z) obs reward done truncated :
  distinct_beakers w ->
  step (fi, ti, k) w = (Ret (obs, reward, done, truncated), w') ->
  exists i j,
    py_index (num_beakers w) fi = Ret i ∧
    py_index (num_beakers w) ti = Ret j ∧
    transfer_values (contents w) i j k = Ret (contents w') ∧
    obs = np.Arr2 (row_of <$> contents w') ∧
    distinct_beakers w' ∧ num_beakers w' = num_beakers w.
Proof.
  intros Hwf H.
  destruct (py_index (num_beakers w) fi) as [i|e] eqn:Hfi.
  2:{ unfold step in H.
      rewrite (bind_raise _ _ _ _ _ (beakers_getitem_raise _ _ _ Hfi)) in H.
      discriminate. }
  destruct (py_index (num_beakers w) ti) as [j|e] eqn:Hti.
  2:{ unfold step in H.
      destruct (lookup_lt_is_Some_2 _ _ (py_index_lt _ _ _ Hfi)) as [r_i Hri].
      rewrite (bind_run _ _ _ _ _ (beakers_getitem_eval _ _ _ _ Hfi Hri)) in H.
      rewrite (bind_raise _ _ _ _ _ (beakers_getitem_raise _ _ _ Hti)) in H.
      discriminate. }
  pose proof (step_eval w fi ti k i j Hwf Hfi Hti) as He.
  destruct (transfer_values (contents w) i j k) as [ps'|e] eqn:Ht.
  - destruct He as (w0 & Hs & Hwf' & Hc & _ & _ & _ & Hn).
    rewrite Hs in H. inversion H; subst. exists i, j. split_and!; auto.
  - destruct He as (w1 & Hs). rewrite Hs in H. discriminate.
Qed.

(** The beakers of an episode are distinct objects of the heap, and there
    is at least one. *)
Lemma reachable_distinct (w : World) : reachable w -> distinct_beakers w ∧ (0 < num_beakers w)%nat.
Proof.
  induction 1 as [w obs w' Hv H | w a res w' _ [IHwf IHn] H].
  - apply (reset_inv _ _ _ Hv) in H. tauto.
  - destruct a as [[fi ti] k], res as [[[obs rew] d] t].
    apply (step_inv _ _ _ _ _ _ _ _ _ IHwf) in H
      as (i & j & _ & _ & _ & _ & Hwf & Hn).
    split; [exact Hwf | lia].
Qed.

(** ** The subtractive mixer *)

Lemma mix_colors_eval (p1 p2 : Paint) :
  SubtractiveModel.mix_colors p1 p2 =
    if Qc_eq_dec (amount p1 + amount p2)%Qc 0%Qc then Raise ZeroDivisionError
    else
      let '(r1, g1, b1) := color p1 in
      let '(r2, g2, b2) := color p2 in
      Ret (255 - mixed_value (255 - r1) (255 - r2) (amount p1) (amount p2),
           255 - mixed_value (255 - g1) (255 - g2) (amount p1) (amount p2),
           255 - mixed_value (255 - b1) (255 - b2) (amount p1) (amount p2)).
Proof.
  unfold SubtractiveModel.mix_colors, SubtractiveModel.mixed_channel, py_div.
  destruct (color p1) as [[r1 g1] b1], (color p2) as [[r2 g2] b2].
  now destruct (Qc_eq_dec (amount p1 + amount p2)%Qc 0%Qc).
Qed.

Lemma mixed_value_comm (c1 c2 : Z) (a1 a2 : Qc) :
  mixed_value c1 c2 a1 a2 = mixed_value c2 c1 a2 a1.
Proof.
  unfold mixed_value.
  now rewrite (Qcplus_comm a1 a2),
    (Qcplus_comm (Qc_of_Z c1 * a1) (Qc_of_Z c2 * a2)).
Qed.

Lemma mix_colors_comm (p1 p2 : Paint) :
  SubtractiveModel.mix_colors p1 p2 = SubtractiveModel.mix_colors p2 p1.
Proof.
  rewrite !mix_colors_eval. rewrite (Qcplus_comm (amount p2) (amount p1)).
  destruct (color p1) as [[r1 g1] b1], (color p2) as [[r2 g2] b2].
  destruct (Qc_eq_dec (amount p1 + amount p2)%Qc 0%Qc); [reflexivity|].
  now rewrite (mixed_value_comm (255 - r1)), (mixed_value_comm (255 - g1)),
    (mixed_value_comm (255 - b1)).
Qed.

Lemma mix_colors_total (p1 p2 : Paint) :
  (amount p1 + amount p2)%Qc ≠ 0%Qc ->
  exists c, SubtractiveModel.mix_colors p1 p2 = Ret c.
Proof.
  intros H. rewrite mix_colors_eval.
  destruct (color p1) as [[r1 g1] b1], (color p2) as [[r2 g2] b2].
  destruct (Qc_eq_dec (amount p1 + amount p2)%Qc 0%Qc); [contradiction | eauto].
Qed.

(** Mixing a color with itself gives the color back. *)
Lemma mixed_value_same (c : Z) (a1 a2 : Qc) :
  (a1 + a2)%Qc ≠ 0%Qc -> mixed_value c c a1 a2 = c.
Proof.
  intros H. unfold mixed_value.
  replace ((Qc_of_Z c * a1 + Qc_of_Z c * a2) / (a1 + a2))%Qc with (Qc_of_Z c)
    by (field; exact H).
  apply py_int_of_Z.
Qed.

Lemma mix_colors_same (p1 p2 : Paint) :
  color p1 = color p2 -> (amount p1 + amount p2)%Qc ≠ 0%Qc ->
  SubtractiveModel.mix_colors p1 p2 = Ret (color p1).
Proof.
  intros Hc Ha. rewrite mix_colors_eval, <- Hc.
  destruct (Qc_eq_dec (amount p1 + amount p2)%Qc 0%Qc) as [E|_]; [contradiction|].
  destruct (color p1) as [[r g] b].
  rewrite !mixed_value_same by exact Ha. repeat f_equal; lia.
Qed.

(** ** What [split] hands out *)

Lemma split_values_color (p : Paint) (s : Qc) :
  color (split_values p s).1 = color p ∧ color (split_values p s).2 = color p.
Proof.
  unfold split_values.
  destruct (Qcleb s 0%Qc); [|destruct (Qcleb (amount p) s)]; now simpl.
Qed.

(** A requested amount strictly inside [(0, A)] leaves the receiver with
    the rest. *)
Lemma split_values_partial (p : Paint) (s : Qc) :
  (0 < s)%Qc -> (s < amount p)%Qc ->
  split_values p s = (mkPaint (color p) s, mkPaint (color p) (amount p - s)%Qc).
Proof.
  intros H0 H1. unfold split_values.
  apply Qcleb_gt in H0. rewrite H0. apply Qclt_le_weak in H1 as H1'.
  apply Qcleb_gt in H1. rewrite H1. rewrite py_max_nonneg; [reflexivity|].
  apply (Qcplus_le_mono_r _ _ s). now ring_simplify.
Qed.

(** The amount a step requests is never the whole of a positive amount,
    so the portion and the receiver share what the receiver had. *)
Lemma split_values_ratio (p : Paint) (k : Z) :
  0 <= k < 100 ->
  let sp := split_values p (Qc_of_Z k / Qc_of_Z 100 * amount p)%Qc in
  (amount sp.1 + amount sp.2)%Qc = amount p.
Proof.
  intros Hk. destruct (ratio_bounds k Hk) as [Hr0 Hr1].
  set (ratio := (Qc_of_Z k / Qc_of_Z 100)%Qc) in *.
  destruct (Qclt_le_dec 0%Qc (ratio * amount p)%Qc) as [Hpos|Hle].
  - assert (HA : (0 < amount p)%Qc).
    { apply Qcnot_le_lt. intros HA.
      apply (Qclt_not_le _ _ Hpos).
      rewrite <- (Qcmult_0_r ratio), !(Qcmult_comm ratio).
      now apply Qcmult_le_compat_r. }
    assert (Hlt : (ratio * amount p < amount p)%Qc).
    { rewrite <- (Qcmult_1_l (amount p)) at 2. now apply Qcmult_lt_compat_r. }
    simpl. rewrite (split_values_partial _ _ Hpos Hlt). simpl. ring.
  - simpl. unfold split_values. apply Qcleb_le in Hle. rewrite Hle. simpl. ring.
Qed.

(** ** The transfer on values *)

Lemma sum_amounts_insert (ps : list Paint) (i : nat) (p q : Paint) :
  ps !! i = Some p ->
  sum_amounts (<[i := q]> ps) = (sum_amounts ps - amount p + amount q)%Qc.
Proof.
  revert i. induction ps as [|x ps IH]; intros [|i] H; simpl in *;
    try discriminate.
  - inversion H; subst. ring.
  - rewrite (IH _ H). ring.
Qed.

Lemma transfer_values_conserves (ps ps' : list Paint) (i j : nat) (k : Z) :
  (i < length ps)%nat -> (j < length ps)%nat -> 0 <= k < 100 ->
  transfer_values ps i j k = Ret ps' ->
  sum_amounts ps' = sum_amounts ps.
Proof.
  intros Hi Hj Hk. unfold transfer_values.
  pose proof (split_values_ratio (ps !!! i) k Hk) as Hsplit. simpl in Hsplit.
  destruct (split_values (ps !!! i) _) as [portion p_from']. simpl in Hsplit.
  set (ps1 := <[i := p_from']> ps).
  destruct (SubtractiveModel.mix_colors (ps1 !!! j) portion) as [c|e];
    intros H; inversion H; subst; clear H.
  assert (Hj1 : ps1 !! j = Some (ps1 !!! j)).
  { apply list_lookup_lookup_total_lt. unfold ps1. now rewrite length_insert. }
  rewrite (sum_amounts_insert _ _ _ _ Hj1). simpl.
  unfold ps1 at 1.
  rewrite (sum_amounts_insert _ _ _ _ (list_lookup_lookup_total_lt _ _ Hi)).
  rewrite <- Hsplit. ring.
Qed.

Lemma transfer_values_self (ps : list Paint) (i : nat) (k : Z) (p : Paint) :
  ps !! i = Some p -> (0 < amount p)%Qc -> 0 <= k < 100 ->
  transfer_values ps i i k = Ret ps.
Proof.
  intros Hp Hpos Hk. unfold transfer_values.
  pose proof (lookup_lt_Some _ _ _ Hp) as Hi.
  rewrite (list_lookup_total_correct _ _ _ Hp).
  pose proof (split_values_ratio p k Hk) as Hsplit. simpl in Hsplit.
  destruct (split_values_color p (Qc_of_Z k / Qc_of_Z 100 * amount p)%Qc)
    as [Hc1 Hc2].
  destruct (split_values p _) as [portion p_from']. simpl in *.
  rewrite list_lookup_total_insert_eq by exact Hi.
  assert (Htot : (amount p_from' + amount portion)%Qc = amount p)
    by (rewrite <- Hsplit; ring).
  rewrite mix_colors_same.
  - rewrite list_insert_insert_eq, Htot, Hc2.
    replace (mkPaint (color p) (amount p)) with p by now destruct p.
    now rewrite list_insert_id.
  - congruence.
  - rewrite Htot. intros E. rewrite E in Hpos. now apply Qclt_not_eq in Hpos.
Qed.

(** ** The module's environment, one step on *)

Lemma env_distinct : distinct_beakers env.
Proof. compute_done. Qed.

Lemma env_first_step :
  exists w',
    step (0, 1, 50) env =
      (Ret (np.Arr2 (row_of <$> paints_after_first_step),
            xopp (best_of (target_paint env) paints_after_first_step PosInf),
            false, false), w') ∧
    distinct_beakers w' ∧ contents w' = paints_after_first_step ∧
    step_count w' = 1 ∧ num_beakers w' = 3%nat.
Proof.
  pose proof (step_eval env 0 1 50 0 1 env_distinct eq_refl eq_refl) as H.
  assert (Ht : transfer_values (contents env) 0 1 50 = Ret paints_after_first_step)
    by compute_done.
  rewrite Ht in H. destruct H as (w' & Hs & Hwf & Hc & Hsc & _ & _ & Hn).
  exists w'. split_and!; auto.
Qed.

(** * The properties of the specification *)

(** ** Reset *)

(** What [reset] does on any world of a Python program: the beakers keep
    the paints they hold when it is called, the step count is zero. *)
Lemma reset_keeps_current_paints (w w' : World) (obs : np.ndarray) :
  refs_valid w -> reset w = (Ret obs, w') ->
  contents w' = contents w ∧ step_count w' = 0.
Proof. intros Hv H. apply (reset_inv _ _ _ Hv) in H. tauto. Qed.

(** C1. [reset] is to give back the paints of construction time and a step
    count of zero.  On the module's environment, after the one step
    [(0, 1, 50)], [reset] returns with the step count at zero and with the
    beakers holding the paints the step left (50 ml of red, 150 ml of the
    mix, 100 ml of blue), not the three times 100 ml of construction time:
    its comprehension copies [self.beakers], the list [step] has updated. *)
Theorem C1_reset_keeps_the_paints_of_the_last_step :
  exists res w1 obs w2,
    step (0, 1, 50) env = (Ret res, w1) ∧
    reset w1 = (Ret obs, w2) ∧
    step_count w2 = 0 ∧
    contents w2 = paints_after_first_step ∧
    contents w2 ≠ contents env.
Proof.
  destruct env_first_step as (w1 & Hs & [_ Hv] & Hc & _ & Hn).
  destruct (reset_eval w1 Hv) as (w2 & Hr & _ & Hc2 & Hsc & _).
  unfold num_beakers in Hn.
  destruct (beakers w1) as [|b bs]; [discriminate|].
  eexists _, w1, _, w2. split_and!; [exact Hs | exact Hr | exact Hsc | congruence |].
  rewrite Hc2, Hc. compute_done.
Qed.

(** ** Split *)

(** Below the whole amount the portion and the receiver share what the
    receiver had. *)
Lemma split_decomposition_below (h : Heap) (r : ref) (p : Paint) (s : Qc) :
  h !! r = Some p -> (0 <= s)%Qc -> (s < amount p)%Qc ->
  exists o h',
    split r s h = (Ret (length h, o), h') ∧
    (amount (h' !!! length h) + amount (h' !!! r))%Qc = amount p.
Proof.
  intros Hr H0 H1.
  destruct (split_spec h r p s Hr) as (o & h' & Hs & _ & Hrec & Hpor & _).
  exists o, h'. split; [exact Hs|].
  rewrite (list_lookup_total_correct _ _ _ Hrec),
    (list_lookup_total_correct _ _ _ Hpor).
  destruct (Qc_eq_dec s 0%Qc) as [->|Hne].
  - unfold split_values. simpl. ring.
  - assert (Hpos : (0 < s)%Qc) by (apply Qcle_lt_or_eq in H0 as [|]; congruence).
    rewrite (split_values_partial _ _ Hpos H1). simpl. ring.
Qed.

(** A request for the whole amount, or more, hands out a paint of the
    whole amount and leaves the receiver as it was. *)
Lemma split_all_keeps_receiver (h : Heap) (r : ref) (p : Paint) (s : Qc) :
  h !! r = Some p -> (0 < s)%Qc -> (amount p <= s)%Qc ->
  split r s h = (Ret (length h, None), h ++ [p]).
Proof.
  intros Hr H0 H1. unfold split.
  rewrite (bind_run _ _ _ _ _ (load_run _ _ _ Hr)).
  apply Qcleb_gt in H0. apply Qcleb_le in H1. rewrite H0, H1.
  unfold new_Paint, mbind, M_bind, mret, M_ret. now destruct p.
Qed.

(** C2. For [0 <= s <= A] the portion and the receiver are to add up to
    [A].  At [s = A = 100] the branch "split all paint" returns a portion
    of 100 and, unlike the branch below it, does not subtract from the
    receiver, which keeps its 100: the two add up to 200. *)
Theorem C2_split_of_the_whole_amount_doubles_it :
  let h := [mkPaint (255, 0, 0) (Qc_of_Z 100)] in
  exists h',
    split 0%nat (Qc_of_Z 100) h = (Ret (1%nat, None), h') ∧
    amount (h' !!! 1%nat) = Qc_of_Z 100 ∧
    amount (h' !!! 0%nat) = Qc_of_Z 100 ∧
    (amount (h' !!! 1%nat) + amount (h' !!! 0%nat))%Qc ≠ Qc_of_Z 100.
Proof.
  set (p := mkPaint (255, 0, 0) (Qc_of_Z 100)). simpl.
  exists [p; p]. split.
  - apply (split_all_keeps_receiver [p] 0%nat p (Qc_of_Z 100));
      [reflexivity | compute_done | compute_done].
  - split_and!; [reflexivity | reflexivity | compute_done].
Qed.

(** ** Conservation in exact arithmetic *)

(** With amounts as exact rationals, a step with a valid action that
    returns conserves the total in every state of an episode.  The
    roundings of binary64 change the total: see the binary64 model
    below. *)
Lemma episode_step_conserves_total_amount
    (w w' : World) (a : Action) (res : np.ndarray * xreal * bool * bool) :
  reachable w -> valid_action w a -> step a w = (Ret res, w') ->
  total_amount w' = total_amount w.
Proof.
  destruct a as [[fi ti] k], res as [[[obs rew] d] t].
  intros [Hd _]%reachable_distinct (Hfi & Hti & Hk) H.
  apply (step_inv _ _ _ _ _ _ _ _ _ Hd) in H as (i & j & Hi & Hj & Ht & _).
  apply py_index_lt in Hi, Hj. unfold total_amount.
  apply (transfer_values_conserves _ _ i j k); auto;
    unfold contents; rewrite length_fmap; assumption.
Qed.

(** A constructor given a list of paints that are all different objects
    starts from distinct beakers. *)
Lemma init_distinct (ps : list Paint) (target_color : Color)
    (target_amount : Qc) (max_steps : Z) :
  distinct_beakers (__init__ ps (seq 0 (length ps)) target_color target_amount max_steps).
Proof.
  split; [apply NoDup_seq|]. unfold refs_valid. simpl.
  apply Forall_seq. intros j Hj. lia.
Qed.

(** Before the first [reset] the list given to the constructor may hold
    one [Paint] object twice; a step then takes from both beakers at once
    and the total drops (here from 200 to 150). *)
Lemma aliased_beakers_lose_paint :
  total_amount one_paint_twice = Qc_of_Z 200 ∧
  total_amount (step (0, 1, 50) one_paint_twice).2 = Qc_of_Z 150.
Proof. split; compute_done. Qed.

(** ** The mixer *)

(** C4, as the specification words it: two operands of amount zero are to
    give a defined result.  They give a division by zero. *)
Lemma C4_two_empty_paints_raise :
  SubtractiveModel.mix_colors (mkPaint (255, 0, 0) 0%Qc) (mkPaint (0, 255, 0) 0%Qc)
    = Raise ZeroDivisionError ∧
  ¬ exists c,
      SubtractiveModel.mix_colors (mkPaint (255, 0, 0) 0%Qc) (mkPaint (0, 255, 0) 0%Qc)
        = Ret c.
Proof.
  assert (H : SubtractiveModel.mix_colors
                (mkPaint (255, 0, 0) 0%Qc) (mkPaint (0, 255, 0) 0%Qc)
              = Raise ZeroDivisionError) by compute_done.
  split; [exact H|]. intros [c Hc]. rewrite H in Hc. discriminate.
Qed.

(** The same through [step]: an empty beaker poured into an empty beaker. *)
Lemma step_between_empty_beakers_raises :
  (step (0, 1, 50) two_empty_beakers).1 = Raise ZeroDivisionError.
Proof.
  assert (Hwf : distinct_beakers two_empty_beakers) by compute_done.
  pose proof (step_eval two_empty_beakers 0 1 50 0 1 Hwf eq_refl eq_refl) as H.
  assert (Ht : transfer_values (contents two_empty_beakers) 0 1 50
               = Raise ZeroDivisionError) by compute_done.
  rewrite Ht in H. destruct H as (w1 & ->). reflexivity.
Qed.



(** The same for the paints [mix_with] returns. *)
Lemma mix_with_commutes (h : Heap) (r1 r2 : ref) (p1 p2 : Paint) :
  h !! r1 = Some p1 -> h !! r2 = Some p2 ->
  mix_with r1 r2 h = mix_with r2 r1 h.
Proof.
  intros H1 H2.
  rewrite (mix_with_eval _ _ _ _ _ H1 H2), (mix_with_eval _ _ _ _ _ H2 H1).
  now rewrite (mix_colors_comm p2 p1), (Qcplus_comm (amount p2)).
Qed.

(** ** Reward *)

(** Without beakers the loop keeps [float('inf')] and the reward is minus
    infinity. *)
Lemma reward_without_beakers (w : World) :
  beakers w = [] -> _calculate_reward w = (Ret NegInf, w).
Proof.
  intros H. rewrite calculate_reward_eval.
  - unfold contents. now rewrite H.
  - unfold refs_valid. rewrite H. constructor.
Qed.

(** ** The horizon *)

(** C7. A step that returns has counted one more step; [done] is true
    exactly when the new count has reached [max_steps]; [truncated] is
    false. *)
Theorem C7_done_exactly_at_the_horizon
    (w w' : World) (a : Action) obs reward done truncated :
  step a w = (Ret (obs, reward, done, truncated), w') ->
  step_count w' = step_count w + 1 ∧
  (done = true <-> max_steps w <= step_count w') ∧
  truncated = false.
Proof.
  intros H. apply step_frame in H as (Hsc & Hms & _ & Hd & Ht & _).
  split_and!; [exact Hsc | | exact Ht].
  rewrite Hd, Hms. apply Z.leb_le.
Qed.

Lemma C7_done_exactly_at_the_horizon_witness :
  exists obs reward done truncated w',
    step (0, 1, 50) env = (Ret (obs, reward, done, truncated), w') ∧
    step_count w' = step_count env + 1 ∧
    (done = true <-> max_steps env <= step_count w') ∧
    truncated = false.
Proof.
  destruct env_first_step as (w' & Hs & _).
  eexists _, _, _, _, w'. split; [exact Hs|].
  exact (C7_done_exactly_at_the_horizon env w' (0, 1, 50) _ _ _ _ Hs).
Defined.

(** Along an episode: the [n]-th step after a [reset] (counting from one)
    returns [done] exactly when [n] has reached [max_steps], whatever the
    actions. *)
Lemma episode_done_flags (actions : list Action) (w w' : World) outs :
  list_comp step actions w = (Ret outs, w') ->
  step_count w' = step_count w + Z.of_nat (length actions) ∧
  max_steps w' = max_steps w ∧
  forall (n : nat) obs reward done truncated,
    outs !! n = Some (obs, reward, done, truncated) ->
    (done = true <-> max_steps w <= step_count w + Z.of_nat (S n)) ∧
    truncated = false.
Proof.
  revert w outs. induction actions as [|a actions IH]; intros w outs H.
  - inversion H; subst. simpl. split_and!; [lia | reflexivity |].
    intros n ? ? ? ? Hn. now rewrite lookup_nil in Hn.
  - simpl in H. apply bind_inv in H as ([[[o r] d] t] & w1 & Hstep & H).
    apply bind_inv in H as (outs' & w2 & Hrest & H).
    inversion H; subst; clear H.
    pose proof (step_frame _ _ _ _ _ _ _ Hstep) as (Hsc & Hms & _).
    apply step_flags in Hstep as (_ & Hd & Ht).
    destruct (IH _ _ Hrest) as (Hsc' & Hms' & Hall).
    split_and!.
    + rewrite Hsc', Hsc. simpl length. lia.
    + congruence.
    + intros [|n] obs reward done truncated Hn; simpl in Hn.
      * inversion Hn; subst. split; [|reflexivity].
        rewrite Hd. simpl. lia.
      * destruct (Hall _ _ _ _ _ Hn) as [Hd' Ht'].
        split; [|exact Ht']. rewrite Hd', Hms, Hsc. lia.
Qed.

(** ** The scenario of the specification *)

(** C8. From the module's three beakers of 100 ml (red, green, blue), the
    action [(0, 1, 50)] leaves beaker 1 with color [(85, 170, 0)] and
    150 ml. *)
Theorem C8_half_of_red_into_green :
  exists res w' p,
    step (0, 1, 50) env = (Ret res, w') ∧
    contents w' !! 1%nat = Some p ∧
    color p = (85, 170, 0) ∧ amount p = Qc_of_Z 150.
Proof.
  destruct env_first_step as (w' & Hs & _ & Hc & _).
  eexists _, w', _. split_and!; [exact Hs | now rewrite Hc | reflexivity | reflexivity].
Qed.

(** ** Observation *)

(** C9. The observation a [reset] or a [step] of an episode returns is a
    matrix of [num_beakers] rows of four numbers, the [i]-th row being the
    three channels and the amount of the [i]-th beaker. *)
Theorem C9_observation_rows (w : World) (obs : np.ndarray) :
  returns_observation w obs ->
  exists rows,
    obs = np.Arr2 rows ∧
    np.shape obs = [num_beakers w; 4%nat] ∧
    length (contents w) = num_beakers w ∧
    forall i r g b a,
      contents w !! i = Some (mkPaint (r, g, b) a) ->
      rows !! i = Some [Qc_of_Z r; Qc_of_Z g; Qc_of_Z b; a].
Proof.
  intros H.
  assert (Hobs : obs = np.Arr2 (row_of <$> contents w) ∧ (0 < num_beakers w)%nat).
  { destruct H as [w0 obs w Hv H | w0 a obs reward done truncated w Hr H].
    - apply (reset_inv _ _ _ Hv) in H. tauto.
    - destruct a as [[fi ti] k]. apply reachable_distinct in Hr as [Hwf Hn].
      apply (step_inv _ _ _ _ _ _ _ _ _ Hwf) in H
        as (i & j & _ & _ & _ & Hobs & _ & Hn').
      split; [exact Hobs | lia]. }
  destruct Hobs as [-> Hn].
  assert (Hlen : length (contents w) = num_beakers w)
    by (unfold contents; apply length_fmap).
  exists (row_of <$> contents w). split_and!; [reflexivity | | exact Hlen |].
  - simpl. rewrite length_fmap, Hlen. f_equal.
    destruct (contents w) as [|p ps]; [simpl in Hlen; lia|].
    simpl. unfold row_of. now destruct (color p) as [[r g] b].
  - intros i r g b a Hi. now rewrite list_lookup_fmap, Hi.
Qed.

Lemma C9_observation_rows_witness :
  exists obs w,
    returns_observation w obs ∧
    exists rows,
      obs = np.Arr2 rows ∧
      np.shape obs = [num_beakers w; 4%nat] ∧
      length (contents w) = num_beakers w ∧
      forall i r g b a,
        contents w !! i = Some (mkPaint (r, g, b) a) ->
        rows !! i = Some [Qc_of_Z r; Qc_of_Z g; Qc_of_Z b; a].
Proof.
  destruct env_distinct as [_ Hv].
  destruct (reset_eval env Hv) as (w & Hr & _).
  assert (Hro : returns_observation w (np.Arr2 (row_of <$> contents env)))
    by exact (obs_reset env _ w Hv Hr).
  eexists _, w. split; [exact Hro|].
  exact (C9_observation_rows w _ Hro).
Defined.

(** The number of beakers is the one of construction time throughout. *)
Lemma num_beakers_reset (w w' : World) (obs : np.ndarray) :
  refs_valid w -> reset w = (Ret obs, w') -> num_beakers w' = num_beakers w.
Proof. intros Hv H. apply (reset_inv _ _ _ Hv) in H. tauto. Qed.

Lemma num_beakers_step (w w' : World) (a : Action) res :
  distinct_beakers w -> step a w = (Ret res, w') -> num_beakers w' = num_beakers w.
Proof.
  destruct a as [[fi ti] k], res as [[[obs rew] d] t]. intros Hwf H.
  apply (step_inv _ _ _ _ _ _ _ _ _ Hwf) in H. now destruct H as (i & j & H).
Qed.

(** ** Pouring a beaker into itself, in exact arithmetic *)

(** With amounts as exact rationals, a valid action that pours a beaker
    holding some paint into itself returns and leaves the paints as they
    were, in every state of an episode.  In binary64 a channel can move
    by one: see the binary64 model below. *)
Lemma episode_self_transfer_keeps_the_paints
    (w : World) (i k : Z) (p : Paint) :
  reachable w ->
  valid_action w (i, i, k) ->
  contents w !! Z.to_nat i = Some p ->
  (0 < amount p)%Qc ->
  exists res w',
    step (i, i, k) w = (Ret res, w') ∧ contents w' = contents w.
Proof.
  intros [Hd _]%reachable_distinct (Hi & _ & Hk) Hp Hpos.
  pose proof (step_eval w i i k _ _ Hd (py_index_valid _ _ Hi) (py_index_valid _ _ Hi))
    as H.
  rewrite (transfer_values_self _ _ _ _ Hp Hpos Hk) in H.
  destruct H as (w' & Hs & _ & Hc & _).
  eexists _, w'. split; eauto.
Qed.

(** On a list that holds one object twice, pouring beaker 0 into itself
    takes from beaker 1 as well. *)
Lemma aliased_self_transfer_changes_a_beaker :
  amount <$> contents one_paint_twice = [Qc_of_Z 100; Qc_of_Z 100] ∧
  amount <$> contents (step (0, 0, 50) one_paint_twice).2
    = [Qc_of_Z 100; Qc_of_Z 50].
Proof. split; compute_done. Qed.

(** * More of the code *)

(** Properties of the methods beyond those the specification states: the
    branches of [split], the objects a call creates and the objects it
    writes, the actions [step] does not check, the exceptions, and what
    holds along a whole episode.  As above, amounts are exact rationals
    and the reward is a real number. *)

(** ** The complement transform *)

(** X1. [_rgb_to_cmy] and [_cmy_to_rgb] undo each other, on every triple of
    integers, and a color has its channels in range exactly when its
    complement has. *)
Theorem X1_cmy_round_trip (c : Color) :
  SubtractiveModel._cmy_to_rgb (SubtractiveModel._rgb_to_cmy c) = c ∧
  SubtractiveModel._rgb_to_cmy (SubtractiveModel._cmy_to_rgb c) = c ∧
  (in_range c <-> in_range (SubtractiveModel._rgb_to_cmy c)).
Proof.
  destruct c as [[r g] b]. unfold in_range. simpl. split_and!.
  - repeat f_equal; lia.
  - repeat f_equal; lia.
  - lia.
Qed.

(** ** [split], branch by branch *)





(** ** The mixed color in exact arithmetic *)

(** The exact quotient lies between the channels of the two paints, and
    so does its truncation.  The rounded quotient of binary64 can fall
    just below an integer it should reach; see the binary64 model. *)

Lemma py_int_lower (c : Z) (x : Qc) : (Qc_of_Z c <= x)%Qc -> c <= py_int x.
Proof.
  unfold Qcle, Qle, py_int. simpl. rewrite Z.mul_1_r. intros H.
  rewrite <- (Z.quot_mul c (Zpos (Qden x))) by discriminate.
  apply Z.quot_le_mono; [reflexivity | exact H].
Qed.

Lemma py_int_upper (c : Z) (x : Qc) : (x <= Qc_of_Z c)%Qc -> py_int x <= c.
Proof.
  unfold Qcle, Qle, py_int. simpl. rewrite Z.mul_1_r. intros H.
  rewrite <- (Z.quot_mul c (Zpos (Qden x))) by discriminate.
  apply Z.quot_le_mono; [reflexivity | exact H].
Qed.

Lemma weighted_mean_lower (m c1 c2 : Z) (a1 a2 : Qc) :
  m <= c1 -> m <= c2 -> (0 <= a1)%Qc -> (0 <= a2)%Qc -> (0 < a1 + a2)%Qc ->
  (Qc_of_Z m <= (Qc_of_Z c1 * a1 + Qc_of_Z c2 * a2) / (a1 + a2))%Qc.
Proof.
  intros H1 H2 Ha1 Ha2 Ht.
  apply (Qcmult_lt_0_le_reg_r _ _ (a1 + a2)%Qc Ht).
  rewrite test_field by (apply Qclt_not_eq in Ht; congruence).
  rewrite Qcmult_plus_distr_r.
  apply Qcplus_le_compat; apply Qcmult_le_compat_r; auto;
    apply (proj1 (Z2Qc_inj_le _ _)); assumption.
Qed.

Lemma weighted_mean_upper (m c1 c2 : Z) (a1 a2 : Qc) :
  c1 <= m -> c2 <= m -> (0 <= a1)%Qc -> (0 <= a2)%Qc -> (0 < a1 + a2)%Qc ->
  ((Qc_of_Z c1 * a1 + Qc_of_Z c2 * a2) / (a1 + a2) <= Qc_of_Z m)%Qc.
Proof.
  intros H1 H2 Ha1 Ha2 Ht.
  apply (Qcmult_lt_0_le_reg_r _ _ (a1 + a2)%Qc Ht).
  rewrite test_field by (apply Qclt_not_eq in Ht; congruence).
  rewrite Qcmult_plus_distr_r.
  apply Qcplus_le_compat; apply Qcmult_le_compat_r; auto;
    apply (proj1 (Z2Qc_inj_le _ _)); assumption.
Qed.

Lemma mixed_value_between (c1 c2 : Z) (a1 a2 : Qc) :
  (0 <= a1)%Qc -> (0 <= a2)%Qc -> (0 < a1 + a2)%Qc ->
  between c1 c2 (mixed_value c1 c2 a1 a2).
Proof.
  intros Ha1 Ha2 Ht. unfold between, mixed_value. split.
  - apply py_int_lower, weighted_mean_lower; auto; lia.
  - apply py_int_upper, weighted_mean_upper; auto; lia.
Qed.

Lemma mixed_channel_between (c1 c2 : Z) (a1 a2 : Qc) :
  (0 <= a1)%Qc -> (0 <= a2)%Qc -> (0 < a1 + a2)%Qc ->
  between c1 c2 (255 - mixed_value (255 - c1) (255 - c2) a1 a2).
Proof.
  intros Ha1 Ha2 Ht.
  pose proof (mixed_value_between (255 - c1) (255 - c2) a1 a2 Ha1 Ha2 Ht) as H.
  unfold between in *. lia.
Qed.

Lemma mix_colors_between (p1 p2 : Paint) (c : Color) :
  (0 <= amount p1)%Qc -> (0 <= amount p2)%Qc ->
  SubtractiveModel.mix_colors p1 p2 = Ret c ->
  color_between (color p1) (color p2) c.
Proof.
  intros Ha1 Ha2. rewrite mix_colors_eval.
  destruct (color p1) as [[r1 g1] b1], (color p2) as [[r2 g2] b2].
  destruct (Qc_eq_dec (amount p1 + amount p2)%Qc 0%Qc) as [E|E]; [discriminate|].
  intros [= <-].
  assert (Ht : (0 < amount p1 + amount p2)%Qc).
  { apply Qcle_lt_or_eq in Ha1. destruct Ha1 as [Ha1|Ha1].
    - now apply Qcplus_pos_nonneg.
    - apply Qcle_lt_or_eq in Ha2. destruct Ha2 as [Ha2|Ha2].
      + rewrite <- Ha1, Qcplus_0_l. exact Ha2.
      + exfalso. apply E. rewrite <- Ha1, <- Ha2. reflexivity. }
  unfold color_between. simpl. split_and!; now apply mixed_channel_between.
Qed.

Lemma between_in_range (a b x : Z) :
  0 <= a <= 255 -> 0 <= b <= 255 -> between a b x -> 0 <= x <= 255.
Proof. unfold between. lia. Qed.

Lemma color_between_in_range (c1 c2 c : Color) :
  in_range c1 -> in_range c2 -> color_between c1 c2 c -> in_range c.
Proof.
  intros (A0 & A1 & A2) (B0 & B1 & B2) (C0 & C1 & C2). unfold in_range.
  split_and!.
  - exact (proj1 (between_in_range _ _ _ A0 B0 C0)).
  - exact (proj2 (between_in_range _ _ _ A0 B0 C0)).
  - exact (proj1 (between_in_range _ _ _ A1 B1 C1)).
  - exact (proj2 (between_in_range _ _ _ A1 B1 C1)).
  - exact (proj1 (between_in_range _ _ _ A2 B2 C2)).
  - exact (proj2 (between_in_range _ _ _ A2 B2 C2)).
Qed.



(** ** The indices of an action *)

Lemma bind_ext {S A B : Type} (m m' : M S A) (f f' : A -> M S B) (s : S) :
  m s = m' s ->
  (forall a s1, m s = (Ret a, s1) -> f a s1 = f' a s1) ->
  (m ≫= f) s = (m' ≫= f') s.
Proof.
  intros Hm Hf. unfold mbind, M_bind. rewrite <- Hm.
  destruct (m s) as [[a|e] s1]; [now apply Hf | reflexivity].
Qed.

Lemma py_index_raise (len : nat) (i : Z) :
  py_index len i = Raise IndexError <-> i < - Z.of_nat len ∨ Z.of_nat len <= i.
Proof.
  unfold py_index.
  destruct (0 <=? i) eqn:E1, (i <? Z.of_nat len) eqn:E2,
           (- Z.of_nat len <=? i) eqn:E3, (i <? 0) eqn:E4; simpl;
    split; try discriminate; try reflexivity; lia.
Qed.

Lemma py_index_wraps (len : nat) (i : Z) :
  0 <= i < Z.of_nat len -> py_index len (i - Z.of_nat len) = py_index len i.
Proof.
  intros Hi. rewrite (py_index_valid len i Hi). unfold py_index.
  replace (0 <=? i - Z.of_nat len) with false by (symmetry; apply Z.leb_gt; lia).
  replace (- Z.of_nat len <=? i - Z.of_nat len) with true
    by (symmetry; apply Z.leb_le; lia).
  replace (i - Z.of_nat len <? 0) with true by (symmetry; apply Z.ltb_lt; lia).
  simpl. f_equal. f_equal. lia.
Qed.

Lemma beakers_getitem_index (w : World) (i i' : Z) :
  py_index (num_beakers w) i = py_index (num_beakers w) i' ->
  beakers_getitem i w = beakers_getitem i' w.
Proof.
  intros H. unfold beakers_getitem, gets, mbind, M_bind, lift. simpl.
  unfold num_beakers in H. now rewrite H.
Qed.

Lemma beakers_setitem_index (w : World) (i i' : Z) (r : ref) :
  py_index (num_beakers w) i = py_index (num_beakers w) i' ->
  beakers_setitem i r w = beakers_setitem i' r w.
Proof.
  intros H. unfold beakers_setitem, gets, mbind, M_bind, lift. simpl.
  unfold num_beakers in H. now rewrite H.
Qed.

(** [step] reads its two indices only through the positions they name. *)
Lemma step_index_only (w : World) (fi fi' ti ti' k : Z) :
  py_index (num_beakers w) fi = py_index (num_beakers w) fi' ->
  py_index (num_beakers w) ti = py_index (num_beakers w) ti' ->
  step (fi, ti, k) w = step (fi', ti', k) w.
Proof.
  intros Hf Ht. unfold step.
  apply bind_ext; [now apply beakers_getitem_index | intros r_i w1 H1].
  apply read_only_beakers_getitem in H1. subst w1.
  apply bind_ext; [now apply beakers_getitem_index | intros r_j w2 H2].
  apply read_only_beakers_getitem in H2. subst w2.
  apply bind_ext; [reflexivity | intros p_i w3 H3].
  apply on_heap_frame in H3 as (B3 & _).
  apply bind_ext; [reflexivity | intros [portion o] w4 H4].
  apply on_heap_frame in H4 as (B4 & _).
  apply bind_ext; [reflexivity | intros mixed w5 H5].
  apply on_heap_frame in H5 as (B5 & _).
  apply bind_ext; [|reflexivity].
  apply beakers_setitem_index. unfold num_beakers in *.
  now rewrite B5, B4, B3.
Qed.

Lemma mix_colors_raise (p1 p2 : Paint) (e : exn) :
  SubtractiveModel.mix_colors p1 p2 = Raise e ->
  e = ZeroDivisionError ∧ (amount p1 + amount p2)%Qc = 0%Qc.
Proof.
  rewrite mix_colors_eval.
  destruct (color p1) as [[r1 g1] b1], (color p2) as [[r2 g2] b2].
  destruct (Qc_eq_dec (amount p1 + amount p2)%Qc 0%Qc) as [E|E];
    [|discriminate].
  now intros [= <-].
Qed.


Lemma transfer_values_raise (ps : list Paint) (i j : nat) (k : Z) (e : exn) :
  transfer_values ps i j k = Raise e -> e = ZeroDivisionError.
Proof.
  unfold transfer_values.
  destruct (split_values (ps !!! i) _) as [portion p_from'].
  destruct (SubtractiveModel.mix_colors _ portion) as [c|e'] eqn:Hm;
    [discriminate|].
  intros [= <-]. now apply mix_colors_raise in Hm.
Qed.

(** X8. [step] does not check the action and leaves the two indices to the
    list: an index below [-n] or from [n] on ([n] the number of beakers),
    as source or as destination, raises [IndexError] before anything is
    changed; and on distinct beakers this is the only way to that
    exception. *)
Theorem X8_step_index_out_of_range (w : World) (fi ti k : Z) :
  (fi < - Z.of_nat (num_beakers w) ∨ Z.of_nat (num_beakers w) <= fi ∨
   ti < - Z.of_nat (num_beakers w) ∨ Z.of_nat (num_beakers w) <= ti ->
   step (fi, ti, k) w = (Raise IndexError, w)) ∧
  (distinct_beakers w ->
   forall w1, step (fi, ti, k) w = (Raise IndexError, w1) ->
     fi < - Z.of_nat (num_beakers w) ∨ Z.of_nat (num_beakers w) <= fi ∨
     ti < - Z.of_nat (num_beakers w) ∨ Z.of_nat (num_beakers w) <= ti).
Proof.
  split.
  - intros H. unfold step.
    destruct (py_index (num_beakers w) fi) as [i|e] eqn:Hfi.
    + assert (Hti : py_index (num_beakers w) ti = Raise IndexError).
      { apply py_index_raise. destruct H as [H|[H|[H|H]]]; auto;
          exfalso;
          assert (Hr : py_index (num_beakers w) fi = Raise IndexError)
            by (apply py_index_raise; auto);
          congruence. }
      destruct (lookup_lt_is_Some_2 _ _ (py_index_lt _ _ _ Hfi)) as [r_i Hri].
      rewrite (bind_run _ _ _ _ _ (beakers_getitem_eval _ _ _ _ Hfi Hri)).
      apply bind_raise. now apply beakers_getitem_raise.
    + assert (e = IndexError) as ->.
      { unfold py_index in Hfi.
        repeat (destruct (_ && _) in Hfi; try discriminate). congruence. }
      apply bind_raise. now apply beakers_getitem_raise.
  - intros Hd w1 Hs.
    destruct (py_index (num_beakers w) fi) as [i|e] eqn:Hfi.
    2:{ assert (e = IndexError) as ->.
        { unfold py_index in Hfi.
          repeat (destruct (_ && _) in Hfi; try discriminate). congruence. }
        apply py_index_raise in Hfi. tauto. }
    destruct (py_index (num_beakers w) ti) as [j|e] eqn:Hti.
    2:{ assert (e = IndexError) as ->.
        { unfold py_index in Hti.
          repeat (destruct (_ && _) in Hti; try discriminate). congruence. }
        apply py_index_raise in Hti. tauto. }
    exfalso. pose proof (step_eval w fi ti k i j Hd Hfi Hti) as He.
    destruct (transfer_values (contents w) i j k) as [ps'|e] eqn:Htv.
    + destruct He as (w' & He & _). congruence.
    + apply transfer_values_raise in Htv. subst e.
      destruct He as (w' & He). congruence.
Qed.

Lemma X8_step_index_out_of_range_witness :
  (3 < - Z.of_nat (num_beakers env) ∨ Z.of_nat (num_beakers env) <= 3 ∨
   1 < - Z.of_nat (num_beakers env) ∨ Z.of_nat (num_beakers env) <= 1) ∧
  step (3, 1, 50) env = (Raise IndexError, env).
Proof.
  assert (H : 3 < - Z.of_nat (num_beakers env) ∨ Z.of_nat (num_beakers env) <= 3 ∨
              1 < - Z.of_nat (num_beakers env) ∨ Z.of_nat (num_beakers env) <= 1)
    by (right; left; change (num_beakers env) with 3%nat; lia).
  split; [exact H|].
  exact (proj1 (X8_step_index_out_of_range env 3 1 50) H).
Defined.

(** X9. A negative index counts from the end, as on any Python list: for
    a position [i] of the beaker list, the index [i - n] as source or as
    destination gives the step that [i] gives. *)
Theorem X9_negative_index_counts_from_the_end (w : World) (fi ti k : Z) :
  0 <= fi < Z.of_nat (num_beakers w) ->
  0 <= ti < Z.of_nat (num_beakers w) ->
  step (fi - Z.of_nat (num_beakers w), ti, k) w = step (fi, ti, k) w ∧
  step (fi, ti - Z.of_nat (num_beakers w), k) w = step (fi, ti, k) w ∧
  step (fi - Z.of_nat (num_beakers w), ti - Z.of_nat (num_beakers w), k) w
    = step (fi, ti, k) w.
Proof.
  intros Hf Ht.
  split_and!; apply step_index_only;
    try reflexivity; now apply py_index_wraps.
Qed.

Lemma X9_negative_index_counts_from_the_end_witness :
  0 <= 0 < Z.of_nat (num_beakers env) ∧ 0 <= 1 < Z.of_nat (num_beakers env) ∧
  step (0 - Z.of_nat (num_beakers env), 1, 50) env = step (0, 1, 50) env ∧
  step (0, 1 - Z.of_nat (num_beakers env), 50) env = step (0, 1, 50) env ∧
  step (0 - Z.of_nat (num_beakers env), 1 - Z.of_nat (num_beakers env), 50) env
    = step (0, 1, 50) env.
Proof.
  assert (H0 : 0 <= 0 < Z.of_nat (num_beakers env))
    by (change (num_beakers env) with 3%nat; lia).
  assert (H1 : 0 <= 1 < Z.of_nat (num_beakers env))
    by (change (num_beakers env) with 3%nat; lia).
  refine (conj H0 (conj H1 _)).
  exact (X9_negative_index_counts_from_the_end env 0 1 50 H0 H1).
Defined.

(** ** The amount a step moves *)

Lemma Qc_sum_zero (a b : Qc) :
  (0 <= a)%Qc -> (0 <= b)%Qc -> (a + b)%Qc = 0%Qc -> a = 0%Qc ∧ b = 0%Qc.
Proof.
  intros Ha Hb E.
  apply Qcle_lt_or_eq in Ha as [Ha|Ha].
  - exfalso. pose proof (Qcplus_pos_nonneg _ _ Ha Hb) as H.
    rewrite E in H. now apply Qclt_not_eq in H.
  - subst a. rewrite Qcplus_0_l in E. auto.
Qed.

Lemma ratio_sign (k : Z) :
  (0 < k -> (0 < Qc_of_Z k / Qc_of_Z 100)%Qc) ∧
  (k <= 0 -> (Qc_of_Z k / Qc_of_Z 100 <= 0)%Qc) ∧
  (100 <= k -> (1 <= Qc_of_Z k / Qc_of_Z 100)%Qc).
Proof.
  unfold Qcle, Qclt, Qcdiv, Qcinv, Qcmult. simpl.
  rewrite !Qred_correct. unfold Qle, Qlt, Qmult, Qinv. simpl.
  split_and!; lia.
Qed.

Section moved_amount.
Variables (p : Paint) (k : Z).
Hypothesis HA : (0 <= amount p)%Qc.

Local Abbreviation t := (Qc_of_Z k / Qc_of_Z 100 * amount p)%Qc.

Lemma moved_nothing : k <= 0 ∨ amount p = 0%Qc -> (t <= 0)%Qc.
Proof.
  intros [Hk|HA0].
  - apply ratio_sign in Hk. rewrite <- (Qcmult_0_l (amount p)).
    now apply Qcmult_le_compat_r.
  - rewrite HA0, Qcmult_0_r. apply Qcle_refl.
Qed.

Lemma moved_something : 0 < k -> (0 < amount p)%Qc -> (0 < t)%Qc.
Proof. intros Hk Hp. apply ratio_sign in Hk. now apply Qcmult_pos_pos. Qed.

Lemma moved_part : 0 <= k < 100 -> (0 < amount p)%Qc -> (t < amount p)%Qc.
Proof.
  intros Hk Hp. destruct (ratio_bounds k Hk) as [_ Hr1].
  rewrite <- (Qcmult_1_l (amount p)) at 2. now apply Qcmult_lt_compat_r.
Qed.

Lemma moved_whole : 100 <= k -> (amount p <= t)%Qc.
Proof.
  intros Hk. apply ratio_sign in Hk.
  rewrite <- (Qcmult_1_l (amount p)) at 1. now apply Qcmult_le_compat_r.
Qed.

Lemma sign_cases : (k <= 0 ∨ amount p = 0%Qc) ∨ (0 < k ∧ (0 < amount p)%Qc).
Proof.
  destruct (Z_le_gt_dec k 0) as [Hk|Hk]; [now left; left|].
  apply Qcle_lt_or_eq in HA as [Hp|Hp]; [right; split; [lia | exact Hp]|].
  left. right. now symmetry.
Qed.

Lemma split_values_none :
  k <= 0 ∨ amount p = 0%Qc -> split_values p t = (mkPaint (color p) 0%Qc, p).
Proof.
  intros H. apply moved_nothing in H. unfold split_values.
  apply Qcleb_le in H. now rewrite H.
Qed.

Lemma split_values_some :
  0 < k < 100 -> (0 < amount p)%Qc ->
  split_values p t = (mkPaint (color p) t, mkPaint (color p) (amount p - t)%Qc).
Proof.
  intros Hk Hp. apply split_values_partial.
  - apply moved_something; [lia | exact Hp].
  - apply moved_part; [lia | exact Hp].
Qed.

Lemma split_values_whole :
  100 <= k -> (0 < amount p)%Qc ->
  split_values p t = (mkPaint (color p) (amount p), p).
Proof.
  intros Hk Hp. unfold split_values.
  assert (H0 : (0 < t)%Qc) by (apply moved_something; [lia | exact Hp]).
  apply Qcleb_gt in H0. rewrite H0.
  pose proof (moved_whole Hk) as H1. apply Qcleb_le in H1. now rewrite H1.
Qed.

(** For a ratio index of the action space, the portion is the ratio of
    the amount and the receiver keeps the rest. *)
Lemma split_values_valid :
  0 <= k < 100 ->
  split_values p t = (mkPaint (color p) t, mkPaint (color p) (amount p - t)%Qc).
Proof.
  intros Hk. destruct sign_cases as [Hn|[Hk0 Hp]].
  - rewrite (split_values_none Hn).
    assert (Ht : t = 0%Qc).
    { destruct Hn as [Hk0|HA0].
      - assert (k = 0) as -> by lia. apply Qcmult_0_l.
      - rewrite HA0. apply Qcmult_0_r. }
    rewrite Ht. f_equal. destruct p as [c a]. simpl. f_equal. ring.
  - apply split_values_some; [lia | exact Hp].
Qed.

End moved_amount.

Lemma split_values_nonneg (p : Paint) (s : Qc) :
  (0 <= amount p)%Qc ->
  (0 <= amount (split_values p s).1)%Qc ∧ (0 <= amount (split_values p s).2)%Qc.
Proof.
  intros HA.
  destruct (Qclt_le_dec 0%Qc s) as [Hpos|Hle];
    [destruct (Qclt_le_dec s (amount p)) as [Hlt|Hge]|].
  - rewrite (split_values_partial _ _ Hpos Hlt). simpl. split.
    + now apply Qclt_le_weak.
    + apply Qclt_le_weak in Hlt. apply (Qcplus_le_mono_r _ _ s). now ring_simplify.
  - unfold split_values. apply Qcleb_gt in Hpos. apply Qcleb_le in Hge.
    rewrite Hpos, Hge. simpl. auto.
  - unfold split_values. apply Qcleb_le in Hle. rewrite Hle. simpl.
    split; [apply Qcle_refl | exact HA].
Qed.

Section transfer_value_facts.
Variables (ps : list Paint) (i j : nat) (k : Z).
Hypothesis Hi : (i < length ps)%nat.
Hypothesis Hj : (j < length ps)%nat.

Local Abbreviation A := (amount (ps !!! i)).
Local Abbreviation B := (amount (ps !!! j)).
Local Abbreviation moved := (Qc_of_Z k / Qc_of_Z 100 * amount (ps !!! i))%Qc.

Lemma transfer_values_unfold (portion p' : Paint) :
  split_values (ps !!! i) moved = (portion, p') ->
  transfer_values ps i j k =
    match SubtractiveModel.mix_colors (<[i := p']> ps !!! j) portion with
    | Ret c => Ret (<[j := mkPaint c (amount (<[i := p']> ps !!! j)
                                      + amount portion)%Qc]> (<[i := p']> ps))
    | Raise e => Raise e
    end.
Proof. intros H. unfold transfer_values. now rewrite H. Qed.

Lemma insert_same : <[i := ps !!! i]> ps = ps.
Proof. apply list_insert_id. now apply list_lookup_lookup_total_lt. Qed.




(** A ratio index of the action space, two different beakers. *)
Lemma transfer_values_moves (ps' : list Paint) :
  i ≠ j -> 0 <= k < 100 -> (0 <= A)%Qc ->
  transfer_values ps i j k = Ret ps' ->
  ps' !!! i = mkPaint (color (ps !!! i)) (A - moved)%Qc ∧
  amount (ps' !!! j) = (B + moved)%Qc ∧
  SubtractiveModel.mix_colors (ps !!! j) (mkPaint (color (ps !!! i)) moved)
    = Ret (color (ps' !!! j)) ∧
  (forall l, l ≠ i -> l ≠ j -> ps' !! l = ps !! l).
Proof.
  intros Hne Hk HA.
  rewrite (transfer_values_unfold _ _ (split_values_valid _ _ HA Hk)).
  rewrite list_lookup_total_insert_ne by exact Hne.
  destruct (SubtractiveModel.mix_colors _ _) as [c|e]; [|discriminate].
  intros [= <-]. split_and!.
  - rewrite list_lookup_total_insert_ne by (intros E; now apply Hne).
    now rewrite list_lookup_total_insert_eq.
  - now rewrite list_lookup_total_insert_eq by now rewrite length_insert.
  - now rewrite list_lookup_total_insert_eq by now rewrite length_insert.
  - intros l Hl1 Hl2.
    rewrite list_lookup_insert_ne by (intros E; now apply Hl2).
    now rewrite list_lookup_insert_ne by (intros E; now apply Hl1).
Qed.

(** A ratio index from 100 on: the whole source is poured and stays. *)
Lemma transfer_values_doubles :
  100 <= k -> (0 < A)%Qc -> Forall (fun p => (0 <= amount p)%Qc) ps ->
  exists c, transfer_values ps i j k = Ret (<[j := mkPaint c (B + A)%Qc]> ps).
Proof.
  intros Hk Hp Hall.
  assert (HA : (0 <= A)%Qc) by now apply Qclt_le_weak.
  rewrite (transfer_values_unfold _ _ (split_values_whole _ _ HA Hk Hp)).
  rewrite insert_same.
  destruct (mix_colors_total (ps !!! j) (mkPaint (color (ps !!! i)) A))
    as [c Hc].
  - simpl. intros E.
    assert (HB : (0 <= B)%Qc)
      by exact (Forall_lookup_1 _ _ _ _ Hall (list_lookup_lookup_total_lt _ _ Hj)).
    pose proof (Qcplus_nonneg_pos _ _ HB Hp) as H. rewrite E in H.
    now apply Qclt_not_eq in H.
  - rewrite Hc. now exists c.
Qed.

Lemma transfer_values_sane (ps' : list Paint) :
  Forall sane_paint ps -> transfer_values ps i j k = Ret ps' ->
  Forall sane_paint ps'.
Proof.
  intros Hall. unfold transfer_values.
  assert (Hpi : sane_paint (ps !!! i))
    by exact (Forall_lookup_1 _ _ _ _ Hall (list_lookup_lookup_total_lt _ _ Hi)).
  destruct Hpi as [Hci HA].
  destruct (split_values_color (ps !!! i) moved) as [Hc1 Hc2].
  destruct (split_values_nonneg (ps !!! i) moved HA) as [Hs1 Hs2].
  destruct (split_values (ps !!! i) moved) as [portion p']. simpl in *.
  assert (Hall1 : Forall sane_paint (<[i := p']> ps)).
  { apply Forall_insert; [exact Hall|]. split; [now rewrite Hc2 | exact Hs2]. }
  assert (Hto : sane_paint (<[i := p']> ps !!! j)).
  { eapply Forall_lookup_1; [exact Hall1|].
    apply list_lookup_lookup_total_lt. now rewrite length_insert. }
  destruct Hto as [Hcj HB].
  destruct (SubtractiveModel.mix_colors _ portion) as [c|e] eqn:Hm; [|discriminate].
  intros [= <-]. apply Forall_insert; [exact Hall1|]. split; simpl.
  - assert (Hcp : in_range (color portion)) by now rewrite Hc1.
    exact (color_between_in_range _ _ _ Hcj Hcp
             (mix_colors_between _ _ _ HB Hs1 Hm)).
  - now apply Qcplus_nonneg_nonneg.
Qed.


End transfer_value_facts.

(** ** What a step does to the amounts *)

Lemma contents_length (w : World) : length (contents w) = num_beakers w.
Proof. unfold contents, num_beakers. apply length_fmap. Qed.

Lemma index_in_contents (w : World) (fi : Z) (i : nat) :
  py_index (num_beakers w) fi = Ret i -> (i < length (contents w))%nat.
Proof. rewrite contents_length. apply py_index_lt. Qed.



Section step_amounts.
Variables (w : World) (fi ti k : Z) (i j : nat).
Hypothesis Hd : distinct_beakers w.
Hypothesis Hfi : py_index (num_beakers w) fi = Ret i.
Hypothesis Hti : py_index (num_beakers w) ti = Ret j.


Lemma step_returned (res : np.ndarray * xreal * bool * bool) (w' : World) :
  step (fi, ti, k) w = (Ret res, w') ->
  transfer_values (contents w) i j k = Ret (contents w') ∧ distinct_beakers w'.
Proof.
  destruct res as [[[obs reward] done] truncated]. intros Hs.
  destruct (step_inv _ _ _ _ _ _ _ _ _ Hd Hs) as (i' & j' & Hi' & Hj' & Htv & _ & Hd' & _).
  assert (i' = i) as -> by congruence.
  assert (j' = j) as -> by congruence.
  auto.
Qed.


End step_amounts.

Lemma env_sane : sane env.
Proof. unfold sane. repeat constructor; compute_done. Qed.


Lemma env_no_negative : no_negative_amount env.
Proof. unfold no_negative_amount. repeat constructor; compute_done. Qed.



(** X11. A step keeps the paints within the data model, whatever the ratio
    index: from beakers with channels in [[0, 255]] and amounts that are
    not negative, a step that returns leaves such beakers, and returns
    their rows as the observation. *)
Theorem X11_step_keeps_channels_and_amounts_in_range
    (w w' : World) (fi ti k : Z)
    (obs : np.ndarray) (reward : xreal) (done truncated : bool) :
  distinct_beakers w -> sane w ->
  step (fi, ti, k) w = (Ret (obs, reward, done, truncated), w') ->
  sane w' ∧ obs = np.Arr2 (row_of <$> contents w').
Proof.
  intros Hd Hsane Hs.
  destruct (step_inv _ _ _ _ _ _ _ _ _ Hd Hs)
    as (i & j & Hfi & Hti & Htv & Hobs & _).
  split; [|exact Hobs].
  exact (transfer_values_sane (contents w) i j k
           (index_in_contents _ _ _ Hfi) (index_in_contents _ _ _ Hti)
           (contents w') Hsane Htv).
Qed.

Lemma X11_step_keeps_channels_and_amounts_in_range_witness :
  exists obs reward done truncated w',
    distinct_beakers env ∧ sane env ∧
    step (0, 1, 50) env = (Ret (obs, reward, done, truncated), w') ∧
    sane w' ∧ obs = np.Arr2 (row_of <$> contents w').
Proof.
  destruct env_first_step as (w' & Hs & _).
  eexists _, _, _, _, w'.
  refine (conj env_distinct (conj env_sane (conj Hs _))).
  exact (X11_step_keeps_channels_and_amounts_in_range env w' 0 1 50 _ _ _ _
           env_distinct env_sane Hs).
Defined.






(** ** Which objects a call writes *)

Lemma bind_cases {S A B : Type} (m : M S A) (f : A -> M S B) s o s' :
  (m ≫= f) s = (o, s') ->
  (exists e, m s = (Raise e, s') ∧ o = Raise e) ∨
  (exists a s1, m s = (Ret a, s1) ∧ f a s1 = (o, s')).
Proof.
  unfold mbind, M_bind. destruct (m s) as [[a|e] s1].
  - intros H. right. eauto.
  - intros [= <- <-]. left. eauto.
Qed.

Lemma grows_ret {A : Type} (a : A) : grows (mret a).
Proof. intros h o h' [= _ <-]. reflexivity. Qed.

Lemma grows_lift {A : Type} (o : outcome A) : grows (lift o).
Proof. intros h o' h' [= _ <-]. reflexivity. Qed.

Lemma grows_load (r : ref) : grows (load r).
Proof. intros h o h' H. apply read_only_load in H. now subst. Qed.

Lemma grows_new_Paint (c : Color) (a : Qc) : grows (new_Paint c a).
Proof. intros h o h' [= _ <-]. now apply prefix_app_r. Qed.

Lemma grows_bind {A B : Type} (m : M Heap A) (f : A -> M Heap B) :
  grows m -> (forall a, grows (f a)) -> grows (m ≫= f).
Proof.
  intros Hm Hf h o h' H.
  apply bind_cases in H as [(e & H & _) | (a & h1 & H1 & H2)].
  - exact (Hm _ _ _ H).
  - etrans; [exact (Hm _ _ _ H1) | exact (Hf _ _ _ _ H2)].
Qed.

Lemma grows_list_comp {A B : Type} (f : A -> M Heap B) (l : list A) :
  (forall x, grows (f x)) -> grows (list_comp f l).
Proof.
  intros Hf. induction l as [|x l IH]; simpl.
  - apply grows_ret.
  - apply grows_bind; [apply Hf|]. intros y.
    apply grows_bind; [exact IH|]. intros ys. apply grows_ret.
Qed.

Lemma grows_mix_with (r1 r2 : ref) : grows (mix_with r1 r2).
Proof.
  unfold mix_with.
  apply grows_bind; [apply grows_load|]. intros s.
  apply grows_bind; [apply grows_load|]. intros o.
  apply grows_bind; [apply grows_lift|]. intros c. apply grows_new_Paint.
Qed.

Lemma grows_copy (r : ref) :
  grows (load r ≫= fun p => new_Paint (color p) (amount p)).
Proof. apply grows_bind; [apply grows_load|]. intros p. apply grows_new_Paint. Qed.

Lemma keeps_grows {A : Type} (h0 : Heap) (m : M Heap A) : grows m -> keeps h0 m.
Proof. intros Hm h o h' Hp H. etrans; [exact Hp | exact (Hm _ _ _ H)]. Qed.

Lemma keeps_bind {A B : Type} (h0 : Heap) (m : M Heap A) (f : A -> M Heap B) :
  keeps h0 m -> (forall a, keeps h0 (f a)) -> keeps h0 (m ≫= f).
Proof.
  intros Hm Hf h o h' Hp H.
  apply bind_cases in H as [(e & H & _) | (a & h1 & H1 & H2)].
  - exact (Hm _ _ _ Hp H).
  - exact (Hf _ _ _ _ (Hm _ _ _ Hp H1) H2).
Qed.

Lemma keeps_set_amount (h0 : Heap) (r : ref) (a : Qc) :
  (length h0 <= r)%nat -> keeps h0 (set_amount r a).
Proof.
  intros Hr h o h' [k ->]. unfold set_amount.
  destruct ((h0 ++ k) !! r) as [p|]; intros [= _ <-].
  - rewrite insert_app_r_alt by exact Hr. now apply prefix_app_r.
  - now apply prefix_app_r.
Qed.

Lemma keeps_subtract_amount (h0 : Heap) (r : ref) (a : Qc) :
  (length h0 <= r)%nat -> keeps h0 (subtract_amount r a).
Proof.
  intros Hr. unfold subtract_amount.
  apply keeps_bind; [apply keeps_grows, grows_load|]. intros s.
  now apply keeps_set_amount.
Qed.

Lemma keeps_split (h0 : Heap) (r : ref) (s : Qc) :
  (length h0 <= r)%nat -> keeps h0 (split r s).
Proof.
  intros Hr. unfold split.
  apply keeps_bind; [apply keeps_grows, grows_load|]. intros p.
  destruct (Qcleb s 0%Qc); [|destruct (Qcleb (amount p) s)].
  - apply keeps_grows, grows_bind; [apply grows_new_Paint|].
    intros q. apply grows_ret.
  - apply keeps_grows, grows_bind; [apply grows_new_Paint|].
    intros q. apply grows_ret.
  - apply keeps_bind; [apply keeps_grows, grows_new_Paint|]. intros q.
    apply keeps_bind; [now apply keeps_subtract_amount|]. intros [].
    apply keeps_bind; [apply keeps_grows, grows_load|]. intros p'.
    apply keeps_bind; [apply keeps_grows, grows_new_Paint|]. intros rest.
    apply keeps_grows, grows_ret.
Qed.

Lemma mix_with_ret (r1 r2 m : ref) (h h' : Heap) :
  mix_with r1 r2 h = (Ret m, h') -> m = length h.
Proof.
  unfold mix_with. intros H.
  apply bind_inv in H as (s & h1 & H1 & H). apply load_inv in H1 as [_ ->].
  apply bind_inv in H as (o & h2 & H2 & H). apply load_inv in H2 as [_ ->].
  apply bind_inv in H as (c & h3 & H3 & H).
  unfold lift in H3. injection H3 as _ <-.
  unfold new_Paint in H. now injection H as <- _.
Qed.

Lemma copies_are_new (bs rs : list ref) (h h' : Heap) :
  list_comp (fun paint => load paint ≫= fun p => new_Paint (color p) (amount p))
    bs h = (Ret rs, h') ->
  Forall (fun r => (length h <= r)%nat) rs.
Proof.
  revert rs h h'. induction bs as [|b bs IH]; intros rs h h' H; simpl in H.
  - injection H as <- _. constructor.
  - apply bind_inv in H as (r & h1 & H1 & H).
    apply bind_inv in H as (rs' & h2 & H2 & H).
    injection H as <- _.
    pose proof (grows_copy b _ _ _ H1) as Hp. apply prefix_length in Hp.
    apply bind_inv in H1 as (p & h0 & Hl & Hn). apply load_inv in Hl as [_ ->].
    unfold new_Paint in Hn. injection Hn as <- _.
    constructor; [lia|].
    eapply Forall_impl; [|exact (IH _ _ _ H2)]. simpl. intros r Hr. lia.
Qed.

Lemma beakers_getitem_inv (i : Z) (w w' : World) (r : ref) :
  beakers_getitem i w = (Ret r, w') ->
  exists k, py_index (num_beakers w) i = Ret k ∧ beakers w !! k = Some r ∧ w' = w.
Proof.
  intros H. pose proof (read_only_beakers_getitem _ _ _ _ H) as ->.
  unfold beakers_getitem, gets, lift, mbind, M_bind in H. simpl in H.
  unfold num_beakers.
  destruct (py_index (length (beakers w)) i) as [k|e]; [|discriminate].
  destruct (beakers w !! k) as [r'|] eqn:Hk; [|discriminate].
  injection H as ->. eauto.
Qed.

Lemma beakers_setitem_any (i : Z) (r : ref) (w w' : World) (o : outcome unit) :
  beakers_setitem i r w = (o, w') ->
  heap w' = heap w ∧
  (beakers w' = beakers w ∨ exists k, beakers w' = <[k := r]> (beakers w)).
Proof.
  unfold beakers_setitem, gets, lift, modify, mbind, M_bind. simpl.
  destruct (py_index (length (beakers w)) i) as [k|e]; intros [= _ <-]; simpl;
    eauto.
Qed.

Lemma untouched_set_heap (h0 h : Heap) (w : World) :
  untouched h0 w -> h0 `prefix_of` h -> untouched h0 (set_heap h w).
Proof. intros [_ Hb] Hp. split; [exact Hp | exact Hb]. Qed.

(** A step leaves the objects that are no beakers as they are. *)
Lemma step_untouched (h0 : Heap) (a : Action) (w w' : World)
    (o : outcome (np.ndarray * xreal * bool * bool)) :
  untouched h0 w -> step a w = (o, w') -> untouched h0 w'.
Proof.
  destruct a as [[fi ti] k]. intros U H. unfold step in H.
  apply bind_cases in H as [(e & H & _) | (r_i & w1 & H1 & H)].
  { apply read_only_beakers_getitem in H. now subst. }
  apply beakers_getitem_inv in H1 as (i & _ & Hri & ->).
  apply bind_cases in H as [(e & H & _) | (r_j & w2 & H2 & H)].
  { apply read_only_beakers_getitem in H. now subst. }
  apply beakers_getitem_inv in H2 as (j & _ & Hrj & ->).
  assert (Hi0 : (length h0 <= r_i)%nat)
    by exact (Forall_lookup_1 _ _ _ _ (proj2 U) Hri).
  apply bind_cases in H as [(e & H & _) | (p_i & w3 & H3 & H)].
  { apply (read_only_on_heap _ (read_only_load r_i)) in H. now subst. }
  apply (read_only_on_heap _ (read_only_load r_i)) in H3. subst w3.
  assert (Hsplit : forall o4 w4,
             on_heap (split r_i (Qc_of_Z k / Qc_of_Z 100 * amount p_i)%Qc) w
               = (o4, w4) -> untouched h0 w4).
  { intros o4 w4 H4. apply on_heap_inv in H4 as (h1 & H4 & ->).
    apply untouched_set_heap; [exact U|].
    exact (keeps_split h0 r_i _ Hi0 _ _ _ (proj1 U) H4). }
  apply bind_cases in H as [(e & H & _) | ([portion rest] & w4 & H4 & H)].
  { exact (Hsplit _ _ H). }
  apply Hsplit in H4. clear Hsplit.
  assert (Hmix : forall o5 w5,
             on_heap (mix_with r_j portion) w4 = (o5, w5) ->
             untouched h0 w5 ∧
             (forall m, o5 = Ret m -> (length h0 <= m)%nat)).
  { intros o5 w5 H5. apply on_heap_inv in H5 as (h2 & H5 & ->).
    pose proof (grows_mix_with _ _ _ _ _ H5) as Hp. split.
    - apply untouched_set_heap; [exact H4|]. etrans; [exact (proj1 H4) | exact Hp].
    - intros m ->. apply mix_with_ret in H5 as ->.
      exact (prefix_length _ _ (proj1 H4)). }
  apply bind_cases in H as [(e & H & _) | (mixed & w5 & H5 & H)].
  { exact (proj1 (Hmix _ _ H)). }
  apply Hmix in H5 as [U5 Hnew]. specialize (Hnew mixed eq_refl). clear Hmix.
  assert (Hset : forall o6 w6,
             beakers_setitem ti mixed w5 = (o6, w6) -> untouched h0 w6).
  { intros o6 w6 H6. apply beakers_setitem_any in H6 as [Hh Hb].
    destruct U5 as [Up Ub]. split; [now rewrite Hh|].
    destruct Hb as [->|[n ->]]; [exact Ub|]. now apply Forall_insert. }
  apply bind_cases in H as [(e & H & _) | ([] & w6 & H6 & H)].
  { exact (Hset _ _ H). }
  apply Hset in H6. clear Hset.
  apply bind_cases in H as [(e & H & _) | ([] & w7 & H7 & H)].
  { discriminate. }
  unfold modify in H7. injection H7 as <-.
  apply bind_cases in H as [(e & H & _) | (sc & w8 & H8 & H)].
  { discriminate. }
  unfold gets in H8. injection H8 as _ <-.
  apply bind_cases in H as [(e & H & _) | (ms & w9 & H9 & H)].
  { discriminate. }
  unfold gets in H9. injection H9 as _ <-.
  assert (U7 : untouched h0 (set_step_count (step_count w6 + 1) w6))
    by exact H6.
  apply bind_cases in H as [(e & H & _) | (rew & w10 & H10 & H)].
  { apply read_only_calculate_reward in H. now subst. }
  apply read_only_calculate_reward in H10. subst w10.
  apply bind_cases in H as [(e & H & _) | (obs & w11 & H11 & H)].
  { apply read_only_get_observation in H. now subst. }
  apply read_only_get_observation in H11. subst w11.
  injection H as _ <-. exact U7.
Qed.

(** A [reset] in the course of an episode, whatever it returns. *)
Lemma reset_untouched (h0 : Heap) (w w' : World) (o : outcome np.ndarray) :
  untouched h0 w -> reset w = (o, w') -> untouched h0 w'.
Proof.
  intros U H. unfold reset in H.
  apply bind_cases in H as [(e & H & _) | (bs & w1 & H1 & H)].
  { discriminate. }
  unfold gets in H1. injection H1 as <- <-.
  assert (Hcopy : forall o2 w2,
             on_heap (list_comp (fun paint =>
                        load paint ≫= fun p => new_Paint (color p) (amount p))
                        (beakers w)) w = (o2, w2) ->
             untouched h0 w2 ∧
             (forall rs, o2 = Ret rs -> Forall (fun r => (length h0 <= r)%nat) rs)).
  { intros o2 w2 H2. apply on_heap_inv in H2 as (h1 & H2 & ->). split.
    - apply untouched_set_heap; [exact U|].
      etrans; [exact (proj1 U)|].
      exact (grows_list_comp _ _ grows_copy _ _ _ H2).
    - intros rs ->. apply copies_are_new in H2.
      eapply Forall_impl; [|exact H2]. simpl. intros r Hr.
      pose proof (prefix_length _ _ (proj1 U)). lia. }
  apply bind_cases in H as [(e & H & _) | (copies & w2 & H2 & H)].
  { exact (proj1 (Hcopy _ _ H)). }
  apply Hcopy in H2 as [U2 Hnew]. specialize (Hnew copies eq_refl). clear Hcopy.
  apply bind_cases in H as [(e & H & _) | ([] & w3 & H3 & H)].
  { discriminate. }
  unfold modify in H3. injection H3 as <-.
  apply bind_cases in H as [(e & H & _) | ([] & w4 & H4 & H)].
  { discriminate. }
  unfold modify in H4. injection H4 as <-.
  apply read_only_get_observation in H. subst w'.
  split; [exact (proj1 U2) | exact Hnew].
Qed.

(** The first [reset]: the beakers become new objects. *)
Lemma reset_fresh (w w' : World) (o : outcome np.ndarray) :
  refs_valid w -> reset w = (o, w') -> untouched (heap w) w'.
Proof.
  intros Hv H. unfold reset in H.
  apply bind_cases in H as [(e & H & _) | (bs & w1 & H1 & H)].
  { discriminate. }
  unfold gets in H1. injection H1 as <- <-.
  rewrite (bind_run _ _ _ _ _ (on_heap_run _ _ _ _ (reset_copies_eval _ _ Hv)))
    in H.
  apply bind_cases in H as [(e & H & _) | ([] & w3 & H3 & H)].
  { discriminate. }
  unfold modify in H3. injection H3 as <-.
  apply bind_cases in H as [(e & H & _) | ([] & w4 & H4 & H)].
  { discriminate. }
  unfold modify in H4. injection H4 as <-.
  apply read_only_get_observation in H. subst w'.
  split; simpl.
  - now apply prefix_app_r.
  - apply Forall_seq. intros j Hj. lia.
Qed.

Lemma episode_untouched (w0 w : World) :
  refs_valid w0 -> episode_from w0 w -> untouched (heap w0) w.
Proof.
  intros Hv He. induction He as [o w H | w a o w' _ IH H | w o w' _ IH H].
  - exact (reset_fresh _ _ _ Hv H).
  - exact (step_untouched _ _ _ _ _ IH H).
  - exact (reset_untouched _ _ _ _ IH H).
Qed.




(** X17. Once [reset] has been called, the [Paint] objects that were
    given to the constructor are out of reach: whatever steps and resets
    follow, and whether they return or raise, every object that existed
    before the first [reset] is as it was, and no beaker is one of
    them. *)
Theorem X17_reset_isolates_the_paints_of_the_caller (w0 w : World) :
  refs_valid w0 -> episode_from w0 w ->
  (forall r p, heap w0 !! r = Some p -> heap w !! r = Some p) ∧
  (forall r, r ∈ beakers w -> heap w0 !! r = None).
Proof.
  intros Hv He. destruct (episode_untouched w0 w Hv He) as [Hp Hb]. split.
  - intros r p Hr. exact (prefix_lookup_Some _ _ _ _ Hr Hp).
  - intros r Hr. apply lookup_ge_None.
    apply list_elem_of_lookup in Hr as [n Hn].
    exact (Forall_lookup_1 _ _ _ _ Hb Hn).
Qed.

Lemma X17_reset_isolates_the_paints_of_the_caller_witness :
  refs_valid env ∧
  episode_from env (step (0, 1, 50) (reset env).2).2 ∧
  (forall r p, heap env !! r = Some p ->
               heap (step (0, 1, 50) (reset env).2).2 !! r = Some p) ∧
  (forall r, r ∈ beakers (step (0, 1, 50) (reset env).2).2 ->
             heap env !! r = None).
Proof.
  assert (Hv : refs_valid env) by exact (proj2 env_distinct).
  assert (He : episode_from env (step (0, 1, 50) (reset env).2).2).
  { eapply episode_step; [eapply episode_start|]; apply surjective_pairing. }
  refine (conj Hv (conj He _)).
  exact (X17_reset_isolates_the_paints_of_the_caller env _ Hv He).
Defined.

(** X18. [reset] removes the sharing of the beaker list: whatever the
    list holds, one [Paint] object twice for instance, after a reset that
    returns the beakers are objects made by that reset, each of them once
    in the list, and they hold the paints the beakers held. *)
Theorem X18_reset_copies_every_beaker (w w' : World) (obs : np.ndarray) :
  refs_valid w -> reset w = (Ret obs, w') ->
  NoDup (beakers w') ∧
  (forall r, r ∈ beakers w' -> (length (heap w) <= r < length (heap w'))%nat) ∧
  (forall r p, heap w !! r = Some p -> heap w' !! r = Some p) ∧
  contents w' = contents w.
Proof.
  intros Hv H.
  destruct (reset_inv w w' obs Hv H) as (_ & [Hnd Hv'] & Hc & _).
  destruct (reset_fresh w w' _ Hv H) as [Hp Hb].
  split_and!; auto.
  - intros r Hr. apply list_elem_of_lookup in Hr as [n Hn]. split.
    + exact (Forall_lookup_1 _ _ _ _ Hb Hn).
    + exact (Forall_lookup_1 _ _ _ _ Hv' Hn).
  - intros r p Hr. exact (prefix_lookup_Some _ _ _ _ Hr Hp).
Qed.

Lemma X18_reset_copies_every_beaker_witness :
  exists obs w',
    refs_valid one_paint_twice ∧ reset one_paint_twice = (Ret obs, w') ∧
    NoDup (beakers w') ∧
    (forall r, r ∈ beakers w' ->
       (length (heap one_paint_twice) <= r < length (heap w'))%nat) ∧
    (forall r p, heap one_paint_twice !! r = Some p -> heap w' !! r = Some p) ∧
    contents w' = contents one_paint_twice.
Proof.
  assert (Hv : refs_valid one_paint_twice) by (repeat constructor).
  destruct (reset_eval one_paint_twice Hv) as (w' & Hr & _).
  eexists _, w'. refine (conj Hv (conj Hr _)).
  exact (X18_reset_copies_every_beaker one_paint_twice w' _ Hv Hr).
Defined.

(** ** A beaker list emptied by the caller *)



(** ** The reward *)

Lemma euclidean_zero (c1 c2 : Color) : euclidean c1 c2 = 0%R <-> c1 = c2.
Proof.
  destruct c1 as [[r1 g1] b1], c2 as [[r2 g2] b2]. unfold euclidean. split.
  - pose proof (pow2_ge_0 (IZR r1 - IZR r2)) as Pr.
    pose proof (pow2_ge_0 (IZR g1 - IZR g2)) as Pg.
    pose proof (pow2_ge_0 (IZR b1 - IZR b2)) as Pb.
    intros H. apply sqrt_eq_0 in H; [|lra].
    assert (Hz : forall x : R, (x ^ 2 = 0 -> x = 0)%R).
    { intros x Hx. destruct (Req_dec x 0) as [E|E]; [exact E|].
      now apply (pow_nonzero x 2) in E. }
    assert (Hr : (IZR r1 - IZR r2 = 0)%R) by (apply Hz; lra).
    assert (Hg : (IZR g1 - IZR g2 = 0)%R) by (apply Hz; lra).
    assert (Hb : (IZR b1 - IZR b2 = 0)%R) by (apply Hz; lra).
    apply Rminus_diag_uniq, eq_IZR in Hr, Hg, Hb. now subst.
  - intros [= -> -> ->].
    replace ((IZR r2 - IZR r2) ^ 2 + (IZR g2 - IZR g2) ^ 2
             + (IZR b2 - IZR b2) ^ 2)%R with 0%R by ring.
    apply sqrt_0.
Qed.

Lemma distance_zero (target p : Paint) :
  distance target p = 0%R <->
  color p = color target ∧ amount p = amount target.
Proof.
  unfold distance. split.
  - intros H.
    assert (He : (0 <= euclidean (color p) (color target))%R).
    { unfold euclidean.
      destruct (color p) as [[r1 g1] b1], (color target) as [[r2 g2] b2].
      apply sqrt_pos. }
    pose proof (Rabs_pos (Q2R (amount p) - Q2R (amount target))) as Ha.
    assert (H1 : euclidean (color p) (color target) = 0%R) by lra.
    assert (H2 : Rabs (Q2R (amount p) - Q2R (amount target)) = 0%R) by lra.
    split; [now apply euclidean_zero|].
    apply Qc_is_canon, eqR_Qeq.
    destruct (Req_dec (Q2R (amount p) - Q2R (amount target)) 0) as [E|E];
      [lra|]. now apply Rabs_no_R0 in E.
  - intros [Hc Ha]. rewrite Hc, Ha.
    rewrite (proj2 (euclidean_zero _ _) eq_refl).
    rewrite Rminus_diag, Rabs_R0. ring.
Qed.

(** X20. The reward is never positive, and it is 0 exactly when some
    beaker holds the target: its color and its amount (the reward being a
    real number here). *)
Theorem X20_reward_is_zero_on_the_target_only (w : World) :
  refs_valid w ->
  exists reward,
    _calculate_reward w = (Ret reward, w) ∧
    xle reward (Finite 0) ∧
    (reward = Finite 0 <->
     exists p, p ∈ contents w ∧ color p = color (target_paint w) ∧
               amount p = amount (target_paint w)).
Proof.
  intros Hv. rewrite (calculate_reward_eval w Hv). eexists. split; [reflexivity|].
  assert (Hinf : PosInf ≠ NegInf) by discriminate.
  destruct (best_of_spec (target_paint w) (contents w) PosInf Hinf)
    as (Hres & Hmin & _).
  destruct Hres as [Hres | (p0 & Hp0 & Hres)].
  - rewrite Hres. simpl. split; [exact I|]. split; [discriminate|].
    intros (p & Hp & _). specialize (Hmin p Hp). rewrite Hres in Hmin.
    contradiction.
  - rewrite Hres in *. simpl.
    pose proof (distance_nonneg (target_paint w) p0) as Hd0.
    split; [lra|]. split.
    + intros [= H]. exists p0. split; [exact Hp0|].
      apply distance_zero. lra.
    + intros (p & Hp & Hc & Ha). specialize (Hmin p Hp). simpl in Hmin.
      rewrite (proj2 (distance_zero (target_paint w) p) (conj Hc Ha)) in Hmin.
      f_equal. lra.
Qed.

Lemma X20_reward_is_zero_on_the_target_only_witness :
  refs_valid env ∧
  exists reward,
    _calculate_reward env = (Ret reward, env) ∧
    xle reward (Finite 0) ∧
    (reward = Finite 0 <->
     exists p, p ∈ contents env ∧ color p = color (target_paint env) ∧
               amount p = amount (target_paint env)).
Proof.
  assert (Hv : refs_valid env) by exact (proj2 env_distinct).
  split; [exact Hv|].
  exact (X20_reward_is_zero_on_the_target_only env Hv).
Defined.

(** X21. [_get_observation] and [_calculate_reward] only read: whatever
    they return or raise, the environment and every [Paint] are as they
    were; and what a step returns as observation and reward is what the
    two give, again, in the state the step leaves. *)
Theorem X21_observation_and_reward_only_read (w : World) :
  (_get_observation w).2 = w ∧ (_calculate_reward w).2 = w ∧
  (forall a obs reward done truncated w',
     step a w = (Ret (obs, reward, done, truncated), w') ->
     _get_observation w' = (Ret obs, w') ∧
     _calculate_reward w' = (Ret reward, w')).
Proof.
  split_and!.
  - destruct (_get_observation w) as [o w1] eqn:H.
    exact (read_only_get_observation _ _ _ H).
  - destruct (_calculate_reward w) as [o w1] eqn:H.
    exact (read_only_calculate_reward _ _ _ H).
  - intros a obs reward done truncated w' H.
    apply step_frame in H. tauto.
Qed.

Lemma X21_observation_and_reward_only_read_witness :
  exists obs reward done truncated w',
    step (0, 1, 50) env = (Ret (obs, reward, done, truncated), w') ∧
    _get_observation w' = (Ret obs, w') ∧
    _calculate_reward w' = (Ret reward, w').
Proof.
  destruct env_first_step as (w' & Hs & _).
  eexists _, _, _, _, w'. split; [exact Hs|].
  exact (proj2 (proj2 (X21_observation_and_reward_only_read env)) _ _ _ _ _ _ Hs).
Defined.

(** ** The data model along an episode *)






(** ** A beaker list that holds one object twice *)

(** The run of [step] from the two objects it reads to what it returns,
    on any world whose beakers name objects. *)
Lemma step_run (w : World) (fi ti k : Z) (i j : nat) (r_i r_j : ref)
    (p_i : Paint) (o : option ref) (h1 h2 : Heap) (m : ref) :
  refs_valid w ->
  py_index (num_beakers w) fi = Ret i -> py_index (num_beakers w) ti = Ret j ->
  beakers w !! i = Some r_i -> beakers w !! j = Some r_j ->
  heap w !! r_i = Some p_i ->
  split r_i (Qc_of_Z k / Qc_of_Z 100 * amount p_i)%Qc (heap w)
    = (Ret (length (heap w), o), h1) ->
  mix_with r_j (length (heap w)) h1 = (Ret m, h2) ->
  exists obs reward done,
    step (fi, ti, k) w =
      (Ret (obs, reward, done, false),
       mkWorld h2 (<[j := m]> (beakers w)) (target_paint w) (max_steps w)
         (step_count w + 1)).
Proof.
  intros Hv Hfi Hti Hri Hrj Hpi Hs Hm.
  set (w' := mkWorld h2 (<[j := m]> (beakers w)) (target_paint w) (max_steps w)
               (step_count w + 1)).
  assert (Hv' : refs_valid w').
  { destruct (split_spec _ _ _ (Qc_of_Z k / Qc_of_Z 100 * amount p_i)%Qc Hpi)
      as (o' & h1' & Hs' & Hlen & _).
    rewrite Hs in Hs'. injection Hs' as <- <-.
    pose proof (prefix_length _ _ (grows_mix_with _ _ _ _ _ Hm)) as Hg.
    pose proof (mix_with_ret _ _ _ _ _ Hm) as ->.
    assert (Hlt : (length h1 < length h2)%nat).
    { unfold mix_with in Hm.
      apply bind_inv in Hm as (s & h3 & L1 & Hm). apply load_inv in L1 as [_ ->].
      apply bind_inv in Hm as (q & h4 & L2 & Hm). apply load_inv in L2 as [_ ->].
      apply bind_inv in Hm as (c & h5 & L3 & Hm).
      unfold lift in L3. injection L3 as _ <-.
      unfold new_Paint in Hm. injection Hm as <-. rewrite length_app. simpl. lia. }
    unfold refs_valid, w'. simpl. apply Forall_insert; [|exact Hlt].
    eapply Forall_impl; [|exact Hv]. simpl. intros r Hr. lia. }
  unfold step.
  rewrite (bind_run _ _ _ _ _ (beakers_getitem_eval _ _ _ _ Hfi Hri)).
  rewrite (bind_run _ _ _ _ _ (beakers_getitem_eval _ _ _ _ Hti Hrj)).
  rewrite (bind_run _ _ _ _ _ (on_heap_run _ _ _ _ (load_run _ _ _ Hpi))).
  rewrite set_heap_same.
  rewrite (bind_run _ _ _ _ _ (on_heap_run _ _ _ _ Hs)).
  rewrite (bind_run _ _ _ _ _ (on_heap_run _ (set_heap h1 w) _ _ Hm)).
  rewrite (bind_run _ _ _ _ _
             (beakers_setitem_eval (set_heap h2 (set_heap h1 w)) _ _ _ Hti)).
  unfold modify, gets. unfold mbind at 1 2 3, M_bind at 1 2 3. simpl.
  change (mkWorld h2 (<[j := m]> (beakers w)) (target_paint w) (max_steps w)
            (step_count w + 1)) with w'.
  rewrite (bind_run _ _ _ _ _ (calculate_reward_eval w' Hv')).
  pose proof (get_observation_eval w' Hv') as Hobs.
  assert (Hne : exists b bs', beakers w' = b :: bs').
  { simpl. destruct (<[j := m]> (beakers w)) as [|b bs'] eqn:E; [|eauto].
    apply (f_equal length) in E. rewrite length_insert in E. simpl in E.
    apply lookup_lt_Some in Hrj. lia. }
  destruct Hne as (b & bs' & Hb). rewrite Hb in Hobs.
  rewrite (bind_run _ _ _ _ _ Hobs). eauto.
Qed.

(** * The binary64 model *)

(** ** The heap and the environment *)

(** The facts of the heap, of the comprehensions and of the beaker list
    proved above do not depend on the arithmetic; they are proved again
    for the objects of [B64], whose names this section uses. *)
Section binary64.
Import B64.

Lemma b64_on_heap_run {A : Type} (m : M (list Paint) A) (w : World) r h :
  m (heap w) = (r, h) -> on_heap m w = (r, set_heap h w).
Proof. intros H. unfold on_heap. now rewrite H. Qed.


Lemma b64_set_heap_same (w : World) : set_heap (heap w) w = w.
Proof. now destruct w. Qed.

Lemma b64_load_run (h : (list Paint)) (r : ref) (p : Paint) :
  h !! r = Some p -> load r h = (Ret p, h).
Proof. intros H. unfold load. now rewrite H. Qed.

Lemma b64_load_inv (h h' : (list Paint)) (r : ref) (p : Paint) :
  load r h = (Ret p, h') -> h !! r = Some p ∧ h' = h.
Proof.
  unfold load. destruct (h !! r) as [q|]; intros H; inversion H; auto.
Qed.






Lemma b64_list_comp_load_eval {B : Type} (k : Paint -> M (list Paint) B) (g : Paint -> B)
    (bs : list ref) (h : (list Paint)) :
  (forall p h0, k p h0 = (Ret (g p), h0)) ->
  Forall (fun r => (r < length h)%nat) bs ->
  list_comp (fun b => load b ≫= k) bs h = (Ret ((fun r => g (h !!! r)) <$> bs), h).
Proof.
  intros Hk. induction 1 as [|r bs Hr _ IH]; simpl; [reflexivity|].
  destruct (lookup_lt_is_Some_2 h r Hr) as [p Hp].
  unfold mbind at 1, M_bind at 1.
  rewrite (bind_run _ _ _ _ _ (b64_load_run _ _ _ Hp)), Hk.
  rewrite (bind_run _ _ _ _ _ IH).
  now rewrite (list_lookup_total_correct _ _ _ Hp).
Qed.

Lemma b64_list_comp_load_inv {B : Type} (k : Paint -> M (list Paint) B)
    (bs : list ref) (h h' : (list Paint)) (l : list B) :
  list_comp (fun b => load b ≫= k) bs h = (Ret l, h') ->
  (forall p, read_only (k p)) ->
  Forall (fun r => (r < length h)%nat) bs.
Proof.
  intros H Hk. revert l h' H. induction bs as [|r bs IH]; intros l h' H.
  - constructor.
  - simpl in H. apply bind_inv in H as (y & h1 & Hy & H).
    apply bind_inv in H as (ys & h2 & Hys & _).
    apply bind_inv in Hy as (p & h0 & Hp & Hkp).
    apply b64_load_inv in Hp as [Hp ->]. apply Hk in Hkp. subst h1.
    constructor; [now apply lookup_lt_Some in Hp | eauto].
Qed.

Lemma b64_beakers_getitem_eval (w : World) (i : Z) (k : nat) (r : ref) :
  py_index (num_beakers w) i = Ret k ->
  beakers w !! k = Some r ->
  beakers_getitem i w = (Ret r, w).
Proof.
  intros Hi Hr. unfold beakers_getitem, gets, lift. unfold num_beakers in Hi.
  unfold mbind, M_bind. rewrite Hi. now rewrite Hr.
Qed.

Lemma b64_beakers_getitem_raise (w : World) (i : Z) (e : exn) :
  py_index (num_beakers w) i = Raise e ->
  beakers_getitem i w = (Raise e, w).
Proof.
  intros Hi. unfold beakers_getitem, gets, lift. unfold num_beakers in Hi.
  unfold mbind, M_bind. now rewrite Hi.
Qed.

Lemma b64_beakers_setitem_eval (w : World) (i : Z) (k : nat) (r : ref) :
  py_index (num_beakers w) i = Ret k ->
  beakers_setitem i r w = (Ret tt, set_beakers (<[k := r]> (beakers w)) w).
Proof.
  intros Hi. unfold beakers_setitem, gets, lift, modify. unfold num_beakers in Hi.
  unfold mbind, M_bind. now rewrite Hi.
Qed.

Lemma b64_read_only_beakers_getitem (i : Z) : read_only (beakers_getitem i).
Proof.
  unfold beakers_getitem.
  apply read_only_bind; [apply read_only_gets|]. intros bs.
  apply read_only_bind; [apply read_only_lift|]. intros k.
  destruct (bs !! k); [apply read_only_ret | apply read_only_lift].
Qed.



Section b64_transfer.
Variables (h h1 : (list Paint)) (bs : list ref) (i j : nat) (r_i : ref) (p_i' : Paint).
Hypothesis Hnodup : NoDup bs.
Hypothesis Hvalid : Forall (fun r => (r < length h)%nat) bs.
Hypothesis Hi : bs !! i = Some r_i.
Hypothesis Hj : (j < length bs)%nat.
Hypothesis Hgrow : (length h <= length h1)%nat.
Hypothesis Hfrom : h1 !! r_i = Some p_i'.
Hypothesis Hothers :
  forall r', (r' < length h)%nat -> r' ≠ r_i -> h1 !! r' = h !! r'.

Local Abbreviation ps := ((fun r => h !!! r) <$> bs).

Lemma b64_valid_lookup (l : nat) (r : ref) :
  bs !! l = Some r -> (r < length h)%nat.
Proof.
  intros Hl. exact (Forall_lookup_1 _ _ _ _ Hvalid Hl).
Qed.

(** The paint the destination holds when the mix is computed: the
    receiver of the split when both indices name one beaker. *)
Lemma b64_to_beaker_after_split (r_j : ref) :
  bs !! j = Some r_j ->
  h1 !! r_j = Some (<[i := p_i']> ps !!! j).
Proof.
  intros Hrj. pose proof (lookup_lt_Some _ _ _ Hi) as Hilt.
  destruct (decide (j = i)) as [->|Hne].
  - assert (r_j = r_i) as -> by congruence.
    rewrite list_lookup_total_insert_eq by (now rewrite length_fmap).
    exact Hfrom.
  - assert (r_j ≠ r_i) as Hr.
    { intros ->. apply Hne. eapply NoDup_lookup; eauto. }
    rewrite list_lookup_total_insert_ne by congruence.
    rewrite (Hothers _ (b64_valid_lookup _ _ Hrj) Hr).
    rewrite (list_lookup_total_correct ps j (h !!! r_j))
      by (now rewrite list_lookup_fmap, Hrj).
    apply list_lookup_lookup_total_lt, (b64_valid_lookup _ _ Hrj).
Qed.

(** The paints of the beakers once the mix, a new object, is stored at
    index [j]. *)
Lemma b64_contents_after_transfer (mixed : Paint) :
  (fun r => (h1 ++ [mixed]) !!! r) <$> (<[j := length h1]> bs)
  = <[j := mixed]> (<[i := p_i']> ps).
Proof.
  pose proof (lookup_lt_Some _ _ _ Hi) as Hilt.
  apply list_eq. intros l. rewrite list_lookup_fmap.
  destruct (decide (l = j)) as [->|Hlj].
  - rewrite list_lookup_insert_eq by exact Hj.
    rewrite list_lookup_insert_eq
      by (now rewrite length_insert, length_fmap).
    simpl. f_equal. apply list_lookup_total_correct.
    now rewrite lookup_app_r, Nat.sub_diag by lia.
  - rewrite !list_lookup_insert_ne by congruence.
    destruct (bs !! l) as [r|] eqn:Hl; simpl.
    + pose proof (b64_valid_lookup _ _ Hl) as Hrlt.
      destruct (decide (l = i)) as [->|Hli].
      * assert (r = r_i) as -> by congruence.
        rewrite list_lookup_insert_eq by (now rewrite length_fmap).
        f_equal. apply list_lookup_total_correct.
        rewrite lookup_app_l by (apply lookup_lt_Some in Hfrom; lia).
        exact Hfrom.
      * assert (r ≠ r_i) as Hr.
        { intros ->. apply Hli. eapply NoDup_lookup; eauto. }
        rewrite list_lookup_insert_ne by congruence.
        rewrite list_lookup_fmap, Hl. simpl. f_equal.
        apply list_lookup_total_correct.
        rewrite lookup_app_l by lia.
        rewrite (Hothers _ Hrlt Hr).
        apply list_lookup_lookup_total_lt, Hrlt.
    + symmetry. apply lookup_ge_None.
      rewrite length_insert, length_fmap.
      now apply lookup_ge_None.
Qed.

(** The new beaker list names each object once, inside the new heap. *)
Lemma b64_distinct_after_transfer (mixed : Paint) :
  NoDup (<[j := length h1]> bs) ∧
  Forall (fun r => (r < length (h1 ++ [mixed]))%nat) (<[j := length h1]> bs).
Proof.
  split.
  - apply NoDup_alt. intros a b x Ha Hb.
    destruct (decide (a = j)) as [->|Haj], (decide (b = j)) as [->|Hbj];
      try reflexivity.
    + rewrite list_lookup_insert_eq in Ha by exact Hj.
      rewrite list_lookup_insert_ne in Hb by congruence.
      apply b64_valid_lookup in Hb. inversion Ha; subst. lia.
    + rewrite list_lookup_insert_eq in Hb by exact Hj.
      rewrite list_lookup_insert_ne in Ha by congruence.
      apply b64_valid_lookup in Ha. inversion Hb; subst. lia.
    + rewrite list_lookup_insert_ne in Ha, Hb by congruence.
      eapply NoDup_lookup; eauto.
  - apply Forall_lookup_2. intros l r Hl. rewrite length_app. simpl.
    destruct (decide (l = j)) as [->|Hlj].
    + rewrite list_lookup_insert_eq in Hl by exact Hj. inversion Hl. lia.
    + rewrite list_lookup_insert_ne in Hl by congruence.
      apply b64_valid_lookup in Hl. lia.
Qed.
End b64_transfer.

Lemma b64_contents_lookup_total (w : World) (i : nat) (r : ref) (p : Paint) :
  beakers w !! i = Some r -> heap w !! r = Some p -> contents w !!! i = p.
Proof.
  intros Hr Hp. apply list_lookup_total_correct.
  unfold contents. rewrite list_lookup_fmap, Hr. simpl.
  now rewrite (list_lookup_total_correct _ _ _ Hp).
Qed.





Lemma b64_mix_with_ret (r1 r2 m : ref) (h h' : (list Paint)) :
  mix_with r1 r2 h = (Ret m, h') -> m = length h.
Proof.
  unfold mix_with. intros H.
  apply bind_inv in H as (s & h1 & H1 & H). apply b64_load_inv in H1 as [_ ->].
  apply bind_inv in H as (o & h2 & H2 & H). apply b64_load_inv in H2 as [_ ->].
  apply bind_inv in H as (c & h3 & H3 & H).
  unfold lift in H3. injection H3 as _ <-.
  unfold new_Paint in H. now injection H as <- _.
Qed.

Lemma b64_beakers_getitem_inv (i : Z) (w w' : World) (r : ref) :
  beakers_getitem i w = (Ret r, w') ->
  exists k, py_index (num_beakers w) i = Ret k ∧ beakers w !! k = Some r ∧ w' = w.
Proof.
  intros H. pose proof (b64_read_only_beakers_getitem _ _ _ _ H) as ->.
  unfold beakers_getitem, gets, lift, mbind, M_bind in H. simpl in H.
  unfold num_beakers.
  destruct (py_index (length (beakers w)) i) as [k|e]; [|discriminate].
  destruct (beakers w !! k) as [r'|] eqn:Hk; [|discriminate].
  injection H as ->. eauto.
Qed.


(** [split] returns a new object for the portion, updates the receiver in
    place, and leaves the other objects alone. *)
Lemma b64_split_spec (h : list Paint) (r : ref) (p : Paint) (s : float) :
  h !! r = Some p ->
  exists o h',
    split r s h = (Ret (length h, o), h') ∧
    (length h < length h')%nat ∧
    h' !! r = Some (split_values p s).2 ∧
    h' !! length h = Some (split_values p s).1 ∧
    (forall r', (r' < length h)%nat -> r' ≠ r -> h' !! r' = h !! r').
Proof.
  intros Hr. pose proof (lookup_lt_Some _ _ _ Hr) as Hlt.
  unfold split, split_values.
  rewrite (bind_run _ _ _ _ _ (b64_load_run _ _ _ Hr)).
  destruct (s <=? 0)%float eqn:Hs; [|destruct (amount p <=? s)%float eqn:Hfull].
  - eexists _, _. split; [reflexivity|]. simpl.
    rewrite length_app. simpl. repeat split.
    + lia.
    + now rewrite lookup_app_l.
    + now rewrite lookup_app_r, Nat.sub_diag by lia.
    + intros r' Hr' _. now rewrite lookup_app_l.
  - eexists _, _. split; [reflexivity|]. simpl.
    rewrite length_app. simpl. repeat split.
    + lia.
    + now rewrite lookup_app_l.
    + now rewrite lookup_app_r, Nat.sub_diag by lia.
    + intros r' Hr' _. now rewrite lookup_app_l.
  - unfold subtract_amount, new_Paint, set_amount, load, mbind, M_bind, mret, M_ret.
    simpl.
    assert (Hr1 : (h ++ [mkPaint (color p) s]) !! r = Some p)
      by now rewrite lookup_app_l.
    rewrite Hr1. simpl. rewrite Hr1. simpl.
    rewrite list_lookup_insert_eq by (rewrite length_app; simpl; lia).
    simpl. eexists _, _. split; [reflexivity|].
    rewrite !length_app, length_insert, length_app. simpl. repeat split.
    + lia.
    + rewrite lookup_app_l by (rewrite length_insert, length_app; simpl; lia).
      apply list_lookup_insert_eq. rewrite length_app. simpl. lia.
    + rewrite lookup_app_l by (rewrite length_insert, length_app; simpl; lia).
      rewrite list_lookup_insert_ne by lia.
      now rewrite lookup_app_r, Nat.sub_diag by lia.
    + intros r' Hr' Hne.
      rewrite lookup_app_l by (rewrite length_insert, length_app; simpl; lia).
      rewrite list_lookup_insert_ne by congruence.
      now rewrite lookup_app_l.
Qed.

(** [mix_with] reads both paints and returns a new object. *)
Lemma b64_mix_with_eval (h : list Paint) (r1 r2 : ref) (p1 p2 : Paint) :
  h !! r1 = Some p1 -> h !! r2 = Some p2 ->
  mix_with r1 r2 h =
    match mixed p1 p2 with
    | Ret p => (Ret (length h), h ++ [p])
    | Raise e => (Raise e, h)
    end.
Proof.
  intros H1 H2. unfold mix_with, mixed.
  rewrite (bind_run _ _ _ _ _ (b64_load_run _ _ _ H1)).
  rewrite (bind_run _ _ _ _ _ (b64_load_run _ _ _ H2)).
  unfold lift, mbind, M_bind. now destruct (SubtractiveModel.mix_colors p1 p2).
Qed.

Lemma b64_get_observation_eval (w : World) :
  refs_valid w ->
  _get_observation w =
    match beakers w with
    | [] => (Raise AxisError, w)
    | _ :: _ => (Ret (np.Arr2 (row_of <$> contents w)), w)
    end.
Proof.
  intros Hv. unfold _get_observation, gets.
  unfold mbind at 1, M_bind at 1.
  set (g1 := fun p : Paint =>
               let '(r, g, b) := color p in
               [np.float64 r; np.float64 g; np.float64 b]).
  set (g2 := fun p : Paint => [amount p]).
  assert (Hg1 : forall (p : Paint) (h0 : list Paint),
             (let '(r, g, b) := color p in
              (mret [np.float64 r; np.float64 g; np.float64 b]
                 : M (list Paint) (list float))) h0
             = (Ret (g1 p), h0)).
  { intros p h0. unfold g1. now destruct (color p) as [[cr cg] cb]. }
  rewrite (bind_run _ _ _ _ _
             (b64_on_heap_run _ _ _ _ (b64_list_comp_load_eval _ g1 _ _ Hg1 Hv))).
  rewrite b64_set_heap_same.
  rewrite (bind_run _ _ _ _ _
             (b64_on_heap_run _ _ _ _
                (b64_list_comp_load_eval _ g2 _ _ (fun _ _ => eq_refl) Hv))).
  rewrite b64_set_heap_same. unfold lift, contents.
  destruct (beakers w) as [|b bs]; [reflexivity|].
  simpl. rewrite !length_fmap, Nat.eqb_refl, zip_with_app_fmap, <- list_fmap_compose.
  assert (Hrow : forall p, g1 p ++ g2 p = row_of p).
  { intros p. unfold g1, g2, row_of. now destruct (color p) as [[cr cg] cb]. }
  do 3 f_equal. rewrite Hrow. f_equal.
  apply list_fmap_ext. intros i r _. simpl. apply Hrow.
Qed.

Lemma b64_reward_loop_eval target (bs : list ref) (best : float) (h : list Paint) :
  Forall (fun r => (r < length h)%nat) bs ->
  reward_loop target bs best h =
    (Ret (best_of target ((fun r => h !!! r) <$> bs) best), h).
Proof.
  intros Hv. revert best. induction Hv as [|r bs Hr _ IH]; intros best; simpl.
  - reflexivity.
  - destruct (lookup_lt_is_Some_2 h r Hr) as [p Hp].
    rewrite (bind_run _ _ _ _ _ (b64_load_run _ _ _ Hp)).
    rewrite IH. now rewrite (list_lookup_total_correct _ _ _ Hp).
Qed.

Lemma b64_calculate_reward_eval (w : World) :
  refs_valid w ->
  _calculate_reward w =
    (Ret (- best_of (target_paint w) (contents w) infinity)%float, w).
Proof.
  intros Hv. unfold _calculate_reward, gets.
  unfold mbind at 1 2, M_bind at 1 2.
  rewrite (bind_run _ _ _ _ _
             (b64_on_heap_run _ _ _ _ (b64_reward_loop_eval _ _ _ _ Hv))).
  now rewrite b64_set_heap_same.
Qed.


(** One step on distinct beakers, evaluated: the paints it leaves are
    those of the transfer on values. *)
Lemma b64_step_eval (w : World) (fi ti k : Z) (i j : nat) :
  distinct_beakers w ->
  py_index (num_beakers w) fi = Ret i ->
  py_index (num_beakers w) ti = Ret j ->
  match transfer_values (contents w) i j k with
  | Raise e => exists w1, step (fi, ti, k) w = (Raise e, w1)
  | Ret ps' =>
      exists w',
        step (fi, ti, k) w =
          (Ret (np.Arr2 (row_of <$> ps'),
                (- best_of (target_paint w) ps' infinity)%float,
                max_steps w <=? step_count w + 1, false), w') ∧
        distinct_beakers w' ∧ contents w' = ps' ∧
        step_count w' = step_count w + 1 ∧ max_steps w' = max_steps w ∧
        target_paint w' = target_paint w ∧ num_beakers w' = num_beakers w
  end.
Proof.
  intros [Hnd Hv] Hfi Hti.
  pose proof (py_index_lt _ _ _ Hfi) as Hi.
  pose proof (py_index_lt _ _ _ Hti) as Hj.
  unfold num_beakers in Hi, Hj.
  destruct (lookup_lt_is_Some_2 _ _ Hi) as [r_i Hri].
  destruct (lookup_lt_is_Some_2 _ _ Hj) as [r_j Hrj].
  pose proof (Forall_lookup_1 _ _ _ _ Hv Hri) as Hri_lt.
  destruct (lookup_lt_is_Some_2 _ _ Hri_lt) as [p_i Hpi].
  unfold step.
  rewrite (bind_run _ _ _ _ _ (b64_beakers_getitem_eval _ _ _ _ Hfi Hri)).
  rewrite (bind_run _ _ _ _ _ (b64_beakers_getitem_eval _ _ _ _ Hti Hrj)).
  unfold transfer_values.
  destruct (float_of_int k) as [ratio|e] eqn:Hk.
  2:{ eexists. apply bind_raise. reflexivity. }
  rewrite (bind_run (lift (Ret ratio)) _ w ratio w eq_refl).
  rewrite (bind_run _ _ _ _ _ (b64_on_heap_run _ _ _ _ (b64_load_run _ _ _ Hpi))).
  rewrite b64_set_heap_same.
  rewrite (b64_contents_lookup_total _ _ _ _ Hri Hpi).
  set (t := (ratio / 100 * amount p_i)%float).
  destruct (b64_split_spec (heap w) r_i p_i t Hpi)
    as (o & h1 & Hsplit & Hlen & Hfrom & Hportion & Hothers).
  rewrite (bind_run _ _ _ _ _ (b64_on_heap_run _ _ _ _ Hsplit)).
  destruct (split_values p_i t) as [portion p_i']. simpl in Hfrom, Hportion.
  assert (Hgrow : (length (heap w) <= length h1)%nat) by lia.
  pose proof (b64_to_beaker_after_split (heap w) h1 (beakers w) _ _ r_i p_i'
                Hnd Hv Hri Hj Hfrom Hothers r_j Hrj) as Hto.
  fold (contents w) in Hto.
  set (p_to := <[i := p_i']> (contents w) !!! j) in *.
  pose proof (b64_mix_with_eval h1 r_j (length (heap w)) p_to portion Hto Hportion)
    as Hmix.
  destruct (mixed p_to portion) as [q|e].
  - rewrite (bind_run _ _ _ _ _ (b64_on_heap_run _ (set_heap h1 w) _ _ Hmix)).
    rewrite (bind_run _ _ _ _ _
               (b64_beakers_setitem_eval (set_heap (h1 ++ [q]) (set_heap h1 w))
                  _ _ _ Hti)).
    unfold modify, gets. unfold mbind at 1 2 3, M_bind at 1 2 3. simpl.
    set (w' := mkWorld (h1 ++ [q]) (<[j := length h1]> (beakers w))
                 (target_paint w) (max_steps w) (step_count w + 1)).
    destruct (b64_distinct_after_transfer (heap w) h1 (beakers w) _ Hnd Hv Hj Hgrow q)
      as [Hnd' Hv'].
    assert (Hc : contents w' = <[j := q]> (<[i := p_i']> (contents w))).
    { apply (b64_contents_after_transfer (heap w) h1 (beakers w) _ _ r_i p_i'
               Hnd Hv Hri Hj Hgrow Hfrom Hothers q). }
    rewrite (bind_run _ _ _ _ _ (b64_calculate_reward_eval w' Hv')).
    pose proof (b64_get_observation_eval w' Hv') as Hobs.
    assert (Hne : exists b bs', beakers w' = b :: bs').
    { simpl. destruct (<[j := length h1]> (beakers w)) as [|b bs'] eqn:E;
        [|eauto].
      apply (f_equal length) in E. rewrite length_insert in E. simpl in E. lia. }
    destruct Hne as (b & bs' & Hb). rewrite Hb in Hobs.
    rewrite (bind_run _ _ _ _ _ Hobs). rewrite Hc.
    exists w'. repeat split; auto.
    unfold num_beakers. simpl. apply length_insert.
  - eexists. apply bind_raise. apply (b64_on_heap_run _ (set_heap h1 w)). exact Hmix.
Qed.

Lemma b64_step_inv (w w' : World) (fi ti k : Z) obs reward done truncated :
  distinct_beakers w ->
  step (fi, ti, k) w = (Ret (obs, reward, done, truncated), w') ->
  exists i j,
    py_index (num_beakers w) fi = Ret i ∧
    py_index (num_beakers w) ti = Ret j ∧
    transfer_values (contents w) i j k = Ret (contents w') ∧
    obs = np.Arr2 (row_of <$> contents w') ∧
    reward = (- best_of (target_paint w') (contents w') infinity)%float ∧
    distinct_beakers w' ∧ num_beakers w' = num_beakers w ∧
    step_count w' = step_count w + 1.
Proof.
  intros Hwf H.
  destruct (py_index (num_beakers w) fi) as [i|e] eqn:Hfi.
  2:{ unfold step in H.
      rewrite (bind_raise _ _ _ _ _ (b64_beakers_getitem_raise _ _ _ Hfi)) in H.
      discriminate. }
  destruct (py_index (num_beakers w) ti) as [j|e] eqn:Hti.
  2:{ unfold step in H.
      destruct (lookup_lt_is_Some_2 _ _ (py_index_lt _ _ _ Hfi)) as [r_i Hri].
      rewrite (bind_run _ _ _ _ _ (b64_beakers_getitem_eval _ _ _ _ Hfi Hri)) in H.
      rewrite (bind_raise _ _ _ _ _ (b64_beakers_getitem_raise _ _ _ Hti)) in H.
      discriminate. }
  pose proof (b64_step_eval w fi ti k i j Hwf Hfi Hti) as He.
  destruct (transfer_values (contents w) i j k) as [ps'|e] eqn:Ht.
  - destruct He as (w0 & Hs & Hwf' & Hc & Hsc & _ & Htp & Hn).
    rewrite Hs in H. inversion H; subst. exists i, j.
    rewrite Htp. split_and!; auto.
  - destruct He as (w1 & Hs). rewrite Hs in H. discriminate.
Qed.

End binary64.

(** ** Comparisons of doubles *)





(** ** Signs *)





Lemma not_negative_spec (x : float) :
  B64.sf_not_negative (Prim2SF x) -> B64.not_negative x.
Proof.
  unfold B64.not_negative. rewrite ltb_spec.
  change (Prim2SF 0) with (S754_zero false).
  destruct (Prim2SF x) as [s|s| |s m e]; try destruct s; simpl; auto;
    contradiction.
Qed.



(** ** The distances of the reward *)






(** ** Sums of amounts *)


Lemma b64_contents_length (w : B64.World) :
  length (B64.contents w) = B64.num_beakers w.
Proof. unfold B64.contents, B64.num_beakers. apply length_fmap. Qed.

(** ** The module's environment, computed *)

Lemma b64_env_distinct : B64.distinct_beakers B64.env.
Proof. split; [compute_done | repeat constructor]. Qed.

Lemma b64_env_first_step :
  exists w',
    B64.step (0, 1, 50) B64.env =
      (Ret (B64.np.Arr2 [ [255; 0; 0; 50]; [85; 170; 0; 150]; [0; 0; 255; 100] ]%float,
            (-60.108235708594876)%float, false, false), w') ∧
    B64.contents w' =
      [ B64.mkPaint (255, 0, 0) 50%float;
        B64.mkPaint (85, 170, 0) 150%float;
        B64.mkPaint (0, 0, 255) 100%float ] ∧
    B64.target_paint w' = B64.mkPaint (128, 128, 0) 150%float.
Proof. eexists. split_and!; vm_compute; reflexivity. Qed.

(** * The properties that depend on the rounding *)

(** Four properties of the specification are equalities of amounts, of
    colors or of rewards that hold over the real numbers and that the
    roundings of binary64 break.  Each is refuted on a run of the module's
    environment, and the statement that holds of the code is proved for
    every state. *)

(** ** What a step does to the paints *)

(** A step that returns on distinct beakers, with indices inside the list:
    the split of the source, the mix, and the paints afterwards. *)
Lemma b64_step_transfer
    (w w' : B64.World) (fi ti k : Z) obs reward done truncated :
  B64.distinct_beakers w ->
  0 <= fi < Z.of_nat (B64.num_beakers w) ->
  0 <= ti < Z.of_nat (B64.num_beakers w) ->
  B64.step (fi, ti, k) w = (Ret (obs, reward, done, truncated), w') ->
  let i := Z.to_nat fi in
  let j := Z.to_nat ti in
  let p_from := B64.contents w !!! i in
  exists ratio portion rest mix,
    B64.float_of_int k = Ret ratio ∧
    B64.split_values p_from (ratio / 100 * B64.amount p_from) = (portion, rest) ∧
    B64.mixed (<[i := rest]> (B64.contents w) !!! j) portion = Ret mix ∧
    B64.contents w' = <[j := mix]> (<[i := rest]> (B64.contents w)) ∧
    B64.distinct_beakers w' ∧
    B64.num_beakers w' = B64.num_beakers w ∧
    B64.step_count w' = B64.step_count w + 1.
Proof.
  intros Hwf Hfi Hti H i j p_from.
  apply (b64_step_inv _ _ _ _ _ _ _ _ _ Hwf) in H
    as (i' & j' & Hi & Hj & Ht & _ & _ & Hwf' & Hn & Hsc).
  rewrite (py_index_valid _ _ Hfi) in Hi. injection Hi as <-.
  rewrite (py_index_valid _ _ Hti) in Hj. injection Hj as <-.
  unfold B64.transfer_values in Ht.
  destruct (B64.float_of_int k) as [ratio|e]; [|discriminate].
  fold i j p_from in Ht.
  destruct (B64.split_values p_from (ratio / 100 * B64.amount p_from))
    as [portion rest] eqn:Hsp.
  destruct (B64.mixed (<[i := rest]> (B64.contents w) !!! j) portion)
    as [mix|e] eqn:Hm; [|discriminate].
  injection Ht as Ht. exists ratio, portion, rest, mix. split_and!; auto.
Qed.

(** ** Conservation, up to the roundings *)

(** What [split] creates or loses, branch by branch: nothing when nothing
    is split off; the whole amount, handed out and kept, when all of it
    is asked for; the error of the subtraction otherwise. *)
Lemma split_error_cases (p : B64.Paint) (s : float) :
  ((s <=? 0)%float = true -> B64.split_error p s = 0%Qc) ∧
  ((s <=? 0)%float = false -> (B64.amount p <=? s)%float = true ->
     B64.split_error p s = B64.exact (B64.amount p)) ∧
  ((s <=? 0)%float = false -> (B64.amount p <=? s)%float = false ->
     B64.split_error p s
     = (B64.exact s + B64.exact (B64.py_max (B64.amount p - s) 0)
        - B64.exact (B64.amount p))%Qc).
Proof.
  unfold B64.split_error, B64.split_values. split_and!.
  - intros ->. cbn [B64.amount].
    change (B64.exact 0%float) with 0%Qc. ring.
  - intros -> ->. cbn [B64.amount]. ring.
  - intros -> ->. cbn [B64.amount]. reflexivity.
Qed.




(** ** Zeros and small ints *)

(** [x == 0] holds for the two zeros only. *)
Lemma is_zero_cases (x : float) :
  B64.is_zero x -> x = 0%float ∨ x = (-0)%float.
Proof.
  unfold B64.is_zero. rewrite FloatAxioms.eqb_spec. intros H.
  rewrite <- (SF2Prim_Prim2SF x).
  destruct (Prim2SF x) as [[]|[]| |[] m e]; try discriminate H.
  - now right.
  - now left.
Qed.

Lemma is_zero_add (x y : float) :
  B64.is_zero x -> B64.is_zero y -> B64.is_zero (x + y).
Proof.
  intros Hx Hy.
  destruct (is_zero_cases _ Hx) as [-> | ->], (is_zero_cases _ Hy) as [-> | ->];
    reflexivity.
Qed.

(** Every byte converts to a double. *)
Lemma float_of_int_small (n : nat) :
  (n < 256)%nat -> exists f, B64.float_of_int (Z.of_nat n) = Ret f.
Proof.
  intros H. do 256 (destruct n as [|n]; [eexists; vm_compute; reflexivity|]).
  lia.
Qed.

Lemma float_of_int_byte (z : Z) :
  0 <= z <= 255 -> exists f, B64.float_of_int z = Ret f.
Proof.
  intros H. rewrite <- (Z2Nat.id z) by lia. apply float_of_int_small. lia.
Qed.

Lemma float_of_int_cases (z : Z) :
  (exists f, B64.float_of_int z = Ret f) ∨ B64.float_of_int z = Raise OverflowError.
Proof.
  unfold B64.float_of_int. cbv zeta.
  destruct (is_infinity _); [now right | left; eauto].
Qed.

(** ** Mixing two empty paints *)

(** C4 (amended). When both operands of the mixer have amount zero (0.0
    or -0.0), mixing raises: [ZeroDivisionError] from the division by the
    total amount, or [OverflowError] from a channel too large for a float,
    which is met first; with channels in [0, 255] it is
    [ZeroDivisionError]. *)
Theorem C4_mixing_two_empty_paints_raises (p1 p2 : B64.Paint) :
  B64.is_zero (B64.amount p1) -> B64.is_zero (B64.amount p2) ->
  (B64.SubtractiveModel.mix_colors p1 p2 = Raise ZeroDivisionError ∨
   B64.SubtractiveModel.mix_colors p1 p2 = Raise OverflowError) ∧
  (in_range (B64.color p1) -> in_range (B64.color p2) ->
   B64.SubtractiveModel.mix_colors p1 p2 = Raise ZeroDivisionError).
Proof.
  intros H1 H2. pose proof (is_zero_add _ _ H1 H2) as Hz.
  unfold B64.is_zero in Hz.
  unfold B64.SubtractiveModel.mix_colors, B64.SubtractiveModel.mixed_channel,
    B64.py_div.
  rewrite Hz.
  destruct (B64.color p1) as [[r1 g1] b1], (B64.color p2) as [[r2 g2] b2].
  cbn [B64.SubtractiveModel._rgb_to_cmy channel]. split.
  - destruct (float_of_int_cases (255 - r1)) as [[f1 ->] | ->]; [|now right].
    destruct (float_of_int_cases (255 - r2)) as [[f2 ->] | ->]; [|now right].
    now left.
  - intros (Hr1 & _) (Hr2 & _). cbn [channel] in Hr1, Hr2.
    destruct (float_of_int_byte (255 - r1)) as [f1 ->]; [lia|].
    destruct (float_of_int_byte (255 - r2)) as [f2 ->]; [lia|].
    reflexivity.
Qed.

Lemma C4_mixing_two_empty_paints_raises_witness :
  B64.SubtractiveModel.mix_colors
    (B64.mkPaint (255, 0, 0) 0%float) (B64.mkPaint (0, 255, 0) (-0)%float)
  = Raise ZeroDivisionError.
Proof.
  apply (C4_mixing_two_empty_paints_raises
           (B64.mkPaint (255, 0, 0) 0%float) (B64.mkPaint (0, 255, 0) (-0)%float));
    [reflexivity | reflexivity | |]; unfold in_range; simpl; lia.
Defined.

(** ** Reward *)





(** ** Pouring a beaker into itself *)




(** * More of the code, in binary64 *)

(** ** The methods of [Paint] *)

Lemma py_max_zero_not_negative (x : float) : B64.not_negative (B64.py_max x 0).
Proof.
  unfold B64.not_negative, B64.py_max.
  destruct (x <? 0)%float eqn:E; [reflexivity | exact E].
Qed.

(** X2. [subtract_amount(d)] on an existing paint returns, keeps the color
    and stores [max(amount - d, 0)]: zero when the rounded difference is
    below zero, the rounded difference otherwise, so never a number below
    zero; no other object changes and none is created. *)
Theorem X2_subtract_amount_clamps
    (h : list B64.Paint) (r : ref) (p : B64.Paint) (d : float) :
  h !! r = Some p ->
  exists a h',
    B64.subtract_amount r d h = (Ret tt, h') ∧
    h' !! r = Some (B64.mkPaint (B64.color p) a) ∧
    B64.not_negative a ∧
    ((B64.amount p - d <? 0)%float = true -> a = 0%float) ∧
    ((B64.amount p - d <? 0)%float = false -> a = (B64.amount p - d)%float) ∧
    length h' = length h ∧
    (forall r', r' ≠ r -> h' !! r' = h !! r').
Proof.
  intros Hr. pose proof (lookup_lt_Some _ _ _ Hr) as Hlt.
  exists (B64.py_max (B64.amount p - d) 0),
         (<[r := B64.mkPaint (B64.color p) (B64.py_max (B64.amount p - d) 0)]> h).
  split_and!.
  - unfold B64.subtract_amount.
    rewrite (bind_run _ _ _ _ _ (b64_load_run _ _ _ Hr)).
    unfold B64.set_amount. now rewrite Hr.
  - now apply list_lookup_insert_eq.
  - apply py_max_zero_not_negative.
  - intros E. unfold B64.py_max. now rewrite E.
  - intros E. unfold B64.py_max. now rewrite E.
  - apply length_insert.
  - intros r' Hne. now apply list_lookup_insert_ne.
Qed.

Lemma X2_subtract_amount_clamps_witness :
  exists a h',
    B64.subtract_amount 0%nat 130%float [B64.mkPaint (255, 0, 0) 100%float]
    = (Ret tt, h') ∧
    h' !! 0%nat = Some (B64.mkPaint (255, 0, 0) a) ∧
    B64.not_negative a ∧
    ((100 - 130 <? 0)%float = true -> a = 0%float) ∧
    ((100 - 130 <? 0)%float = false -> a = (100 - 130)%float) ∧
    length h' = 1%nat ∧
    (forall r', r' ≠ 0%nat ->
       h' !! r' = [B64.mkPaint (255, 0, 0) 100%float] !! r').
Proof.
  exact (X2_subtract_amount_clamps
           [B64.mkPaint (255, 0, 0) 100%float] 0%nat
           (B64.mkPaint (255, 0, 0) 100%float) 130%float eq_refl).
Defined.

(** X3. [split(s)] on an existing paint returns; the portion is a new
    object with the receiver's color and the amount 0 when [s <= 0], the
    whole amount when [s >= amount], and [s] otherwise; the receiver keeps
    its color, and its amount too in the first two cases; in the third it
    is left with [max(amount - s, 0)], the difference rounded.  Every
    other existing object is unchanged. *)
Theorem X3_split_portion_and_receiver
    (h : list B64.Paint) (r : ref) (p : B64.Paint) (s : float) :
  h !! r = Some p ->
  exists o h' portion rest,
    B64.split r s h = (Ret (length h, o), h') ∧
    h !! length h = None ∧
    h' !! length h = Some portion ∧
    h' !! r = Some rest ∧
    B64.color portion = B64.color p ∧
    B64.color rest = B64.color p ∧
    ((s <=? 0)%float = true -> B64.amount portion = 0%float ∧ rest = p) ∧
    ((s <=? 0)%float = false -> (B64.amount p <=? s)%float = true ->
       B64.amount portion = B64.amount p ∧ rest = p) ∧
    ((s <=? 0)%float = false -> (B64.amount p <=? s)%float = false ->
       B64.amount portion = s ∧
       B64.amount rest = B64.py_max (B64.amount p - s) 0 ∧
       B64.not_negative (B64.amount rest)) ∧
    (forall r', (r' < length h)%nat -> r' ≠ r -> h' !! r' = h !! r').
Proof.
  intros Hr.
  destruct (b64_split_spec h r p s Hr) as (o & h' & Hs & _ & Hrest & Hpor & Hoth).
  exists o, h', (B64.split_values p s).1, (B64.split_values p s).2.
  split_and!; auto.
  - apply lookup_ge_None. lia.
  - unfold B64.split_values.
    destruct (s <=? 0)%float; [|destruct (B64.amount p <=? s)%float]; reflexivity.
  - unfold B64.split_values.
    destruct (s <=? 0)%float; [|destruct (B64.amount p <=? s)%float]; reflexivity.
  - intros E. unfold B64.split_values. rewrite E. now split.
  - intros E1 E2. unfold B64.split_values. rewrite E1, E2. now split.
  - intros E1 E2. unfold B64.split_values. rewrite E1, E2. simpl.
    split_and!; auto using py_max_zero_not_negative.
Qed.

Lemma X3_split_portion_and_receiver_witness :
  exists o h' portion rest,
    B64.split 0%nat 7%float [B64.mkPaint (255, 0, 0) 100%float]
    = (Ret (1%nat, o), h') ∧
    h' !! 1%nat = Some portion ∧
    h' !! 0%nat = Some rest ∧
    B64.amount portion = 7%float ∧
    B64.amount rest = 93%float.
Proof.
  destruct (X3_split_portion_and_receiver
              [B64.mkPaint (255, 0, 0) 100%float] 0%nat
              (B64.mkPaint (255, 0, 0) 100%float) 7%float eq_refl)
    as (o & h' & portion & rest & Hs & _ & Hp & Hr & _ & _ & _ & _ & H3 & _).
  exists o, h', portion, rest.
  destruct (H3 eq_refl eq_refl) as (Ha & Hb & _).
  split_and!; [exact Hs | exact Hp | exact Hr | exact Ha | exact Hb].
Defined.

(** X5. [mix_with] never modifies its two operands: when [mix_colors]
    returns a color the result is a new object with that color and the
    rounded sum of the two amounts, every existing object as it was; when
    [mix_colors] raises, [mix_with] raises the same exception and no object
    has changed or been created. *)
Theorem X5_mix_with_leaves_its_operands
    (h : list B64.Paint) (r1 r2 : ref) (p1 p2 : B64.Paint) :
  h !! r1 = Some p1 -> h !! r2 = Some p2 ->
  match B64.SubtractiveModel.mix_colors p1 p2 with
  | Ret c =>
      exists h',
        B64.mix_with r1 r2 h = (Ret (length h), h') ∧
        h !! length h = None ∧
        h' !! length h
        = Some (B64.mkPaint c (B64.amount p1 + B64.amount p2)) ∧
        (forall r, (r < length h)%nat -> h' !! r = h !! r) ∧
        length h' = S (length h)
  | Raise e => B64.mix_with r1 r2 h = (Raise e, h)
  end.
Proof.
  intros H1 H2. rewrite (b64_mix_with_eval h r1 r2 p1 p2 H1 H2).
  unfold B64.mixed.
  destruct (B64.SubtractiveModel.mix_colors p1 p2) as [c|e]; [|reflexivity].
  eexists. split_and!; [reflexivity | | | |].
  - apply lookup_ge_None. lia.
  - rewrite lookup_app_r by lia. now rewrite Nat.sub_diag.
  - intros r Hlt. now apply lookup_app_l.
  - rewrite length_app. simpl. lia.
Qed.

Lemma X5_mix_with_leaves_its_operands_witness :
  exists h',
    B64.mix_with 0%nat 1%nat
      [B64.mkPaint (0, 255, 0) 100%float; B64.mkPaint (255, 0, 0) 50%float]
    = (Ret 2%nat, h') ∧
    h' !! 2%nat = Some (B64.mkPaint (85, 170, 0) (100 + 50)%float) ∧
    (forall r, (r < 2)%nat ->
       h' !! r = [B64.mkPaint (0, 255, 0) 100%float;
                  B64.mkPaint (255, 0, 0) 50%float] !! r).
Proof.
  pose proof (X5_mix_with_leaves_its_operands
                [B64.mkPaint (0, 255, 0) 100%float; B64.mkPaint (255, 0, 0) 50%float]
                0%nat 1%nat _ _ eq_refl eq_refl) as H.
  vm_compute B64.SubtractiveModel.mix_colors in H.
  destruct H as (h' & Hm & _ & Hn & Hold & _).
  exists h'. split_and!; [exact Hm | exact Hn | exact Hold].
Defined.

(** ** One step *)

(** X10. What a step pours.  For distinct beakers and two different
    positions inside the list, a step that returns has split the source
    at [ratio / 100.0 * amount], a double after two roundings: the source
    is left with what [split] leaves of it, in its color; the destination
    gets the color [mix_colors] computes for it and the portion, and the
    rounded sum of the two amounts; every other beaker is unchanged. *)
Theorem X10_step_moves_the_ratio_of_the_source
    (w w' : B64.World) (fi ti k : Z) obs reward done truncated :
  B64.distinct_beakers w ->
  0 <= fi < Z.of_nat (B64.num_beakers w) ->
  0 <= ti < Z.of_nat (B64.num_beakers w) ->
  fi ≠ ti ->
  B64.step (fi, ti, k) w = (Ret (obs, reward, done, truncated), w') ->
  let i := Z.to_nat fi in
  let j := Z.to_nat ti in
  let p_from := B64.contents w !!! i in
  let p_to := B64.contents w !!! j in
  exists ratio portion rest mixed_color,
    B64.float_of_int k = Ret ratio ∧
    B64.split_values p_from (ratio / 100 * B64.amount p_from) = (portion, rest) ∧
    B64.color portion = B64.color p_from ∧
    B64.color rest = B64.color p_from ∧
    B64.SubtractiveModel.mix_colors p_to portion = Ret mixed_color ∧
    B64.contents w' !! i = Some rest ∧
    B64.contents w' !! j
    = Some (B64.mkPaint mixed_color (B64.amount p_to + B64.amount portion)) ∧
    (forall l, l ≠ i -> l ≠ j -> B64.contents w' !! l = B64.contents w !! l).
Proof.
  intros Hwf Hfi Hti Hne H i j p_from p_to.
  destruct (b64_step_transfer _ _ _ _ _ _ _ _ _ Hwf Hfi Hti H)
    as (ratio & portion & rest & mix & Hk & Hsp & Hm & Hc & _ & _ & _).
  fold i j p_from in Hsp, Hm, Hc.
  assert (Hij : i ≠ j) by (unfold i, j; lia).
  assert (Hi : (i < length (B64.contents w))%nat).
  { rewrite b64_contents_length. unfold i. lia. }
  assert (Hj : (j < length (B64.contents w))%nat).
  { rewrite b64_contents_length. unfold j. lia. }
  rewrite list_lookup_total_insert_ne in Hm by exact Hij. fold p_to in Hm.
  unfold B64.mixed in Hm.
  destruct (B64.SubtractiveModel.mix_colors p_to portion) as [c|e] eqn:Hmc;
    [|discriminate].
  injection Hm as <-.
  exists ratio, portion, rest, c. split_and!; auto.
  - unfold B64.split_values in Hsp.
    destruct (_ <=? 0)%float; [|destruct (B64.amount p_from <=? _)%float];
      injection Hsp as <- <-; reflexivity.
  - unfold B64.split_values in Hsp.
    destruct (_ <=? 0)%float; [|destruct (B64.amount p_from <=? _)%float];
      injection Hsp as <- <-; reflexivity.
  - rewrite Hc, list_lookup_insert_ne by auto. now apply list_lookup_insert_eq.
  - rewrite Hc. apply list_lookup_insert_eq. now rewrite length_insert.
  - intros l Hli Hlj. rewrite Hc.
    rewrite list_lookup_insert_ne by auto. now apply list_lookup_insert_ne.
Qed.

Lemma X10_step_moves_the_ratio_of_the_source_witness :
  exists obs reward done truncated w',
    B64.step (0, 1, 50) B64.env = (Ret (obs, reward, done, truncated), w') ∧
    let i := Z.to_nat 0 in
    let j := Z.to_nat 1 in
    let p_from := B64.contents B64.env !!! i in
    let p_to := B64.contents B64.env !!! j in
    exists ratio portion rest mixed_color,
      B64.float_of_int 50 = Ret ratio ∧
      B64.split_values p_from (ratio / 100 * B64.amount p_from) = (portion, rest) ∧
      B64.color portion = B64.color p_from ∧
      B64.color rest = B64.color p_from ∧
      B64.SubtractiveModel.mix_colors p_to portion = Ret mixed_color ∧
      B64.contents w' !! i = Some rest ∧
      B64.contents w' !! j
      = Some (B64.mkPaint mixed_color (B64.amount p_to + B64.amount portion)) ∧
      (forall l, l ≠ i -> l ≠ j ->
         B64.contents w' !! l = B64.contents B64.env !! l).
Proof.
  destruct b64_env_first_step as (w' & Hs & _).
  eexists _, _, _, _, w'. split; [exact Hs|].
  refine (X10_step_moves_the_ratio_of_the_source
            B64.env w' 0 1 50 _ _ _ _ b64_env_distinct _ _ _ Hs).
  - change (B64.num_beakers B64.env) with 3%nat. lia.
  - change (B64.num_beakers B64.env) with 3%nat. lia.
  - lia.
Defined.
